(** * Appointment routes: calendar / ledger synchronisation

    A shallow embedding of [src/routes/appointmentRoutes.js], of the guard
    [src/middleware/authMiddleware.js] that every protected route runs first,
    and of the [Appointment] table of the [init] migration.

    The Google Calendar client, the Prisma client, [jsonwebtoken] and the
    JavaScript [Date] object are the collaborators of this code.  They are
    modelled as capabilities acting on an explicit [World]: each call is
    appended to a trace, may be made to reject, and otherwise reads or
    updates the part of the world it owns.  The handlers themselves are
    written in a small state-and-exception monad, one bind per [await].

    What the capabilities are taken to do:
    - [events.list] answers, in one piece, the events whose time range
      meets the window, recurring series expanded and the answer ordered
      by start time when the query asks for it;
    - [events.get] rejects when the calendar stores no event under the id
      (the client turns the 404 of the service into a rejected promise),
      and otherwise answers with the event in [data];
    - [events.update] replaces the stored event by the resource it is sent;
    - the Prisma calls follow the table of the migration, and treat a
      property that is [undefined] as absent: no value in [data], no
      condition in [where]; an INSERT that the table turns down for its
      foreign key has taken its value of the [id] sequence all the same;
    - a timestamp string is represented by the time it denotes. *)

From Stdlib Require Import ZArith String Ascii Bool.
From stdpp Require Import base tactics option list sorting numbers.

Local Open Scope string_scope.
Local Open Scope Z_scope.

(** ** Strings

    A string is the sequence of the bytes of its UTF-8 encoding.
    [toUpperCase] follows [String.prototype.toUpperCase] on the characters
    whose upper-case form is one ASCII letter: the letters a..z, and the
    two characters outside ASCII that have such a form, dotless i (U+0131,
    bytes C4 B1) with I and long s (U+017F, bytes C5 BF) with S.  Every
    other character is kept as it is.  That is exact for the test the
    routes make of the result: the few other characters whose upper-case
    form holds a letter of AVAILABLE hold it next to a character that no
    occurrence of the token has there (FI, FL, A before a modifier). *)

Definition upper_ascii (c : ascii) : ascii :=
  let n := nat_of_ascii c in
  if Nat.leb 97 n && Nat.leb n 122 then ascii_of_nat (n - 32) else c.

(** The upper-case form of the character that the bytes [c], [d] encode,
    where it is an ASCII letter. *)
Definition upper_two_bytes (c d : ascii) : option ascii :=
  if Ascii.eqb c (ascii_of_nat 196) && Ascii.eqb d (ascii_of_nat 177) then Some "I"%char
  else if Ascii.eqb c (ascii_of_nat 197) && Ascii.eqb d (ascii_of_nat 191) then Some "S"%char
  else None.

Fixpoint toUpperCase (s : string) : string :=
  match s with
  | EmptyString => EmptyString
  | String c r =>
      match r with
      | EmptyString => String (upper_ascii c) EmptyString
      | String d r' =>
          match upper_two_bytes c d with
          | Some u => String u (toUpperCase r')
          | None => String (upper_ascii c) (toUpperCase r)
          end
      end
  end.

(** The bytes that open and that close such a pair, and the last byte of a
    string. *)
Definition opens (c : ascii) : bool :=
  Ascii.eqb c (ascii_of_nat 196) || Ascii.eqb c (ascii_of_nat 197).

Definition closes (d : ascii) : bool :=
  Ascii.eqb d (ascii_of_nat 177) || Ascii.eqb d (ascii_of_nat 191).

Fixpoint last_byte (s : string) : option ascii :=
  match s with
  | EmptyString => None
  | String c r => match last_byte r with Some x => Some x | None => Some c end
  end.

(** [String.prototype.startsWith] and [String.prototype.includes]. *)
Fixpoint startsWith (s t : string) {struct t} : bool :=
  match t, s with
  | EmptyString, _ => true
  | String _ _, EmptyString => false
  | String b t', String a s' => if Ascii.eqb a b then startsWith s' t' else false
  end.

Fixpoint includes (s t : string) : bool :=
  startsWith s t ||
  match s with
  | EmptyString => false
  | String _ r => includes r t
  end.

(** [String.prototype.substring(n)]: the string without its first [n]
    characters. *)
Fixpoint substring_from (n : nat) (s : string) : string :=
  match n, s with
  | O, _ => s
  | S _, EmptyString => EmptyString
  | S n', String _ r => substring_from n' r
  end.

(** [h.startsWith('Bearer ') ? h.substring(7) : h] *)
Definition bearer_token (authHeader : string) : string :=
  if startsWith authHeader "Bearer " then substring_from 7 authHeader else authHeader.

(** [x || ''] on an optional string. *)
Definition or_empty (x : option string) : string :=
  match x with
  | Some s => s
  | None => ""
  end.

(** The test both the listing and the booking route apply to a label:
    [(summary || '').toUpperCase().includes('AVAILABLE')]. *)
Definition AVAILABLE_TOKEN : string := "AVAILABLE".

Definition marks_available (summary : option string) : bool :=
  includes (toUpperCase (or_empty summary)) AVAILABLE_TOKEN.

(** What the specification calls a case-insensitive substring match of a
    token in a label: some contiguous part of the label equals the token up
    to the case of its letters. *)
Definition ci_substring (tok label : string) : Prop :=
  exists pre mid post : string,
    label = append pre (append mid post) /\ toUpperCase mid = toUpperCase tok.

(** ** Data model *)

(** Time.  An instant is a number of milliseconds since the epoch; a
    timestamp string is represented by the value it denotes: a date-time by
    its instant, a date-only value by its day number. *)
Definition Instant := Z.

Definition MS_PER_DAY : Z := 86400000.

Inductive IsoString :=
| IsoDateTime (ms : Z)
| IsoDate (day : Z).

(** [new Date(x)]: [None] is the Invalid Date that [new Date(undefined)]
    yields; a date-only string denotes midnight UTC of its day. *)
Definition new_Date (x : option IsoString) : option Instant :=
  match x with
  | Some (IsoDateTime ms) => Some ms
  | Some (IsoDate day) => Some (day * MS_PER_DAY)
  | None => None
  end.

(** The [start] / [end] value of a calendar event. *)
Record EventDateTime := mkEventDateTime {
  date : option Z;
  dateTime : option Z;
  timeZone : option string
}.

(** [x.dateTime || x.date] *)
Definition dateTime_or_date (x : EventDateTime) : option IsoString :=
  match dateTime x with
  | Some ms => Some (IsoDateTime ms)
  | None => option_map IsoDate (date x)
  end.

(** A calendar event (a slot).  [other] holds every property of the remote
    representation that this code never looks at, by name. *)
Record Event := mkEvent {
  event_id : string;
  summary : option string;
  start : option EventDateTime;
  end_ : option EventDateTime;
  other : list (string * string)
}.

(** [{ ...event, summary: s }] *)
Definition with_summary (event : Event) (s : string) : Event :=
  {| event_id := event_id event;
     summary := Some s;
     start := start event;
     end_ := end_ event;
     other := other event |}.

(** The remote calendar: single events, and recurring series with their
    occurrences. *)
Inductive Entry :=
| Single (e : Event)
| Series (master : Event) (occurrences : list Event).

Definition Calendar := list Entry.

(** The ledger: table [Appointment] of the migration. *)
Inductive AppointmentStatus := AVAILABLE | BOOKED | CANCELLED.

Record Appointment := mkAppointment {
  appt_id : Z;
  startTime : Instant;
  endTime : Instant;
  status : AppointmentStatus;
  googleEventId : option string;
  patientId : option Z;
  createdAt : Instant
}.

Inductive UserRole := PATIENT | ADMIN | CAREGIVER.

Record User := mkUser {
  user_id : Z;
  fullName : option string;
  dateOfBirth : option Instant;
  role : UserRole
}.

#[global] Instance AppointmentStatus_eq_dec : EqDecision AppointmentStatus.
Proof. solve_decision. Defined.
#[global] Instance UserRole_eq_dec : EqDecision UserRole.
Proof. solve_decision. Defined.
#[global] Instance string_eq_dec' : EqDecision string := String.string_dec.
#[global] Instance EventDateTime_eq_dec : EqDecision EventDateTime.
Proof. solve_decision. Defined.
#[global] Instance Event_eq_dec : EqDecision Event.
Proof. solve_decision. Defined.
#[global] Instance Appointment_eq_dec : EqDecision Appointment.
Proof. solve_decision. Defined.

(** ** Requests and responses *)

Record Request := mkRequest {
  headers_authorization : option string;
  params_eventId : string;
  query_code : option string;
  userId : option Z;
  user : option User
}.

(** [req.user = user] *)
Definition set_user (req : Request) (u : User) : Request :=
  {| headers_authorization := headers_authorization req;
     params_eventId := params_eventId req;
     query_code := query_code req;
     userId := userId req;
     user := Some u |}.

Inductive JsonBody :=
| JsonEvents (events : list Event)
| JsonAppointment (a : Appointment)
| JsonAppointments (rows : list Appointment)
| JsonMessage (message : string).

(** [res.status(n).send(text)], [res.status(n).json(v)] (status 200 when the
    code calls [res.json] directly) and [res.redirect(url)]. *)
Inductive Response :=
| Send (code : Z) (text : string)
| Json (code : Z) (v : JsonBody)
| Redirect (url : string).

(** The failure kinds of the specification, read off the responses of the
    routes: the two 400 answers are told apart by their text. *)
Inductive ErrorKind := UpstreamUnavailable | NotFound | Conflict | Unauthenticated.

Definition error_kind (r : Response) : option ErrorKind :=
  match r with
  | Send 500 _ | Json 500 _ => Some UpstreamUnavailable
  | Send 404 _ => Some NotFound
  | Send 401 _ | Json 401 _ => Some Unauthenticated
  | Send 400 text =>
      if decide (text = "Google calendar is not authorized yet.") then Some UpstreamUnavailable
      else if decide (text = "This slot is not available anymore.") then Some Conflict
      else None
  | _ => None
  end.

(** ** The world the routes act on *)

Inductive OrderBy := OrderByStartTime | OrderByUpdated.

Record ListQuery := mkListQuery {
  q_calendarId : string;
  timeMin : Instant;
  timeMax : Instant;
  singleEvents : bool;
  orderBy : option OrderBy
}.

(** Arguments of the Prisma calls.  A property that is [undefined] in the
    JavaScript object is [None]: Prisma leaves such a column to its default
    in [data], and puts no condition on it in [where]. *)
Record AppointmentData := mkAppointmentData {
  d_startTime : option Instant;
  d_endTime : option Instant;
  d_status : option AppointmentStatus;
  d_googleEventId : option string;
  d_patientId : option Z
}.

Record AppointmentWhere := mkAppointmentWhere {
  w_googleEventId : option string;
  w_patientId : option Z;
  w_status : option AppointmentStatus
}.

Inductive Capability :=
| EventsList | EventsGet | EventsUpdate
| AppointmentCreate | AppointmentUpdateMany | AppointmentFindMany
| UserFindUnique | OAuthGetToken.

#[global] Instance Capability_eq_dec : EqDecision Capability.
Proof. solve_decision. Defined.

(** One entry of the trace per call made to a collaborator. *)
Inductive Call :=
| CallEventsList (q : ListQuery)
| CallEventsGet (calendarId eventId : string)
| CallEventsUpdate (calendarId eventId : string) (resource : Event)
| CallAppointmentCreate (data : AppointmentData)
| CallAppointmentUpdateMany (where_ : AppointmentWhere) (new_status : AppointmentStatus)
| CallAppointmentFindMany (where_ : AppointmentWhere)
| CallUserFindUnique (id : Z)
| CallOAuthGetToken (code : string).

Definition is_ledger_call (c : Call) : bool :=
  match c with
  | CallAppointmentCreate _ | CallAppointmentUpdateMany _ _
  | CallAppointmentFindMany _ => true
  | _ => false
  end.

Record World := mkWorld {
  tokensSet : bool;                  (* the module-level flag *)
  calendar : Calendar;               (* the caregiver's remote calendar *)
  appointments : list Appointment;   (* rows of table Appointment, oldest first *)
  appointment_seq : Z;               (* next value of the SERIAL key *)
  users : list User;                 (* rows of table User *)
  clock : Instant;                   (* the current time *)
  rejecting : list Capability;       (* capabilities whose calls reject *)
  trace : list Call                  (* calls made so far, oldest first *)
}.

Definition set_tokensSet (b : bool) (w : World) : World :=
  {| tokensSet := b; calendar := calendar w; appointments := appointments w;
     appointment_seq := appointment_seq w; users := users w; clock := clock w;
     rejecting := rejecting w; trace := trace w |}.

Definition set_calendar (c : Calendar) (w : World) : World :=
  {| tokensSet := tokensSet w; calendar := c; appointments := appointments w;
     appointment_seq := appointment_seq w; users := users w; clock := clock w;
     rejecting := rejecting w; trace := trace w |}.

Definition set_appointments (rows : list Appointment) (seq : Z) (w : World) : World :=
  {| tokensSet := tokensSet w; calendar := calendar w; appointments := rows;
     appointment_seq := seq; users := users w; clock := clock w;
     rejecting := rejecting w; trace := trace w |}.

Definition log (c : Call) (w : World) : World :=
  {| tokensSet := tokensSet w; calendar := calendar w; appointments := appointments w;
     appointment_seq := appointment_seq w; users := users w; clock := clock w;
     rejecting := rejecting w; trace := trace w ++ [c] |}.

(** ** Effects: state and exceptions *)

Inductive Exn :=
| UpstreamError (c : Capability)
| RequestError (c : Capability)
| TypeError
| ValidationError
| ForeignKeyError
| JsonWebTokenError.

Inductive Outcome (A : Type) :=
| Return (a : A)
| Throw (e : Exn).
Arguments Return {A} a.
Arguments Throw {A} e.

Definition Eff (A : Type) : Type := World -> Outcome A * World.

Definition ret {A} (a : A) : Eff A := fun w => (Return a, w).

Definition throw {A} (e : Exn) : Eff A := fun w => (Throw e, w).

Definition bind {A B} (m : Eff A) (k : A -> Eff B) : Eff B :=
  fun w =>
    match m w with
    | (Return a, w') => k a w'
    | (Throw e, w') => (Throw e, w')
    end.

(** [try { m } catch (err) { h err }] *)
Definition try_catch {A} (m : Eff A) (h : Exn -> Eff A) : Eff A :=
  fun w =>
    match m w with
    | (Return a, w') => (Return a, w')
    | (Throw e, w') => h e w'
    end.

Definition read {A} (f : World -> A) : Eff A := fun w => (Return (f w), w).

Definition modify (f : World -> World) : Eff unit := fun w => (Return tt, f w).

Declare Scope eff_scope.
Delimit Scope eff_scope with eff.
Notation "'let!' x ':=' m 'in' k" := (bind m (fun x => k))
  (at level 10, x name, m at level 100, k at level 200) : eff_scope.
Notation "m ';;' k" := (bind m (fun _ => k))
  (at level 100, k at level 200, right associativity) : eff_scope.
Local Open Scope eff_scope.

(** Every call to a collaborator is traced, and rejects when its capability
    is among the rejecting ones. *)
Definition call (cap : Capability) (c : Call) : Eff unit :=
  modify (log c) ;;
  let! down := read rejecting in
  if decide (cap ∈ down) then throw (UpstreamError cap) else ret tt.

(** ** The calendar capability

    [events.list], [events.get] and [events.update] of the calendar client,
    on the one calendar this code addresses. *)

Definition CAREGIVER_CALENDAR_ID : string := "primary".

(** Every event the calendar stores: singles, masters and occurrences. *)
Definition stored_of (en : Entry) : list Event :=
  match en with
  | Single e => [e]
  | Series m occ => m :: occ
  end.

Definition stored (cal : Calendar) : list Event := flat_map stored_of cal.

(** What a listing sees of an entry: with [singleEvents] a series shows as
    its occurrences, without it as its master. *)
Definition instances_of (single : bool) (en : Entry) : list Event :=
  match en with
  | Single e => [e]
  | Series m occ => if single then occ else [m]
  end.

Definition listed (single : bool) (cal : Calendar) : list Event :=
  flat_map (instances_of single) cal.

Definition start_instant (e : Event) : option Instant :=
  match start e with
  | Some s => new_Date (dateTime_or_date s)
  | None => None
  end.

Definition end_instant (e : Event) : option Instant :=
  match end_ e with
  | Some s => new_Date (dateTime_or_date s)
  | None => None
  end.

(** An event overlaps the window from [tmin] to [tmax] when it ends after
    [tmin] and starts before [tmax]. *)
Definition overlaps (tmin tmax : Instant) (e : Event) : bool :=
  match start_instant e, end_instant e with
  | Some s, Some t => (s <? tmax) && (tmin <? t)
  | _, _ => false
  end.

Definition start_key (e : Event) : Z := default 0 (start_instant e).

Definition start_le (e1 e2 : Event) : Prop := start_key e1 ≤ start_key e2.

#[global] Instance start_le_dec : RelDecision start_le.
Proof. intros e1 e2. unfold start_le. apply _. Defined.

#[global] Instance start_le_total : Total start_le.
Proof. intros e1 e2. unfold start_le. lia. Qed.

#[global] Instance start_le_trans : Transitive start_le.
Proof. intros e1 e2 e3. unfold start_le. lia. Qed.

Record ListResponse := mkListResponse { items : option (list Event) }.

Definition events_list (q : ListQuery) : Eff ListResponse :=
  call EventsList (CallEventsList q) ;;
  if negb (String.eqb (q_calendarId q) CAREGIVER_CALENDAR_ID) then throw (RequestError EventsList)
  else
    let! cal := read calendar in
    let hits := List.filter (overlaps (timeMin q) (timeMax q)) (listed (singleEvents q) cal) in
    match orderBy q with
    | Some OrderByStartTime =>
        if singleEvents q then ret {| items := Some (merge_sort start_le hits) |}
        else throw (RequestError EventsList)
    | _ => ret {| items := Some hits |}
    end.

Definition has_id (eventId : string) (e : Event) : bool :=
  String.eqb (event_id e) eventId.

(** The promise is rejected when the calendar stores no event under that
    id; [data] of an answer holds the event. *)
Definition events_get (calendarId eventId : string) : Eff (option Event) :=
  call EventsGet (CallEventsGet calendarId eventId) ;;
  if negb (String.eqb calendarId CAREGIVER_CALENDAR_ID) then throw (RequestError EventsGet)
  else
    let! cal := read calendar in
    match List.find (has_id eventId) (stored cal) with
    | None => throw (RequestError EventsGet)
    | Some e => ret (Some e)
    end.

(** A full overwrite: the stored event is replaced by [resource]. *)
Definition overwrite (eventId : string) (resource : Event) (e : Event) : Event :=
  if has_id eventId e then resource else e.

Definition overwrite_entry (eventId : string) (resource : Event) (en : Entry) : Entry :=
  match en with
  | Single e => Single (overwrite eventId resource e)
  | Series m occ =>
      Series (overwrite eventId resource m) (List.map (overwrite eventId resource) occ)
  end.

Definition events_update (calendarId eventId : string) (resource : Event) : Eff Event :=
  call EventsUpdate (CallEventsUpdate calendarId eventId resource) ;;
  if negb (String.eqb calendarId CAREGIVER_CALENDAR_ID) then throw (RequestError EventsUpdate)
  else
    let! cal := read calendar in
    match List.find (has_id eventId) (stored cal) with
    | None => throw (RequestError EventsUpdate)
    | Some _ =>
        modify (set_calendar (List.map (overwrite_entry eventId resource) cal)) ;;
        ret resource
    end.

(** ** The ledger capability

    [create], [updateMany] and [findMany] of the Prisma model [appointment],
    against the table of the migration: [startTime] and [endTime] are
    NOT NULL, [status] defaults to AVAILABLE, [patientId] references
    [User(id)], [id] is SERIAL and [createdAt] defaults to the current
    time. *)

Definition user_exists (us : list User) (p : Z) : bool :=
  existsb (fun u => user_id u =? p) us.

(** The client refuses [data] without a valid [startTime] or [endTime]
    before anything is sent.  The INSERT takes the next value of the
    sequence for [id]; the foreign key is checked on the row so built, and
    a row turned down leaves the table as it was and the value spent. *)
Definition appointment_create (data : AppointmentData) : Eff Appointment :=
  call AppointmentCreate (CallAppointmentCreate data) ;;
  match d_startTime data, d_endTime data with
  | Some s, Some e =>
      let! us := read users in
      let! rows := read appointments in
      let! n := read appointment_seq in
      let! now := read clock in
      if match d_patientId data with Some p => user_exists us p | None => true end then
        let row := {| appt_id := n; startTime := s; endTime := e;
                      status := default AVAILABLE (d_status data);
                      googleEventId := d_googleEventId data;
                      patientId := d_patientId data;
                      createdAt := now |} in
        modify (set_appointments (rows ++ [row]) (n + 1)) ;;
        ret row
      else
        modify (set_appointments rows (n + 1)) ;;
        throw ForeignKeyError
  | _, _ => throw ValidationError
  end.

Definition opt_matches {A} `{EqDecision A} (cond : option A) (v : option A) : bool :=
  match cond with
  | None => true
  | Some c => bool_decide (v = Some c)
  end.

Definition row_matches (wh : AppointmentWhere) (r : Appointment) : bool :=
  opt_matches (w_googleEventId wh) (googleEventId r)
  && opt_matches (w_patientId wh) (patientId r)
  && opt_matches (w_status wh) (Some (status r)).

Definition set_status (s : AppointmentStatus) (r : Appointment) : Appointment :=
  {| appt_id := appt_id r; startTime := startTime r; endTime := endTime r;
     status := s; googleEventId := googleEventId r; patientId := patientId r;
     createdAt := createdAt r |}.

Definition update_row (wh : AppointmentWhere) (s : AppointmentStatus) (r : Appointment) : Appointment :=
  if row_matches wh r then set_status s r else r.

(** Returns the number of rows updated. *)
Definition appointment_updateMany (wh : AppointmentWhere) (s : AppointmentStatus) : Eff nat :=
  call AppointmentUpdateMany (CallAppointmentUpdateMany wh s) ;;
  let! rows := read appointments in
  let! n := read appointment_seq in
  modify (set_appointments (List.map (update_row wh s) rows) n) ;;
  ret (length (List.filter (row_matches wh) rows)).

Definition startTime_le (r1 r2 : Appointment) : Prop := startTime r1 ≤ startTime r2.

#[global] Instance startTime_le_dec : RelDecision startTime_le.
Proof. intros r1 r2. unfold startTime_le. apply _. Defined.

(** [findMany] with [orderBy: { startTime: 'asc' }]. *)
Definition appointment_findMany (wh : AppointmentWhere) : Eff (list Appointment) :=
  call AppointmentFindMany (CallAppointmentFindMany wh) ;;
  let! rows := read appointments in
  ret (merge_sort startTime_le (List.filter (row_matches wh) rows)).

Definition user_findUnique (id : Z) : Eff (option User) :=
  call UserFindUnique (CallUserFindUnique id) ;;
  let! us := read users in
  ret (List.find (fun u => user_id u =? id) us).

(** [oauth2Client.getToken(code)] followed by [setCredentials]. *)
Definition oauth_getToken (code : string) : Eff unit :=
  call OAuthGetToken (CallOAuthGetToken code).

(** ** The routes *)

Section Routes.

(** [jwt.verify(token, JWT_SECRET)]: the [id] of the decoded payload, or
    [None] when verification throws. *)
Variable jwt_verify : string -> option Z.

(** [d.setMonth(d.getMonth() + 1)], as an operation on instants. *)
Variable oneMonthAfter : Instant -> Instant.

(** [oauth2Client.generateAuthUrl(...)] *)
Variable authUrl : string.

(** *** authMiddleware.js *)

Definition authMiddleware (req : Request) (next : Request -> Eff Response) : Eff Response :=
  match headers_authorization req with
  | None => ret (Json 401 (JsonMessage "No token provided"))
  | Some authHeader =>
      if String.eqb authHeader "" then ret (Json 401 (JsonMessage "No token provided"))
      else
        let token := bearer_token authHeader in
        try_catch
          (let! decoded_id :=
             match jwt_verify token with
             | Some id => ret id
             | None => throw JsonWebTokenError
             end in
           let! found := user_findUnique decoded_id in
           match found with
           | None => ret (Json 401 (JsonMessage "User not found"))
           | Some u => next (set_user req u)
           end)
          (fun _ => ret (Json 401 (JsonMessage "Invalid token")))
  end.

(** *** appointmentRoutes.js *)

Definition login (req : Request) : Eff Response :=
  ret (Redirect authUrl).

Definition redirect (req : Request) : Eff Response :=
  match query_code req with
  | None => ret (Send 400 "No ?code provided from Google")
  | Some code =>
      if String.eqb code "" then ret (Send 400 "No ?code provided from Google")
      else
        try_catch
          (oauth_getToken code ;;
           modify (set_tokensSet true) ;;
           ret (Redirect "/"))
          (fun _ => ret (Send 500 "Failed to authorize Google Calendar."))
  end.

(** GET /appointments/available *)
Definition available (req : Request) : Eff Response :=
  let! authorized := read tokensSet in
  if negb authorized then ret (Send 400 "Google calendar is not authorized yet.")
  else
    try_catch
      (let! now := read clock in
       let oneMonthFromNow := oneMonthAfter now in
       let! response :=
         events_list {| q_calendarId := CAREGIVER_CALENDAR_ID;
                        timeMin := now;
                        timeMax := oneMonthFromNow;
                        singleEvents := true;
                        orderBy := Some OrderByStartTime |} in
       let events := default [] (items response) in
       let available := List.filter (fun ev => marks_available (summary ev)) events in
       ret (Json 200 (JsonEvents available)))
      (fun _ => ret (Send 500 "Failed to fetch available slots.")).

(** [x.dateTime || x.date] where [x] itself may be undefined, in which
    case the property access throws. *)
Definition iso_of (x : option EventDateTime) : Eff (option IsoString) :=
  match x with
  | Some v => ret (dateTime_or_date v)
  | None => throw TypeError
  end.

(** POST /appointments/book/:eventId *)
Definition book (req : Request) : Eff Response :=
  let! authorized := read tokensSet in
  if negb authorized then ret (Send 400 "Google calendar is not authorized yet.")
  else
    let userId := userId req in
    let eventId := params_eventId req in
    try_catch
      (let! found := events_get CAREGIVER_CALENDAR_ID eventId in
       match found with
       | None => ret (Send 404 "Event not found in calendar.")
       | Some event =>
           if negb (marks_available (summary event))
           then ret (Send 400 "This slot is not available anymore.")
           else
             let updatedEvent := with_summary event "BOOKED" in
             events_update CAREGIVER_CALENDAR_ID eventId updatedEvent ;;
             let! startIso := iso_of (start event) in
             let! endIso := iso_of (end_ event) in
             let! appointment :=
               appointment_create {| d_startTime := new_Date startIso;
                                     d_endTime := new_Date endIso;
                                     d_status := Some BOOKED;
                                     d_googleEventId := Some eventId;
                                     d_patientId := userId |} in
             ret (Json 200 (JsonAppointment appointment))
       end)
      (fun _ => ret (Send 500 "Failed to book appointment.")).

(** POST /appointments/cancel/:eventId *)
Definition cancel (req : Request) : Eff Response :=
  let! authorized := read tokensSet in
  if negb authorized then ret (Send 400 "Google calendar is not authorized yet.")
  else
    let userId := userId req in
    let eventId := params_eventId req in
    try_catch
      (let! found := events_get CAREGIVER_CALENDAR_ID eventId in
       match found with
       | None => ret (Send 404 "Event not found in calendar.")
       | Some event =>
           let updatedEvent := with_summary event "AVAILABLE" in
           events_update CAREGIVER_CALENDAR_ID eventId updatedEvent ;;
           appointment_updateMany {| w_googleEventId := Some eventId;
                                     w_patientId := userId;
                                     w_status := Some BOOKED |} CANCELLED ;;
           ret (Json 200 (JsonMessage "Appointment cancelled."))
       end)
      (fun _ => ret (Send 500 "Failed to cancel appointment.")).

(** GET /appointments/mine *)
Definition mine (req : Request) : Eff Response :=
  let userId := userId req in
  try_catch
    (let! appointments :=
       appointment_findMany {| w_googleEventId := None;
                               w_patientId := userId;
                               w_status := Some BOOKED |} in
     ret (Json 200 (JsonAppointments appointments)))
    (fun _ => ret (Json 500 (JsonMessage "Failed to load appointments"))).

(** The router: the two calendar-connection routes are open, the four
    patient routes run [authMiddleware] first. *)
Inductive Route :=
| GET_login | GET_redirect
| GET_available | POST_book | POST_cancel | GET_mine.

Definition router (r : Route) (req : Request) : Eff Response :=
  match r with
  | GET_login => login req
  | GET_redirect => redirect req
  | GET_available => authMiddleware req available
  | POST_book => authMiddleware req book
  | POST_cancel => authMiddleware req cancel
  | GET_mine => authMiddleware req mine
  end.

End Routes.

(** * Vocabulary of the statements *)

(** ** Outcomes of the calls and of the routes *)

(** When the insert is turned down: the capability rejects, a time is not
    a valid date, or the patient is no row of [User]. *)
Definition insert_rejected (w : World) (data : AppointmentData) : Prop :=
  (AppointmentCreate ∈ rejecting w)
  \/ d_startTime data = None
  \/ d_endTime data = None
  \/ exists p, d_patientId data = Some p /\ user_exists (users w) p = false.

Definition insert_accepted (w : World) (data : AppointmentData) : Prop :=
  (AppointmentCreate ∉ rejecting w)
  /\ is_Some (d_startTime data)
  /\ is_Some (d_endTime data)
  /\ forall p, d_patientId data = Some p -> user_exists (users w) p = true.

(** The row an accepted insert creates. *)
Definition created_row (w : World) (data : AppointmentData) : Appointment :=
  {| appt_id := appointment_seq w;
     startTime := default 0 (d_startTime data);
     endTime := default 0 (d_endTime data);
     status := default AVAILABLE (d_status data);
     googleEventId := d_googleEventId data;
     patientId := d_patientId data;
     createdAt := clock w |}.

(** Whether the insert reaches the table and is turned down there for its
    foreign key: it has then spent a value of the sequence. *)
Definition spends_key (w : World) (data : AppointmentData) : bool :=
  bool_decide (AppointmentCreate ∉ rejecting w)
  && match d_startTime data, d_endTime data, d_patientId data with
     | Some _, Some _, Some p => negb (user_exists (users w) p)
     | _, _, _ => false
     end.

(** The world a rejected insert leaves. *)
Definition after_rejected_insert (data : AppointmentData) (w : World) : World :=
  let w1 := log (CallAppointmentCreate data) w in
  if spends_key w data
  then set_appointments (appointments w) (appointment_seq w + 1) w1
  else w1.

(** Nothing but the trace differs between two worlds. *)
Definition same_stores (w w' : World) : Prop :=
  tokensSet w' = tokensSet w
  /\ calendar w' = calendar w
  /\ appointments w' = appointments w
  /\ appointment_seq w' = appointment_seq w
  /\ users w' = users w.

Definition NOT_AUTHORIZED : Response := Send 400 "Google calendar is not authorized yet.".
Definition EVENT_NOT_FOUND : Response := Send 404 "Event not found in calendar.".
Definition NOT_AVAILABLE : Response := Send 400 "This slot is not available anymore.".
Definition BOOK_FAILED : Response := Send 500 "Failed to book appointment.".
Definition CANCEL_FAILED : Response := Send 500 "Failed to cancel appointment.".
Definition CANCELLED_OK : Response := Json 200 (JsonMessage "Appointment cancelled.").

Definition after_get (eventId : string) (w : World) : World :=
  log (CallEventsGet CAREGIVER_CALENDAR_ID eventId) w.

Definition after_update (eventId : string) (r : Event) (w : World) : World :=
  set_calendar (List.map (overwrite_entry eventId r) (calendar w))
    (log (CallEventsUpdate CAREGIVER_CALENDAR_ID eventId r) (after_get eventId w)).

(** The [data] of the insert that [book] makes for a slot with bounds [s]
    and [t]. *)
Definition booking_data (req : Request) (s t : EventDateTime) : AppointmentData :=
  {| d_startTime := new_Date (dateTime_or_date s);
     d_endTime := new_Date (dateTime_or_date t);
     d_status := Some BOOKED;
     d_googleEventId := Some (params_eventId req);
     d_patientId := userId req |}.

(** The [where] of the update that [cancel] makes. *)
Definition cancel_where (req : Request) : AppointmentWhere :=
  {| w_googleEventId := Some (params_eventId req);
     w_patientId := userId req;
     w_status := Some BOOKED |}.

(** The query [available] sends. *)
Definition available_query (oneMonthAfter : Instant -> Instant) (w : World) : ListQuery :=
  {| q_calendarId := CAREGIVER_CALENDAR_ID;
     timeMin := clock w;
     timeMax := oneMonthAfter (clock w);
     singleEvents := true;
     orderBy := Some OrderByStartTime |}.

(** What the calendar answers to it. *)
Definition window_events (oneMonthAfter : Instant -> Instant) (w : World) : list Event :=
  merge_sort start_le
    (List.filter (overlaps (clock w) (oneMonthAfter (clock w))) (listed true (calendar w))).

(** [m] keeps [R] between the world it starts in and the world it leaves,
    whether it returns or throws. *)
Definition preserves {A} (R : relation World) (m : Eff A) : Prop :=
  forall w, R w (snd (m w)).

(** The ledger of [w'] is the ledger of [w], row by row up to [S], followed
    by rows whose keys were drawn from the sequence in between. *)
Definition ledger_rel (S : relation Appointment) (w w' : World) : Prop :=
  appointment_seq w ≤ appointment_seq w'
  /\ exists kept added,
       appointments w' = (kept ++ added)%list
       /\ Forall2 S (appointments w) kept
       /\ Forall (fun r => appointment_seq w ≤ appt_id r < appointment_seq w') added.

(** What may happen to a row once it exists: nothing, or BOOKED becomes
    CANCELLED. *)
Definition row_step (r r' : Appointment) : Prop :=
  appt_id r' = appt_id r
  /\ startTime r' = startTime r
  /\ endTime r' = endTime r
  /\ googleEventId r' = googleEventId r
  /\ patientId r' = patientId r
  /\ createdAt r' = createdAt r
  /\ (status r' = status r \/ (status r = BOOKED /\ status r' = CANCELLED)).

(** A route handler answers; it never throws past its own [catch]. *)
Definition answers (h : Request -> Eff Response) : Prop :=
  forall req w, exists resp w', h req w = (Return resp, w').

(** A request passes the guard when it carries a token that verifies to the
    id of a stored user. *)
Definition authenticates (jwt_verify : string -> option Z) (w : World)
    (req : Request) (u : User) : Prop :=
  exists h,
    headers_authorization req = Some h
    /\ h <> ""
    /\ jwt_verify (bearer_token h) = Some (user_id u)
    /\ (UserFindUnique ∉ rejecting w)
    /\ List.find (fun x => user_id x =? user_id u) (users w) = Some u.

Definition keys_below_seq (w : World) : Prop :=
  Forall (fun r => appt_id r < appointment_seq w) (appointments w).

(** No stored event carries the id. *)
Definition slot_absent (eventId : string) (cal : Calendar) : Prop :=
  forall e, In e (stored cal) -> event_id e <> eventId.

(** Two representations of a slot that agree on everything but the label. *)
Definition same_but_summary (e r : Event) : Prop :=
  event_id r = event_id e
  /\ start r = start e
  /\ end_ r = end_ e
  /\ other r = other e.

(** What a route sent to [events.update], if it got that far: the resource
    of the first such call after the calls of [before]. *)
Definition update_sent (before after : list Call) : option Event :=
  match List.find (fun c => match c with CallEventsUpdate _ _ _ => true | _ => false end)
          (drop (length before) after) with
  | Some (CallEventsUpdate _ _ r) => Some r
  | _ => None
  end.

(** The time range of the event meets the window from [a] to [b]. *)
Definition in_window (a b : Instant) (e : Event) : Prop :=
  exists s t, start_instant e = Some s /\ end_instant e = Some t /\ s < b /\ a < t.

(** *** The listing, in the words of the specification

    A slot of the calendar, recurring series expanded: an event of its
    own, or an occurrence of a series.  The master of a series is none. *)
Inductive expanded_slot (cal : Calendar) : Event -> Prop :=
| slot_single e : In (Single e) cal -> expanded_slot cal e
| slot_occurrence m occ e : In (Series m occ) cal -> In e occ -> expanded_slot cal e.

(** How often the calendar holds an event as such a slot. *)
Fixpoint times_held (cal : Calendar) (e : Event) : nat :=
  match cal with
  | [] => 0
  | Single x :: rest => (if decide (x = e) then 1 else 0) + times_held rest e
  | Series _ occ :: rest => count_occ Event_eq_dec occ e + times_held rest e
  end.

(** The instant a boundary of a slot denotes: that of its date-time when
    it has one, and midnight of its date otherwise. *)
Inductive denotes (b : EventDateTime) : Instant -> Prop :=
| denotes_dateTime ms : dateTime b = Some ms -> denotes b ms
| denotes_date d : dateTime b = None -> date b = Some d -> denotes b (d * MS_PER_DAY).

Definition starts_at (e : Event) (i : Instant) : Prop :=
  exists b, start e = Some b /\ denotes b i.

Definition ends_at (e : Event) (i : Instant) : Prop :=
  exists b, end_ e = Some b /\ denotes b i.

(** The slot overlaps the half-open window from [a] to [b]. *)
Definition overlaps_window (a b : Instant) (e : Event) : Prop :=
  exists s t, starts_at e s /\ ends_at e t /\ s < b /\ a < t.

(** Ascending order of start: no slot starts after one that follows it. *)
Definition ascending_by_start (l : list Event) : Prop :=
  forall (i j : nat) e1 e2 s1 s2,
    (i < j)%nat -> l !! i = Some e1 -> l !! j = Some e2 ->
    starts_at e1 s1 -> starts_at e2 s2 -> s1 <= s2.

(** With the flag unset, the handler answers an UpstreamUnavailable failure
    and leaves the world, trace included, as it found it. *)
Definition gated (h : Request -> Eff Response) : Prop :=
  forall req w,
    tokensSet w = false ->
    exists resp, h req w = (Return resp, w) /\ error_kind resp = Some UpstreamUnavailable.

(** ** Sample data *)

Definition ana : User :=
  {| user_id := 1; fullName := Some "Ana"; dateOfBirth := None; role := PATIENT |}.
Definition ben : User :=
  {| user_id := 2; fullName := Some "Ben"; dateOfBirth := None; role := PATIENT |}.

Definition sample_jwt (token : string) : option Z :=
  if String.eqb token "token-ana" then Some 1
  else if String.eqb token "token-ben" then Some 2
  else None.

(** Thirty days, for a month. *)
Definition sample_month (t : Instant) : Instant := t + 30 * MS_PER_DAY.

Definition timed (a b : Z) (id label : string) : Event :=
  {| event_id := id; summary := Some label;
     start := Some {| date := None; dateTime := Some a; timeZone := Some "UTC" |};
     end_ := Some {| date := None; dateTime := Some b; timeZone := Some "UTC" |};
     other := [("etag", "3181161784712000"); ("location", "Room 2")] |}.

Definition all_day (d : Z) (id label : string) : Event :=
  {| event_id := id; summary := Some label;
     start := Some {| date := Some d; dateTime := None; timeZone := None |};
     end_ := Some {| date := Some (d + 1); dateTime := None; timeZone := None |};
     other := [] |}.

Definition slot_open : Event := timed 7200000 9000000 "evt-open" "Available".
Definition slot_taken : Event := timed 3600000 5400000 "evt-taken" "BOOKED".
Definition slot_blocked : Event := all_day 1 "evt-blocked" "UNAVAILABLE".
Definition weekly : Event := timed 0 1800000 "evt-weekly" "AVAILABLE (weekly)".
Definition weekly_1 : Event := timed 1000 1800000 "evt-weekly_1" "AVAILABLE (weekly)".
Definition weekly_2 : Event := timed 604800000 606600000 "evt-weekly_2" "AVAILABLE (weekly)".

Definition row_of_ben : Appointment :=
  {| appt_id := 1; startTime := 3600000; endTime := 5400000; status := BOOKED;
     googleEventId := Some "evt-taken"; patientId := Some 2; createdAt := 10 |}.

Definition sample_world : World :=
  {| tokensSet := true;
     calendar := [Single slot_open; Single slot_taken; Single slot_blocked;
                  Series weekly [weekly_1; weekly_2]];
     appointments := [row_of_ben];
     appointment_seq := 2;
     users := [ana; ben];
     clock := 600;
     rejecting := [];
     trace := [] |}.

(** A request as the server receives it from Ana: a bearer token, and no
    [userId] property. *)
Definition request_of_ana (eventId : string) : Request :=
  {| headers_authorization := Some "Bearer token-ana";
     params_eventId := eventId;
     query_code := None;
     userId := None;
     user := None |}.

(** A request as a handler would see it if [userId] had been set. *)
Definition request_for (p : Z) (eventId : string) : Request :=
  {| headers_authorization := None;
     params_eventId := eventId;
     query_code := None;
     userId := Some p;
     user := None |}.

(** A slot whose label spells the token with a dotless i, and the sample
    world with that slot in its calendar. *)
Definition slot_dotless : Event := timed 10800000 12600000 "evt-dotless" "avaılable".

Definition dotless_world : World :=
  {| tokensSet := true;
     calendar := (calendar sample_world ++ [Single slot_dotless])%list;
     appointments := [row_of_ben]; appointment_seq := 2;
     users := [ana; ben]; clock := 600; rejecting := []; trace := [] |}.

(** The sample world with the ledger refusing inserts. *)
Definition ledger_down_world : World :=
  {| tokensSet := true; calendar := calendar sample_world;
     appointments := appointments sample_world; appointment_seq := 2;
     users := users sample_world; clock := 600;
     rejecting := [AppointmentCreate]; trace := [] |}.

(** ** Further vocabulary: the guard, the connection routes, frames *)

Definition NO_TOKEN : Response := Json 401 (JsonMessage "No token provided").
Definition INVALID_TOKEN : Response := Json 401 (JsonMessage "Invalid token").
Definition USER_NOT_FOUND : Response := Json 401 (JsonMessage "User not found").
Definition NO_CODE : Response := Send 400 "No ?code provided from Google".
Definition AUTHORIZE_FAILED : Response := Send 500 "Failed to authorize Google Calendar.".
Definition LIST_FAILED : Response := Send 500 "Failed to fetch available slots.".
Definition MINE_FAILED : Response := Json 500 (JsonMessage "Failed to load appointments").

(** [m] leaves the part [f] of the world as it found it, whether it returns
    or throws. *)
Definition keeps {A B} (f : World -> A) (m : Eff B) : Prop :=
  forall w, f (snd (m w)) = f w.

(** The two systems of record and the table of users. *)
Definition tables (w : World) : Calendar * list Appointment * Z * list User :=
  (calendar w, appointments w, appointment_seq w, users w).

(** The [where] of the query that [mine] makes. *)
Definition mine_where (req : Request) : AppointmentWhere :=
  {| w_googleEventId := None;
     w_patientId := userId req;
     w_status := Some BOOKED |}.

(** A call is an insert into the ledger. *)
Definition is_insert (c : Call) : bool :=
  match c with
  | CallAppointmentCreate _ => true
  | _ => false
  end.

(** A request with a given [Authorization] header and nothing else. *)
Definition request_with_header (h : option string) (eventId : string) : Request :=
  {| headers_authorization := h;
     params_eventId := eventId;
     query_code := None;
     userId := None;
     user := None |}.

(** A request to the [redirect] route. *)
Definition request_with_code (code : option string) : Request :=
  {| headers_authorization := None;
     params_eventId := "";
     query_code := code;
     userId := None;
     user := None |}.

(** The sample world with one capability rejecting. *)
Definition sample_world_without (cap : Capability) : World :=
  {| tokensSet := true; calendar := calendar sample_world;
     appointments := appointments sample_world; appointment_seq := 2;
     users := users sample_world; clock := 600;
     rejecting := [cap]; trace := [] |}.

(** A slot that carries a label and no bounds. *)
Definition slot_unbounded : Event :=
  {| event_id := "evt-unbounded"; summary := Some "available";
     start := None; end_ := None; other := [] |}.

Definition unbounded_world : World :=
  {| tokensSet := true; calendar := [Single slot_unbounded];
     appointments := []; appointment_seq := 1;
     users := [ana]; clock := 600; rejecting := []; trace := [] |}.

(** Rows of Ana and of Ben for the taken slot, and a cancelled one. *)
Definition row_of_ana : Appointment :=
  {| appt_id := 2; startTime := 1000; endTime := 2000; status := BOOKED;
     googleEventId := Some "evt-taken"; patientId := Some 1; createdAt := 20 |}.

Definition row_cancelled : Appointment :=
  {| appt_id := 3; startTime := 500; endTime := 900; status := CANCELLED;
     googleEventId := Some "evt-open"; patientId := Some 1; createdAt := 30 |}.

Definition busy_world : World :=
  {| tokensSet := true; calendar := calendar sample_world;
     appointments := [row_of_ben; row_of_ana; row_cancelled]; appointment_seq := 4;
     users := [ana; ben]; clock := 600; rejecting := []; trace := [] |}.

(** The primary key of the ledger: no two rows share a key, and the
    sequence is past every key in use. *)
Definition primary_key_ok (w : World) : Prop :=
  NoDup (List.map appt_id (appointments w)) /\ keys_below_seq w.

(** * Properties *)

(** ** Labels and the availability token *)

Lemma toUpperCase_pair (c d : ascii) (r : string) :
  toUpperCase (String c (String d r)) =
  match upper_two_bytes c d with
  | Some u => String u (toUpperCase r)
  | None => String (upper_ascii c) (toUpperCase (String d r))
  end.
Proof. reflexivity. Qed.

Lemma upper_two_bytes_some (c d u : ascii) :
  upper_two_bytes c d = Some u ->
  opens c = true /\ closes d = true /\ (u = "I"%char \/ u = "S"%char).
Proof.
  unfold upper_two_bytes, opens, closes.
  destruct (Ascii.eqb c (ascii_of_nat 196)), (Ascii.eqb d (ascii_of_nat 177)),
    (Ascii.eqb c (ascii_of_nat 197)), (Ascii.eqb d (ascii_of_nat 191));
    simpl; intros H; try discriminate; injection H as <-; auto.
Qed.

Lemma upper_two_bytes_opens (c d : ascii) :
  opens c = false -> upper_two_bytes c d = None.
Proof.
  intros H. destruct (upper_two_bytes c d) as [u|] eqn:E; [|reflexivity].
  apply upper_two_bytes_some in E as (E & _). congruence.
Qed.

Lemma upper_two_bytes_closes (c d : ascii) :
  closes d = false -> upper_two_bytes c d = None.
Proof.
  intros H. destruct (upper_two_bytes c d) as [u|] eqn:E; [|reflexivity].
  apply upper_two_bytes_some in E as (_ & E & _). congruence.
Qed.

Lemma opens_upper (c : ascii) : opens c = true -> upper_ascii c = c /\ closes c = false.
Proof.
  unfold opens. rewrite orb_true_iff, !Ascii.eqb_eq. intros [-> | ->]; split; reflexivity.
Qed.

Lemma closes_upper (c : ascii) : closes c = true -> upper_ascii c = c.
Proof.
  unfold closes. rewrite orb_true_iff, !Ascii.eqb_eq. intros [-> | ->]; reflexivity.
Qed.

(** A split of the upper-cased string is the image of a split of the
    string itself. *)
Lemma toUpperCase_split (s a b : string) :
  toUpperCase s = append a b ->
  exists a' b', s = append a' b' /\ toUpperCase a' = a /\ toUpperCase b' = b.
Proof.
  revert s. induction a as [|x a IH]; intros s H.
  - exists EmptyString, s. auto.
  - change (append (String x a) b) with (String x (append a b)) in H.
    destruct s as [|c [|d r]].
    + discriminate.
    + simpl in H. injection H as Hx Hr.
      destruct a; [|discriminate]. simpl in Hr. subst b.
      exists (String c EmptyString), EmptyString. simpl. rewrite Hx. auto.
    + rewrite toUpperCase_pair in H.
      destruct (upper_two_bytes c d) as [u|] eqn:E; injection H as Hx Hr.
      * destruct (IH _ Hr) as (a' & b' & -> & Ha & Hb).
        exists (String c (String d a')), b'.
        rewrite toUpperCase_pair, E, Ha, Hx. auto.
      * destruct (IH (String d r) Hr) as (a' & b' & Hs & Ha & Hb).
        exists (String c a'), b'. simpl append. rewrite Hs. split; [reflexivity|].
        split; [|exact Hb].
        destruct a' as [|d' a'].
        -- simpl in *. now rewrite Hx, <- Ha.
        -- simpl in Hs. injection Hs as <- _.
           rewrite toUpperCase_pair, E, Ha, Hx. reflexivity.
Qed.

(** Upper-casing goes through a concatenation unless a pair of bytes sits
    across the seam: it does when the right part does not start with a
    closing byte, and when the left part does not end with an opening one. *)
Lemma toUpperCase_append_l (a b : string) :
  match b with String d _ => closes d = false | EmptyString => True end ->
  toUpperCase (append a b) = append (toUpperCase a) (toUpperCase b).
Proof.
  intros Hb. remember (String.length a) as n eqn:Hn.
  assert (Hle : (String.length a <= n)%nat) by lia. clear Hn.
  revert a Hle. induction n as [|n IH]; intros a Hle.
  - destruct a; [reflexivity | simpl in Hle; lia].
  - destruct a as [|c [|d a]]; [reflexivity| |].
    + simpl append. destruct b as [|d b]; [reflexivity|].
      rewrite toUpperCase_pair, (upper_two_bytes_closes c d Hb). reflexivity.
    + simpl in Hle. simpl append. rewrite !toUpperCase_pair.
      destruct (upper_two_bytes c d).
      * simpl. rewrite IH by lia. reflexivity.
      * change (String d (append a b)) with (append (String d a) b).
        rewrite IH by (simpl; lia). reflexivity.
Qed.

Lemma toUpperCase_append_r (a b : string) :
  (forall c, last_byte a = Some c -> opens c = false) ->
  toUpperCase (append a b) = append (toUpperCase a) (toUpperCase b).
Proof.
  remember (String.length a) as n eqn:Hn.
  assert (Hle : (String.length a <= n)%nat) by lia. clear Hn.
  revert a Hle. induction n as [|n IH]; intros a Hle Ha.
  - destruct a; [reflexivity | simpl in Hle; lia].
  - destruct a as [|c [|d a]]; [reflexivity| |].
    + simpl append. destruct b as [|d b]; [reflexivity|].
      rewrite toUpperCase_pair, (upper_two_bytes_opens c d (Ha c eq_refl)). reflexivity.
    + simpl in Hle. simpl append. rewrite !toUpperCase_pair.
      destruct (upper_two_bytes c d).
      * simpl. rewrite IH; [reflexivity | lia |].
        intros x Hx. apply Ha. simpl. simpl in Hx. now rewrite Hx.
      * change (String d (append a b)) with (append (String d a) b).
        rewrite IH; [reflexivity | simpl; lia |].
        intros x Hx. apply Ha.
        change (last_byte (String c (String d a)))
          with (match last_byte (String d a) with Some y => Some y | None => Some c end).
        now rewrite Hx.
Qed.

(** An opening byte at the end of a string is kept. *)
Lemma last_byte_toUpperCase (s : string) (c : ascii) :
  last_byte s = Some c -> opens c = true -> last_byte (toUpperCase s) = Some c.
Proof.
  remember (String.length s) as n eqn:Hn.
  assert (Hle : (String.length s <= n)%nat) by lia. clear Hn.
  revert s Hle. induction n as [|n IH]; intros s Hle Hs Hc.
  - destruct s; [discriminate | simpl in Hle; lia].
  - destruct s as [|c0 [|d r]]; [discriminate| |].
    + simpl in Hs. injection Hs as ->. simpl.
      now rewrite (proj1 (opens_upper c Hc)).
    + simpl in Hle. rewrite toUpperCase_pair.
      change (last_byte (String c0 (String d r)))
        with (match last_byte (String d r) with Some y => Some y | None => Some c0 end) in Hs.
      destruct (last_byte (String d r)) as [y|] eqn:Hy; [|simpl in Hy; destruct (last_byte r); discriminate].
      injection Hs as ->.
      destruct (upper_two_bytes c0 d) as [u|] eqn:E.
      * apply upper_two_bytes_some in E as (_ & Hd & _).
        simpl in Hy. destruct (last_byte r) as [z|] eqn:Hz.
        -- injection Hy as ->. simpl. rewrite (IH r); [reflexivity | lia | exact Hz | exact Hc].
        -- injection Hy as ->. apply opens_upper in Hc as (_ & Hc). congruence.
      * change (last_byte (String (upper_ascii c0) (toUpperCase (String d r))))
          with (match last_byte (toUpperCase (String d r)) with
                | Some y => Some y | None => Some (upper_ascii c0) end).
        rewrite (IH (String d r)); [reflexivity | simpl; lia | exact Hy | exact Hc].
Qed.

(** A string whose upper-case form is the token starts and ends with a
    letter of its own. *)
Lemma token_first_byte (s : string) :
  toUpperCase s = AVAILABLE_TOKEN ->
  exists c r, s = String c r /\ closes c = false.
Proof.
  intros H. destruct s as [|c [|d r]]; [discriminate| |].
  - exists c, EmptyString. split; [reflexivity|].
    destruct (closes c) eqn:E; [|reflexivity].
    simpl in H. rewrite (closes_upper c E) in H. injection H as ->. discriminate.
  - exists c, (String d r). split; [reflexivity|].
    rewrite toUpperCase_pair in H.
    destruct (upper_two_bytes c d) as [u|] eqn:Eu.
    + apply upper_two_bytes_some in Eu as (_ & _ & [-> | ->]); discriminate.
    + destruct (closes c) eqn:E; [|reflexivity].
      rewrite (closes_upper c E) in H. injection H as -> _. discriminate.
Qed.

Lemma token_last_byte (s : string) (c : ascii) :
  toUpperCase s = AVAILABLE_TOKEN -> last_byte s = Some c -> opens c = false.
Proof.
  intros H Hs. destruct (opens c) eqn:E; [|reflexivity].
  pose proof (last_byte_toUpperCase s c Hs E) as Hl.
  rewrite H in Hl. injection Hl as <-. discriminate.
Qed.

Lemma startsWith_iff (s t : string) :
  startsWith s t = true <-> exists post, s = append t post.
Proof.
  revert s. induction t as [|b t IH]; intros s; simpl.
  - split; [intros _; exists s; reflexivity | reflexivity].
  - destruct s as [|a s].
    + split; [discriminate | intros [post H]; discriminate].
    + destruct (Ascii.eqb_spec a b) as [->|Hne].
      * rewrite IH. split; intros [post H]; exists post.
        -- now rewrite H.
        -- now injection H.
      * split; [discriminate|]. intros [post H]. injection H as H1 H2. contradiction.
Qed.

Lemma includes_iff (s t : string) :
  includes s t = true <-> exists pre post, s = append pre (append t post).
Proof.
  induction s as [|a s IH]; simpl.
  - rewrite orb_false_r, startsWith_iff. split.
    + intros [post H]. exists EmptyString, post. exact H.
    + intros (pre & post & H). destruct pre; [|discriminate]. exists post. exact H.
  - rewrite orb_true_iff, startsWith_iff, IH. split.
    + intros [[post H] | (pre & post & H)].
      * exists EmptyString, post. exact H.
      * exists (String a pre), post. simpl. now rewrite H.
    + intros (pre & post & H). destruct pre as [|c pre]; simpl in H.
      * left. exists post. exact H.
      * right. injection H as _ H. exists pre, post. exact H.
Qed.

(** The test of the routes is the case-insensitive substring match of the
    specification. *)
Lemma marks_available_iff (label : option string) :
  marks_available label = true <-> ci_substring AVAILABLE_TOKEN (or_empty label).
Proof.
  unfold marks_available, ci_substring. rewrite includes_iff. split.
  - intros (a & b & H).
    destruct (toUpperCase_split _ _ _ H) as (pre & rest & Hs & Hpre & Hrest).
    destruct (toUpperCase_split _ _ _ Hrest) as (mid & post & Hr & Hmid & Hpost).
    exists pre, mid, post. rewrite Hs, Hr. split; [reflexivity | exact Hmid].
  - intros (pre & mid & post & Hs & Hmid).
    exists (toUpperCase pre), (toUpperCase post).
    change (toUpperCase AVAILABLE_TOKEN) with AVAILABLE_TOKEN in Hmid.
    destruct (token_first_byte mid Hmid) as (c & r & Hc & Hclose).
    rewrite Hs, toUpperCase_append_l by (rewrite Hc; exact Hclose).
    rewrite toUpperCase_append_r by (intros x; apply token_last_byte; exact Hmid).
    rewrite Hmid. reflexivity.
Qed.

Lemma marks_available_false_iff (label : option string) :
  marks_available label = false <-> ~ ci_substring AVAILABLE_TOKEN (or_empty label).
Proof.
  rewrite <- marks_available_iff. destruct (marks_available label); split; easy.
Qed.

(** ** The capabilities, call by call *)

Ltac eff_unfold :=
  unfold bind, ret, throw, try_catch, read, modify in *; simpl in *.

Lemma call_ok (cap : Capability) (c : Call) (w : World) :
  cap ∉ rejecting w -> call cap c w = (Return tt, log c w).
Proof.
  intros H. unfold call. eff_unfold. destruct (decide (cap ∈ rejecting w)); [contradiction|reflexivity].
Qed.

Lemma call_rejected (cap : Capability) (c : Call) (w : World) :
  cap ∈ rejecting w -> call cap c w = (Throw (UpstreamError cap), log c w).
Proof.
  intros H. unfold call. eff_unfold. destruct (decide (cap ∈ rejecting w)); [reflexivity|contradiction].
Qed.

(** Whatever a call answers, it leaves one entry in the trace and nothing
    else. *)
Lemma call_world (cap : Capability) (c : Call) (w : World) :
  snd (call cap c w) = log c w.
Proof.
  unfold call. eff_unfold. destruct (decide (cap ∈ rejecting w)); reflexivity.
Qed.

Lemma events_get_ok (eventId : string) (e : Event) (w : World) :
  EventsGet ∉ rejecting w ->
  List.find (has_id eventId) (stored (calendar w)) = Some e ->
  events_get CAREGIVER_CALENDAR_ID eventId w =
    (Return (Some e), log (CallEventsGet CAREGIVER_CALENDAR_ID eventId) w).
Proof.
  intros H Hf. unfold events_get, bind at 1. rewrite (call_ok _ _ _ H).
  eff_unfold. rewrite Hf. reflexivity.
Qed.

Lemma events_get_absent (eventId : string) (w : World) :
  EventsGet ∉ rejecting w ->
  List.find (has_id eventId) (stored (calendar w)) = None ->
  events_get CAREGIVER_CALENDAR_ID eventId w =
    (Throw (RequestError EventsGet), log (CallEventsGet CAREGIVER_CALENDAR_ID eventId) w).
Proof.
  intros H Hf. unfold events_get, bind at 1. rewrite (call_ok _ _ _ H).
  eff_unfold. rewrite Hf. reflexivity.
Qed.

Lemma events_update_ok (eventId : string) (resource e : Event) (w : World) :
  EventsUpdate ∉ rejecting w ->
  List.find (has_id eventId) (stored (calendar w)) = Some e ->
  events_update CAREGIVER_CALENDAR_ID eventId resource w =
    (Return resource,
     set_calendar (List.map (overwrite_entry eventId resource) (calendar w))
       (log (CallEventsUpdate CAREGIVER_CALENDAR_ID eventId resource) w)).
Proof.
  intros H Hf. unfold events_update, bind at 1. rewrite (call_ok _ _ _ H).
  eff_unfold. rewrite Hf. reflexivity.
Qed.

Lemma events_update_rejected (eventId : string) (resource : Event) (w : World) :
  EventsUpdate ∈ rejecting w ->
  events_update CAREGIVER_CALENDAR_ID eventId resource w =
    (Throw (UpstreamError EventsUpdate),
     log (CallEventsUpdate CAREGIVER_CALENDAR_ID eventId resource) w).
Proof.
  intros H. unfold events_update, bind at 1. rewrite (call_rejected _ _ _ H). reflexivity.
Qed.

Lemma appointment_create_ok (data : AppointmentData) (w : World) :
  insert_accepted w data ->
  appointment_create data w =
    (Return (created_row w data),
     set_appointments (appointments w ++ [created_row w data]) (appointment_seq w + 1)
       (log (CallAppointmentCreate data) w)).
Proof.
  intros (Hcap & [s Hs] & [e He] & Hfk).
  unfold appointment_create, bind at 1. rewrite (call_ok _ _ _ Hcap).
  unfold created_row. rewrite Hs, He. eff_unfold.
  destruct (d_patientId data) as [p|]; [rewrite (Hfk p eq_refl)|]; reflexivity.
Qed.

Lemma appointment_create_rejected (data : AppointmentData) (w : World) :
  insert_rejected w data ->
  exists ex, appointment_create data w = (Throw ex, after_rejected_insert data w).
Proof.
  intros H. unfold appointment_create, after_rejected_insert, spends_key, bind at 1.
  destruct (decide (AppointmentCreate ∈ rejecting w)) as [Hin|Hout].
  { rewrite (call_rejected _ _ _ Hin), bool_decide_eq_false_2 by auto. simpl. eauto. }
  rewrite (call_ok _ _ _ Hout), (bool_decide_eq_true_2 _ Hout).
  destruct H as [H | [H | [H | (p & Hp & Hu)]]]; [contradiction| | |].
  - rewrite H. eff_unfold. eauto.
  - rewrite H. eff_unfold. destruct (d_startTime data); eauto.
  - rewrite Hp. destruct (d_startTime data), (d_endTime data); eff_unfold; eauto.
    rewrite Hu. simpl. eauto.
Qed.

(** What a rejected insert leaves of the world. *)
Lemma after_rejected_insert_frame (data : AppointmentData) (w : World) :
  tokensSet (after_rejected_insert data w) = tokensSet w
  /\ calendar (after_rejected_insert data w) = calendar w
  /\ appointments (after_rejected_insert data w) = appointments w
  /\ users (after_rejected_insert data w) = users w
  /\ clock (after_rejected_insert data w) = clock w
  /\ rejecting (after_rejected_insert data w) = rejecting w
  /\ trace (after_rejected_insert data w) = (trace w ++ [CallAppointmentCreate data])%list
  /\ (appointment_seq (after_rejected_insert data w) = appointment_seq w
      \/ appointment_seq (after_rejected_insert data w) = appointment_seq w + 1
         /\ spends_key w data = true).
Proof.
  unfold after_rejected_insert. destruct (spends_key w data); simpl; intuition.
Qed.

Lemma appointment_updateMany_ok (wh : AppointmentWhere) (s : AppointmentStatus) (w : World) :
  AppointmentUpdateMany ∉ rejecting w ->
  appointment_updateMany wh s w =
    (Return (length (List.filter (row_matches wh) (appointments w))),
     set_appointments (List.map (update_row wh s) (appointments w)) (appointment_seq w)
       (log (CallAppointmentUpdateMany wh s) w)).
Proof.
  intros H. unfold appointment_updateMany, bind at 1. rewrite (call_ok _ _ _ H). reflexivity.
Qed.

(** *** The stored calendar after an overwrite *)

Lemma stored_overwrite (eventId : string) (r : Event) (cal : Calendar) :
  stored (List.map (overwrite_entry eventId r) cal) =
  List.map (overwrite eventId r) (stored cal).
Proof.
  unfold stored. induction cal as [|en cal IH]; simpl; [reflexivity|].
  rewrite IH, List.map_app. destruct en; reflexivity.
Qed.

Lemma find_overwrite_same (eventId : string) (r e : Event) (l : list Event) :
  has_id eventId r = true ->
  List.find (has_id eventId) l = Some e ->
  List.find (has_id eventId) (List.map (overwrite eventId r) l) = Some r.
Proof.
  intros Hr. induction l as [|x l IH]; simpl; [discriminate|].
  unfold overwrite at 1 2. destruct (has_id eventId x) eqn:Hx.
  - intros _. now rewrite Hr.
  - rewrite Hx. exact IH.
Qed.

Lemma find_overwrite_other (eventId k : string) (r : Event) (l : list Event) :
  has_id k r = false ->
  k <> eventId ->
  List.find (has_id k) (List.map (overwrite eventId r) l) = List.find (has_id k) l.
Proof.
  intros Hr Hk. induction l as [|x l IH]; simpl; [reflexivity|].
  unfold overwrite at 1 2. destruct (has_id eventId x) eqn:Hx.
  - rewrite Hr. destruct (has_id k x) eqn:Hkx; [|exact IH].
    unfold has_id in Hx, Hkx. apply String.eqb_eq in Hx, Hkx. congruence.
  - rewrite IH. reflexivity.
Qed.

Lemma find_has_id (eventId : string) (e : Event) (l : list Event) :
  List.find (has_id eventId) l = Some e -> event_id e = eventId.
Proof.
  intros H. apply List.find_some in H as [_ H]. now apply String.eqb_eq in H.
Qed.

Lemma has_id_with_summary (eventId : string) (e : Event) (s : string) :
  has_id eventId (with_summary e s) = has_id eventId e.
Proof. reflexivity. Qed.

(** ** The booking and cancelling routes, outcome by outcome *)

Section Outcomes.

Variable req : Request.
Variable w : World.

Let eventId := params_eventId req.

Hypothesis Hauth : tokensSet w = true.
Hypothesis Hget : EventsGet ∉ rejecting w.

(** The lookup of an id the calendar does not hold is rejected, and the
    handler is left through its [catch]. *)
Lemma book_absent :
  List.find (has_id eventId) (stored (calendar w)) = None ->
  book req w = (Return BOOK_FAILED, after_get eventId w).
Proof.
  intros Hnone. unfold book, bind at 1, read. rewrite Hauth. simpl.
  unfold try_catch, bind at 1. rewrite (events_get_absent (params_eventId req) _ Hget Hnone).
  reflexivity.
Qed.

Lemma cancel_absent :
  List.find (has_id eventId) (stored (calendar w)) = None ->
  cancel req w = (Return CANCEL_FAILED, after_get eventId w).
Proof.
  intros Hnone. unfold cancel, bind at 1, read. rewrite Hauth. simpl.
  unfold try_catch, bind at 1. rewrite (events_get_absent (params_eventId req) _ Hget Hnone).
  reflexivity.
Qed.

Variable event : Event.
Hypothesis Hfound : List.find (has_id eventId) (stored (calendar w)) = Some event.

Lemma book_refused :
  marks_available (summary event) = false ->
  book req w = (Return NOT_AVAILABLE, after_get eventId w).
Proof.
  intros Hno. unfold book, bind at 1, read. rewrite Hauth. simpl.
  unfold try_catch, bind at 1. rewrite (events_get_ok (params_eventId req) _ _ Hget Hfound).
  fold eventId. cbv beta iota. rewrite Hno. reflexivity.
Qed.

Lemma book_update_rejected :
  marks_available (summary event) = true ->
  EventsUpdate ∈ rejecting w ->
  book req w =
    (Return BOOK_FAILED,
     log (CallEventsUpdate CAREGIVER_CALENDAR_ID eventId (with_summary event "BOOKED"))
       (after_get eventId w)).
Proof.
  intros Hyes Hrej. unfold book, bind at 1, read. rewrite Hauth. simpl.
  unfold try_catch, bind at 1. rewrite (events_get_ok (params_eventId req) _ _ Hget Hfound).
  fold eventId. cbv beta iota. rewrite Hyes. simpl.
  unfold bind at 1. rewrite events_update_rejected by exact Hrej. reflexivity.
Qed.

Lemma cancel_update_rejected :
  EventsUpdate ∈ rejecting w ->
  cancel req w =
    (Return CANCEL_FAILED,
     log (CallEventsUpdate CAREGIVER_CALENDAR_ID eventId (with_summary event "AVAILABLE"))
       (after_get eventId w)).
Proof.
  intros Hrej. unfold cancel, bind at 1, read. rewrite Hauth. simpl.
  unfold try_catch, bind at 1. rewrite (events_get_ok (params_eventId req) _ _ Hget Hfound).
  fold eventId. simpl.
  unfold bind at 1. rewrite events_update_rejected by exact Hrej. reflexivity.
Qed.

Hypothesis Hupdate : EventsUpdate ∉ rejecting w.

Let booked := with_summary event "BOOKED".
Let reopened := with_summary event "AVAILABLE".

(** The slot has no [start] or no [end]: the property access throws after
    the relabel. *)
Lemma book_no_bounds :
  marks_available (summary event) = true ->
  start event = None \/ end_ event = None ->
  book req w = (Return BOOK_FAILED, after_update eventId booked w).
Proof.
  intros Hyes Hnone. unfold book, bind at 1, read. rewrite Hauth. simpl.
  unfold try_catch, bind at 1. rewrite (events_get_ok (params_eventId req) _ _ Hget Hfound).
  fold eventId. cbv beta iota. rewrite Hyes. simpl.
  unfold bind at 1. rewrite (events_update_ok _ _ event) by assumption.
  unfold iso_of. destruct (start event), (end_ event), Hnone; try discriminate; reflexivity.
Qed.

Lemma cancel_done :
  AppointmentUpdateMany ∉ rejecting w ->
  cancel req w =
    (Return CANCELLED_OK,
     set_appointments
       (List.map (update_row (cancel_where req) CANCELLED) (appointments w))
       (appointment_seq w)
       (log (CallAppointmentUpdateMany (cancel_where req) CANCELLED)
          (after_update eventId reopened w))).
Proof.
  intros Hledger. unfold cancel, bind at 1, read. rewrite Hauth. simpl.
  unfold try_catch, bind at 1. rewrite (events_get_ok (params_eventId req) _ _ Hget Hfound).
  fold eventId. simpl.
  unfold bind at 1. rewrite (events_update_ok _ _ event) by assumption.
  fold (cancel_where req). unfold bind at 1.
  rewrite appointment_updateMany_ok by exact Hledger. reflexivity.
Qed.

Lemma cancel_ledger_rejected :
  AppointmentUpdateMany ∈ rejecting w ->
  cancel req w =
    (Return CANCEL_FAILED,
     log (CallAppointmentUpdateMany (cancel_where req) CANCELLED)
       (after_update eventId reopened w)).
Proof.
  intros Hledger. unfold cancel, bind at 1, read. rewrite Hauth. simpl.
  unfold try_catch, bind at 1. rewrite (events_get_ok (params_eventId req) _ _ Hget Hfound).
  fold eventId. simpl.
  unfold bind at 1. rewrite (events_update_ok _ _ event) by assumption.
  fold (cancel_where req). unfold bind at 1.
  unfold appointment_updateMany, bind at 1.
  rewrite call_rejected by exact Hledger. reflexivity.
Qed.

Variables s t : EventDateTime.
Hypothesis Hstart : start event = Some s.
Hypothesis Hend : end_ event = Some t.

Lemma book_accepted :
  marks_available (summary event) = true ->
  insert_accepted w (booking_data req s t) ->
  book req w =
    (Return (Json 200 (JsonAppointment (created_row w (booking_data req s t)))),
     set_appointments (appointments w ++ [created_row w (booking_data req s t)])
       (appointment_seq w + 1)
       (log (CallAppointmentCreate (booking_data req s t))
          (after_update eventId booked w))).
Proof.
  intros Hyes Hins. unfold book, bind at 1, read. rewrite Hauth. simpl.
  unfold try_catch, bind at 1. rewrite (events_get_ok (params_eventId req) _ _ Hget Hfound).
  fold eventId. cbv beta iota. rewrite Hyes. simpl.
  unfold bind at 1. rewrite (events_update_ok _ _ event) by assumption.
  rewrite Hstart, Hend. unfold iso_of, bind at 1, ret. unfold bind at 1. unfold bind at 1.
  fold (booking_data req s t).
  rewrite appointment_create_ok by exact Hins. reflexivity.
Qed.

Lemma book_insert_rejected :
  marks_available (summary event) = true ->
  insert_rejected w (booking_data req s t) ->
  book req w =
    (Return BOOK_FAILED,
     after_rejected_insert (booking_data req s t) (after_update eventId booked w)).
Proof.
  intros Hyes Hins. unfold book, bind at 1, read. rewrite Hauth. simpl.
  unfold try_catch, bind at 1. rewrite (events_get_ok (params_eventId req) _ _ Hget Hfound).
  fold eventId. cbv beta iota. rewrite Hyes. simpl.
  unfold bind at 1. rewrite (events_update_ok _ _ event) by assumption.
  rewrite Hstart, Hend. unfold iso_of, bind at 1, ret. unfold bind at 1. unfold bind at 1.
  fold (booking_data req s t).
  match goal with
  | |- context [appointment_create ?d ?w'] =>
      destruct (appointment_create_rejected d w') as [ex Hex]; [exact Hins|]
  end.
  rewrite Hex. reflexivity.
Qed.

End Outcomes.

(** ** The gate in front of the calendar routes *)

Lemma available_gate (oneMonthAfter : Instant -> Instant) (req : Request) (w : World) :
  tokensSet w = false -> available oneMonthAfter req w = (Return NOT_AUTHORIZED, w).
Proof. intros H. unfold available, bind, read. rewrite H. reflexivity. Qed.

Lemma book_gate (req : Request) (w : World) :
  tokensSet w = false -> book req w = (Return NOT_AUTHORIZED, w).
Proof. intros H. unfold book, bind, read. rewrite H. reflexivity. Qed.

Lemma cancel_gate (req : Request) (w : World) :
  tokensSet w = false -> cancel req w = (Return NOT_AUTHORIZED, w).
Proof. intros H. unfold cancel, bind, read. rewrite H. reflexivity. Qed.

(** [mine] never reads the flag. *)
Lemma mine_ok (req : Request) (w : World) :
  AppointmentFindMany ∉ rejecting w ->
  mine req w =
    (Return (Json 200 (JsonAppointments
       (merge_sort startTime_le
          (List.filter (row_matches {| w_googleEventId := None;
                                       w_patientId := userId req;
                                       w_status := Some BOOKED |})
             (appointments w))))),
     log (CallAppointmentFindMany {| w_googleEventId := None;
                                     w_patientId := userId req;
                                     w_status := Some BOOKED |}) w).
Proof.
  intros H. unfold mine, try_catch, bind at 1, appointment_findMany, bind at 1.
  rewrite (call_ok _ _ _ H). reflexivity.
Qed.

(** ** Listing *)

Lemma available_ok (oneMonthAfter : Instant -> Instant) (req : Request) (w : World) :
  tokensSet w = true ->
  EventsList ∉ rejecting w ->
  available oneMonthAfter req w =
    (Return (Json 200 (JsonEvents
       (List.filter (fun ev => marks_available (summary ev)) (window_events oneMonthAfter w)))),
     log (CallEventsList (available_query oneMonthAfter w)) w).
Proof.
  intros Hauth Hlist. unfold available, bind at 1, read. rewrite Hauth. simpl.
  unfold try_catch, bind at 1, bind at 1, events_list, bind at 1.
  fold (available_query oneMonthAfter w).
  rewrite (call_ok _ _ _ Hlist). reflexivity.
Qed.

Lemma available_list_rejected (oneMonthAfter : Instant -> Instant) (req : Request) (w : World) :
  tokensSet w = true ->
  EventsList ∈ rejecting w ->
  available oneMonthAfter req w =
    (Return (Send 500 "Failed to fetch available slots."),
     log (CallEventsList (available_query oneMonthAfter w)) w).
Proof.
  intros Hauth Hlist. unfold available, bind at 1, read. rewrite Hauth. simpl.
  unfold try_catch, bind at 1, bind at 1, events_list, bind at 1.
  fold (available_query oneMonthAfter w).
  rewrite (call_rejected _ _ _ Hlist). reflexivity.
Qed.

Lemma filter_Permutation' {A} (f : A -> bool) (l l' : list A) :
  l ≡ₚ l' -> List.filter f l ≡ₚ List.filter f l'.
Proof.
  induction 1 as [|x l l' _ IH|x y l|l l' l'' _ IH1 _ IH2]; simpl.
  - constructor.
  - destruct (f x); [constructor|]; exact IH.
  - destruct (f x), (f y); try reflexivity. constructor.
  - now rewrite IH1.
Qed.

Lemma filter_filter_andb {A} (f g : A -> bool) (l : list A) :
  List.filter f (List.filter g l) = List.filter (fun x => g x && f x) l.
Proof.
  induction l as [|x l IH]; simpl; [reflexivity|].
  destruct (g x); simpl; [destruct (f x)|]; now rewrite IH.
Qed.

Lemma StronglySorted_filter' {A} (R : relation A) (f : A -> bool) (l : list A) :
  StronglySorted R l -> StronglySorted R (List.filter f l).
Proof.
  induction 1 as [|x l Hs IH Hx]; simpl; [constructor|].
  destruct (f x); [|exact IH]. constructor; [exact IH|].
  rewrite List.Forall_forall in *. intros y Hy.
  apply List.filter_In in Hy as [Hy _]. auto.
Qed.

(** The slots [available] answers with: those the expanded calendar holds
    in the window whose label marks them available, by ascending start. *)
Lemma available_slots (oneMonthAfter : Instant -> Instant) (w : World) :
  let answer :=
    List.filter (fun ev => marks_available (summary ev)) (window_events oneMonthAfter w) in
  answer ≡ₚ
    List.filter
      (fun ev => overlaps (clock w) (oneMonthAfter (clock w)) ev && marks_available (summary ev))
      (listed true (calendar w))
  /\ StronglySorted start_le answer.
Proof.
  simpl. unfold window_events. split.
  - rewrite <- filter_filter_andb. apply filter_Permutation', merge_sort_Permutation.
  - apply StronglySorted_filter', StronglySorted_merge_sort; apply _.
Qed.

(** ** What the routes may do to the ledger *)

#[global] Instance row_step_refl : Reflexive row_step.
Proof. intros r. unfold row_step. tauto. Qed.

#[global] Instance row_step_trans : Transitive row_step.
Proof.
  intros a b c (?&?&?&?&?&?&Hab) (?&?&?&?&?&?&Hbc). unfold row_step.
  repeat split; try congruence.
  destruct Hab as [Hab|[Hab1 Hab2]], Hbc as [Hbc|[Hbc1 Hbc2]]; try (left; congruence).
  - right; split; congruence.
  - right; split; congruence.
Qed.

Section LedgerRel.

Variable S : relation Appointment.
Context `{!Reflexive S, !Transitive S}.
Hypothesis S_id : forall r r', S r r' -> appt_id r' = appt_id r.

Lemma ledger_rel_same (w w' : World) :
  appointments w' = appointments w ->
  appointment_seq w' = appointment_seq w ->
  ledger_rel S w w'.
Proof.
  intros Hrows Hseq. split; [lia|]. exists (appointments w), [].
  rewrite app_nil_r. repeat split; [exact Hrows | reflexivity | constructor].
Qed.

(** A value of the sequence spent on no row. *)
Lemma ledger_rel_spent (w w' : World) :
  appointments w' = appointments w ->
  appointment_seq w <= appointment_seq w' ->
  ledger_rel S w w'.
Proof.
  intros Hrows Hseq. split; [lia|]. exists (appointments w), [].
  rewrite app_nil_r. repeat split; [exact Hrows | reflexivity | constructor].
Qed.

#[local] Instance ledger_rel_refl : Reflexive (ledger_rel S).
Proof. intros w. now apply ledger_rel_same. Qed.

#[local] Instance ledger_rel_trans : Transitive (ledger_rel S).
Proof.
  intros w1 w2 w3 (Hs12 & k1 & a1 & E1 & F1 & I1) (Hs23 & k2 & a2 & E2 & F2 & I2).
  split; [lia|]. rewrite E1 in F2.
  apply Forall2_app_inv_l in F2 as (k2a & k2b & Fa & Fb & ->).
  exists k2a, (k2b ++ a2)%list. repeat split.
  - rewrite E2. now rewrite <- app_assoc.
  - now transitivity k1.
  - apply Forall_app. split.
    + clear -Fb I1 Hs23 S_id. induction Fb as [|x y l l' Hxy _ IH]; [constructor|].
      inversion I1 as [|? ? Hx I1']; subst. constructor; [|auto].
      rewrite (S_id _ _ Hxy). lia.
    + eapply List.Forall_impl; [|exact I2]. simpl. intros; lia.
Qed.

(** The combinators. *)
Lemma preserves_ret {A} (a : A) : preserves (ledger_rel S) (ret a).
Proof. intros w. reflexivity. Qed.

Lemma preserves_throw {A} (e : Exn) : preserves (ledger_rel S) (@throw A e).
Proof. intros w. reflexivity. Qed.

Lemma preserves_read {A} (f : World -> A) : preserves (ledger_rel S) (read f).
Proof. intros w. reflexivity. Qed.

Lemma preserves_bind {A B} (m : Eff A) (k : A -> Eff B) :
  preserves (ledger_rel S) m ->
  (forall a, preserves (ledger_rel S) (k a)) ->
  preserves (ledger_rel S) (bind m k).
Proof.
  intros Hm Hk w. unfold bind. specialize (Hm w).
  destruct (m w) as [[a|e] w1]; simpl in *; [|exact Hm].
  etransitivity; [exact Hm | apply Hk].
Qed.

Lemma preserves_try_catch {A} (m : Eff A) (h : Exn -> Eff A) :
  preserves (ledger_rel S) m ->
  (forall e, preserves (ledger_rel S) (h e)) ->
  preserves (ledger_rel S) (try_catch m h).
Proof.
  intros Hm Hh w. unfold try_catch. specialize (Hm w).
  destruct (m w) as [[a|e] w1]; simpl in *; [exact Hm|].
  etransitivity; [exact Hm | apply Hh].
Qed.

(** The capabilities: none but the two ledger writes touches the rows. *)
Lemma preserves_call (cap : Capability) (c : Call) : preserves (ledger_rel S) (call cap c).
Proof. intros w. rewrite call_world. now apply ledger_rel_same. Qed.

Lemma preserves_set_tokensSet (b : bool) : preserves (ledger_rel S) (modify (set_tokensSet b)).
Proof. intros w. now apply ledger_rel_same. Qed.

Lemma preserves_events_list (q : ListQuery) : preserves (ledger_rel S) (events_list q).
Proof.
  unfold events_list. apply preserves_bind; [apply preserves_call|]. intros _.
  destruct (negb _); [apply preserves_throw|].
  apply preserves_bind; [apply preserves_read|]. intros cal.
  destruct (orderBy q) as [[]|]; [destruct (singleEvents q)| |];
    auto using preserves_ret, preserves_throw.
Qed.

Lemma preserves_events_get (c e : string) : preserves (ledger_rel S) (events_get c e).
Proof.
  unfold events_get. apply preserves_bind; [apply preserves_call|]. intros _.
  destruct (negb _); [apply preserves_throw|].
  apply preserves_bind; [apply preserves_read|]. intros cal.
  destruct (List.find _ _); [apply preserves_ret | apply preserves_throw].
Qed.

Lemma preserves_events_update (c e : string) (r : Event) :
  preserves (ledger_rel S) (events_update c e r).
Proof.
  unfold events_update. apply preserves_bind; [apply preserves_call|]. intros _.
  destruct (negb _); [apply preserves_throw|].
  apply preserves_bind; [apply preserves_read|]. intros cal.
  destruct (List.find _ _); [|apply preserves_throw].
  apply preserves_bind; [|intros _; apply preserves_ret].
  intros w. now apply ledger_rel_same.
Qed.

Lemma preserves_appointment_create (data : AppointmentData) :
  preserves (ledger_rel S) (appointment_create data).
Proof.
  intros w. unfold appointment_create, bind at 1.
  destruct (call AppointmentCreate (CallAppointmentCreate data) w) as [[[]|e] w1] eqn:Hc;
    pose proof (call_world AppointmentCreate (CallAppointmentCreate data) w) as Hw;
    rewrite Hc in Hw; simpl in Hw; subst w1.
  - destruct (d_startTime data), (d_endTime data); eff_unfold;
      try (now apply ledger_rel_same).
    destruct (match d_patientId data with Some p => user_exists (users w) p | None => true end);
      simpl; [|apply ledger_rel_spent; simpl; [reflexivity | lia]].
    split; simpl; [lia|].
    exists (appointments w), [ {| appt_id := appointment_seq w; startTime := i; endTime := i0;
                                status := default AVAILABLE (d_status data);
                                googleEventId := d_googleEventId data;
                                patientId := d_patientId data; createdAt := clock w |} ].
    repeat split; [reflexivity|constructor; [simpl; lia|constructor]].
  - simpl. now apply ledger_rel_same.
Qed.

Lemma preserves_appointment_findMany (wh : AppointmentWhere) :
  preserves (ledger_rel S) (appointment_findMany wh).
Proof.
  unfold appointment_findMany. apply preserves_bind; [apply preserves_call|]. intros _.
  apply preserves_bind; [apply preserves_read|]. intros rows. apply preserves_ret.
Qed.

Lemma preserves_user_findUnique (id : Z) : preserves (ledger_rel S) (user_findUnique id).
Proof.
  unfold user_findUnique. apply preserves_bind; [apply preserves_call|]. intros _.
  apply preserves_bind; [apply preserves_read|]. intros us. apply preserves_ret.
Qed.

End LedgerRel.

(** The update [cancel] makes only ever turns BOOKED rows CANCELLED. *)
Lemma row_step_update_row (wh : AppointmentWhere) (r : Appointment) :
  w_status wh = Some BOOKED -> row_step r (update_row wh CANCELLED r).
Proof.
  intros Hwh. unfold update_row. destruct (row_matches wh r) eqn:Hm; [|reflexivity].
  unfold row_step; simpl. repeat split. right. split; [|reflexivity].
  unfold row_matches in Hm. rewrite Hwh in Hm. simpl in Hm.
  apply andb_prop in Hm as [_ Hm]. apply bool_decide_eq_true in Hm. congruence.
Qed.

Lemma preserves_cancel_updateMany (wh : AppointmentWhere) :
  w_status wh = Some BOOKED ->
  preserves (ledger_rel row_step) (appointment_updateMany wh CANCELLED).
Proof.
  intros Hwh w. unfold appointment_updateMany, bind at 1.
  destruct (call AppointmentUpdateMany (CallAppointmentUpdateMany wh CANCELLED) w)
    as [[[]|e] w1] eqn:Hc;
    pose proof (call_world AppointmentUpdateMany (CallAppointmentUpdateMany wh CANCELLED) w) as Hw;
    rewrite Hc in Hw; simpl in Hw; subst w1.
  - eff_unfold. split; simpl; [lia|].
    exists (List.map (update_row wh CANCELLED) (appointments w)), [].
    rewrite app_nil_r. repeat split; [|constructor].
    induction (appointments w) as [|r l IH]; simpl; constructor;
      auto using row_step_update_row.
  - simpl. apply ledger_rel_same; reflexivity || apply _.
Qed.

(** One step through a route: the matching lemma for the head of the
    computation, with its side conditions on the row relation closed. *)
Ltac side Hid :=
  match goal with
  | |- Reflexive _ => exact _
  | |- Transitive _ => exact _
  | |- forall r r', _ -> appt_id r' = appt_id r => exact Hid
  | _ => idtac
  end.

Ltac step Hid :=
  first
    [ apply preserves_ret | apply preserves_throw | apply preserves_read
    | apply preserves_events_list | apply preserves_events_get
    | apply preserves_events_update | apply preserves_appointment_create
    | apply preserves_appointment_findMany | apply preserves_user_findUnique
    | apply preserves_call | apply preserves_set_tokensSet
    | apply preserves_bind; [ idtac .. | intros ?]
    | apply preserves_try_catch; [ idtac .. | intros ?] ];
  side Hid.

Section RoutesAndLedger.

Variable jwt_verify : string -> option Z.
Variable oneMonthAfter : Instant -> Instant.
Variable authUrl : string.

Variable S : relation Appointment.
Context `{!Reflexive S, !Transitive S}.
Hypothesis S_id : forall r r', S r r' -> appt_id r' = appt_id r.

Lemma preserves_login (req : Request) : preserves (ledger_rel S) (login authUrl req).
Proof. unfold login. step S_id. Qed.

Lemma preserves_redirect (req : Request) : preserves (ledger_rel S) (redirect req).
Proof.
  unfold redirect, oauth_getToken. destruct (query_code req) as [code|]; [|step S_id].
  destruct (String.eqb code ""); repeat step S_id.
Qed.

Lemma preserves_available (req : Request) :
  preserves (ledger_rel S) (available oneMonthAfter req).
Proof.
  unfold available. step S_id; [step S_id|]. destruct (negb _); repeat step S_id.
Qed.

Lemma preserves_book (req : Request) : preserves (ledger_rel S) (book req).
Proof.
  unfold book, iso_of. step S_id; [step S_id|]. destruct (negb _); [step S_id|].
  step S_id; [|step S_id]. step S_id; [step S_id|]. destruct a0 as [event|]; [|step S_id].
  destruct (negb _); [step S_id|].
  destruct (start event), (end_ event); repeat step S_id.
Qed.

Lemma preserves_mine (req : Request) : preserves (ledger_rel S) (mine req).
Proof. unfold mine. repeat step S_id. Qed.

Lemma preserves_authMiddleware (req : Request) (next : Request -> Eff Response) :
  (forall r, preserves (ledger_rel S) (next r)) ->
  preserves (ledger_rel S) (authMiddleware jwt_verify req next).
Proof.
  intros Hnext. unfold authMiddleware.
  destruct (headers_authorization req) as [h|]; [|step S_id].
  destruct (String.eqb h ""); [step S_id|].
  step S_id; [|step S_id]. step S_id.
  - destruct (jwt_verify _); step S_id.
  - step S_id; [step S_id|]. destruct a0; [apply Hnext|step S_id].
Qed.

End RoutesAndLedger.

Lemma preserves_cancel (req : Request) : preserves (ledger_rel row_step) (cancel req).
Proof.
  assert (Hid : forall r r', row_step r r' -> appt_id r' = appt_id r) by (intros r r' H; apply H).
  unfold cancel. step Hid; [step Hid|]. destruct (negb _); [step Hid|].
  step Hid; [|step Hid]. step Hid; [step Hid|]. destruct a0 as [event|]; [|step Hid].
  step Hid; [step Hid|]. step Hid; [|step Hid].
  now apply preserves_cancel_updateMany.
Qed.

(** ** The guard in front of the patient routes *)

Lemma try_catch_answers {A} (m : Eff A) (a : A) (w : World) :
  exists r w', try_catch m (fun _ => ret a) w = (Return r, w').
Proof. unfold try_catch, ret. destruct (m w) as [[x|e] w']; eauto. Qed.

Lemma available_answers (oneMonthAfter : Instant -> Instant) : answers (available oneMonthAfter).
Proof.
  intros req w. unfold available, bind at 1, read.
  destruct (negb (tokensSet w)); [unfold ret; eauto | apply try_catch_answers].
Qed.

Lemma book_answers : answers book.
Proof.
  intros req w. unfold book, bind at 1, read.
  destruct (negb (tokensSet w)); [unfold ret; eauto | apply try_catch_answers].
Qed.

Lemma cancel_answers : answers cancel.
Proof.
  intros req w. unfold cancel, bind at 1, read.
  destruct (negb (tokensSet w)); [unfold ret; eauto | apply try_catch_answers].
Qed.

Lemma mine_answers : answers mine.
Proof. intros req w. unfold mine. apply try_catch_answers. Qed.

(** The guard hands the request on with [user] set, and with [userId] as it
    came in. *)
Lemma authMiddleware_pass (jwt_verify : string -> option Z) (next : Request -> Eff Response)
    (req : Request) (w : World) (u : User) :
  answers next ->
  authenticates jwt_verify w req u ->
  authMiddleware jwt_verify req next w =
    next (set_user req u) (log (CallUserFindUnique (user_id u)) w).
Proof.
  intros Hnext (h & Hh & Hne & Hjwt & Hcap & Hfind).
  unfold authMiddleware. rewrite Hh.
  destruct (String.eqb_spec h ""); [contradiction|].
  unfold try_catch, bind at 1. rewrite Hjwt. unfold ret at 1.
  unfold bind at 1, user_findUnique, bind at 1. rewrite (call_ok _ _ _ Hcap).
  eff_unfold. rewrite Hfind.
  destruct (Hnext (set_user req u) (log (CallUserFindUnique (user_id u)) w)) as (r & w' & ->).
  reflexivity.
Qed.

Lemma userId_set_user (req : Request) (u : User) : userId (set_user req u) = userId req.
Proof. reflexivity. Qed.

(** A patient route called with a request that passes the guard is its
    handler, run after the one lookup of the guard. *)
Lemma patient_route_behind_guard
    (jwt_verify : string -> option Z) (oneMonthAfter : Instant -> Instant) (authUrl : string)
    (route : Route) (req : Request) (w : World) (u : User) :
  authenticates jwt_verify w req u ->
  let req' := set_user req u in
  let w1 := log (CallUserFindUnique (user_id u)) w in
  router jwt_verify oneMonthAfter authUrl route req w =
    match route with
    | GET_login => login authUrl req w
    | GET_redirect => redirect req w
    | GET_available => available oneMonthAfter req' w1
    | POST_book => book req' w1
    | POST_cancel => cancel req' w1
    | GET_mine => mine req' w1
    end.
Proof.
  intros Hauth. destruct route; simpl; try reflexivity;
    apply authMiddleware_pass;
    auto using available_answers, book_answers, cancel_answers, mine_answers.
Qed.

(** ** Every route and the ledger *)

Lemma ledger_rel_keys (w w' : World) :
  ledger_rel row_step w w' -> keys_below_seq w -> keys_below_seq w'.
Proof.
  intros (Hseq & kept & added & E & F & I) Hk. unfold keys_below_seq in *.
  rewrite E. apply Forall_app. split.
  - clear E. induction F as [|x y l l' Hxy _ IH]; [constructor|].
    inversion Hk; subst. constructor; [|auto].
    destruct Hxy as [-> _]. lia.
  - eapply List.Forall_impl; [|exact I]. simpl. intros; lia.
Qed.

Lemma row_step_cancelled (r r' : Appointment) :
  row_step r r' -> status r = CANCELLED -> r' = r.
Proof.
  intros (H1 & H2 & H3 & H4 & H5 & H6 & H7) Hc.
  destruct r, r'; simpl in *; subst.
  destruct H7 as [->|[? _]]; [reflexivity|discriminate].
Qed.

Lemma ledger_rel_cancelled_kept (w w' : World) :
  ledger_rel row_step w w' ->
  forall r, In r (appointments w) -> status r = CANCELLED -> In r (appointments w').
Proof.
  intros (_ & kept & added & E & F & _) r Hin Hc. rewrite E.
  apply List.in_or_app. left. clear E.
  induction F as [|x y l l' Hxy _ IH]; [contradiction|].
  destruct Hin as [->|Hin].
  - left. now apply row_step_cancelled.
  - right. auto.
Qed.

Lemma ledger_rel_eq_grows (w w' : World) :
  ledger_rel eq w w' ->
  exists added,
    appointments w' = (appointments w ++ added)%list
    /\ Forall (fun r => appointment_seq w ≤ appt_id r < appointment_seq w') added.
Proof.
  intros (_ & kept & added & E & F & I). exists added.
  assert (kept = appointments w) as ->; [|auto].
  clear E. induction F as [|x y l l' Hxy _ IH]; congruence.
Qed.

Lemma router_preserves (S : relation Appointment) `{!Reflexive S, !Transitive S}
    (jwt_verify : string -> option Z) (oneMonthAfter : Instant -> Instant) (authUrl : string)
    (route : Route) (req : Request) :
  (forall r r', S r r' -> appt_id r' = appt_id r) ->
  (route = POST_cancel -> forall r, preserves (ledger_rel S) (cancel r)) ->
  preserves (ledger_rel S) (router jwt_verify oneMonthAfter authUrl route req).
Proof.
  intros Hid Hcancel. destruct route; simpl.
  - apply preserves_login; side Hid.
  - apply preserves_redirect; side Hid.
  - apply preserves_authMiddleware; side Hid. intros r. apply preserves_available; side Hid.
  - apply preserves_authMiddleware; side Hid. intros r. apply preserves_book; side Hid.
  - apply preserves_authMiddleware; side Hid. now apply Hcancel.
  - apply preserves_authMiddleware; side Hid. intros r. apply preserves_mine; side Hid.
Qed.

(** C5.  Whatever route is called, with whatever request, in whatever
    world: every row that existed is still there, in place, with the same
    key, slot reference, patient, times and creation time, and with the same
    status unless it went from BOOKED to CANCELLED; rows that appear are
    appended with keys freshly drawn from the sequence.  Every route but
    the cancelling one leaves the existing rows exactly as they were, so a
    booking never rewrites a row, cancelled or not: what it adds is a new
    row.  A CANCELLED row stays as it is for good.  Keys stay below the
    sequence, so a new key is no existing one. *)
Theorem ledger_rows_only_ever_cancelled
    (jwt_verify : string -> option Z) (oneMonthAfter : Instant -> Instant) (authUrl : string)
    (route : Route) (req : Request) (w : World) :
  let w' := snd (router jwt_verify oneMonthAfter authUrl route req w) in
  ledger_rel row_step w w'
  /\ (route <> POST_cancel ->
      exists added,
        appointments w' = (appointments w ++ added)%list
        /\ Forall (fun r => appointment_seq w ≤ appt_id r < appointment_seq w') added)
  /\ (forall r, In r (appointments w) -> status r = CANCELLED -> In r (appointments w'))
  /\ (keys_below_seq w -> keys_below_seq w').
Proof.
  assert (H : ledger_rel row_step w
                (snd (router jwt_verify oneMonthAfter authUrl route req w))).
  { apply router_preserves; try exact _.
    - intros r r' Hr. apply Hr.
    - intros _ r. apply preserves_cancel. }
  simpl. split; [exact H|]. split; [|split].
  - intros Hroute. apply ledger_rel_eq_grows.
    apply router_preserves; try exact _; congruence.
  - now apply ledger_rel_cancelled_kept.
  - now apply ledger_rel_keys.
Qed.

(** ** Every way [book] and [cancel] can go *)

Lemma insert_accepted_or_rejected (w : World) (data : AppointmentData) :
  insert_accepted w data \/ insert_rejected w data.
Proof.
  unfold insert_accepted, insert_rejected.
  destruct (decide (AppointmentCreate ∈ rejecting w)) as [?|Hcap]; [tauto|].
  destruct (d_startTime data) as [s|]; [|tauto].
  destruct (d_endTime data) as [e|]; [|tauto].
  destruct (d_patientId data) as [p|].
  - destruct (user_exists (users w) p) eqn:Hu.
    + left. repeat split; eauto. intros q [= <-]. exact Hu.
    + right. right. right. right. eauto.
  - left. repeat split; eauto. discriminate.
Qed.

Lemma book_get_rejected (req : Request) (w : World) :
  tokensSet w = true ->
  EventsGet ∈ rejecting w ->
  book req w = (Return BOOK_FAILED, after_get (params_eventId req) w).
Proof.
  intros Hauth Hrej. unfold book, bind at 1, read. rewrite Hauth. simpl.
  unfold try_catch, bind at 1, events_get, bind at 1.
  rewrite (call_rejected _ _ _ Hrej). reflexivity.
Qed.

Lemma cancel_get_rejected (req : Request) (w : World) :
  tokensSet w = true ->
  EventsGet ∈ rejecting w ->
  cancel req w = (Return CANCEL_FAILED, after_get (params_eventId req) w).
Proof.
  intros Hauth Hrej. unfold cancel, bind at 1, read. rewrite Hauth. simpl.
  unfold try_catch, bind at 1, events_get, bind at 1.
  rewrite (call_rejected _ _ _ Hrej). reflexivity.
Qed.

(** [book] ends in one of seven ways. *)
Lemma book_cases (req : Request) (w : World) :
  let eventId := params_eventId req in
  let found := List.find (has_id eventId) (stored (calendar w)) in
  (tokensSet w = false /\ book req w = (Return NOT_AUTHORIZED, w))
  \/ book req w = (Return BOOK_FAILED, after_get eventId w)
  \/ book req w = (Return NOT_AVAILABLE, after_get eventId w)
  \/ (exists e,
        found = Some e
        /\ book req w =
             (Return BOOK_FAILED,
              log (CallEventsUpdate CAREGIVER_CALENDAR_ID eventId (with_summary e "BOOKED"))
                (after_get eventId w)))
  \/ (exists e,
        found = Some e
        /\ book req w = (Return BOOK_FAILED, after_update eventId (with_summary e "BOOKED") w))
  \/ (exists e s t,
        found = Some e
        /\ book req w =
             (Return BOOK_FAILED,
              after_rejected_insert (booking_data req s t)
                (after_update eventId (with_summary e "BOOKED") w)))
  \/ (exists e s t,
        (tokensSet w = true
         /\ (EventsGet ∉ rejecting w)
         /\ (EventsUpdate ∉ rejecting w)
         /\ found = Some e
         /\ marks_available (summary e) = true
         /\ start e = Some s
         /\ end_ e = Some t
         /\ insert_accepted w (booking_data req s t))
        /\ book req w =
             (Return (Json 200 (JsonAppointment (created_row w (booking_data req s t)))),
              set_appointments (appointments w ++ [created_row w (booking_data req s t)])
                (appointment_seq w + 1)
                (log (CallAppointmentCreate (booking_data req s t))
                   (after_update eventId (with_summary e "BOOKED") w)))).
Proof.
  simpl.
  destruct (tokensSet w) eqn:Hauth; [|left; split; [reflexivity | now apply book_gate]].
  destruct (decide (EventsGet ∈ rejecting w)) as [Hrej|Hget];
    [right; left; now apply book_get_rejected|].
  destruct (List.find (has_id (params_eventId req)) (stored (calendar w))) as [e|] eqn:Hfound;
    [|right; left; now apply book_absent].
  destruct (marks_available (summary e)) eqn:Hyes;
    [|right; right; left; now apply book_refused with e].
  do 3 right.
  destruct (decide (EventsUpdate ∈ rejecting w)) as [Hrej|Hupd];
    [left; exists e; split; [reflexivity|]; now apply book_update_rejected|].
  right.
  destruct (start e) as [s|] eqn:Hs; [destruct (end_ e) as [t|] eqn:Ht|].
  - right. destruct (insert_accepted_or_rejected w (booking_data req s t)) as [Hins|Hins].
    + right. exists e, s, t. split; [|now apply book_accepted].
      split; [reflexivity|]. split; [exact Hget|]. split; [exact Hupd|].
      split; [reflexivity|]. split; [exact Hyes|]. split; [exact Hs|].
      split; [exact Ht|exact Hins].
    + left. exists e, s, t. split; [reflexivity|]. now apply book_insert_rejected.
  - left. exists e. split; [reflexivity|]. apply book_no_bounds; auto.
  - left. exists e. split; [reflexivity|]. apply book_no_bounds; auto.
Qed.

(** [cancel] ends in one of five ways. *)
Lemma cancel_cases (req : Request) (w : World) :
  let eventId := params_eventId req in
  let found := List.find (has_id eventId) (stored (calendar w)) in
  (tokensSet w = false /\ cancel req w = (Return NOT_AUTHORIZED, w))
  \/ cancel req w = (Return CANCEL_FAILED, after_get eventId w)
  \/ (exists e,
        found = Some e
        /\ cancel req w =
             (Return CANCEL_FAILED,
              log (CallEventsUpdate CAREGIVER_CALENDAR_ID eventId (with_summary e "AVAILABLE"))
                (after_get eventId w)))
  \/ (exists e,
        found = Some e
        /\ cancel req w =
             (Return CANCEL_FAILED,
              log (CallAppointmentUpdateMany (cancel_where req) CANCELLED)
                (after_update eventId (with_summary e "AVAILABLE") w)))
  \/ (exists e,
        (tokensSet w = true
         /\ (EventsGet ∉ rejecting w)
         /\ (EventsUpdate ∉ rejecting w)
         /\ (AppointmentUpdateMany ∉ rejecting w)
         /\ found = Some e)
        /\ cancel req w =
             (Return CANCELLED_OK,
              set_appointments
                (List.map (update_row (cancel_where req) CANCELLED) (appointments w))
                (appointment_seq w)
                (log (CallAppointmentUpdateMany (cancel_where req) CANCELLED)
                   (after_update eventId (with_summary e "AVAILABLE") w)))).
Proof.
  simpl.
  destruct (tokensSet w) eqn:Hauth; [|left; split; [reflexivity | now apply cancel_gate]].
  destruct (decide (EventsGet ∈ rejecting w)) as [Hrej|Hget];
    [right; left; now apply cancel_get_rejected|].
  destruct (List.find (has_id (params_eventId req)) (stored (calendar w))) as [e|] eqn:Hfound;
    [|right; left; now apply cancel_absent].
  do 2 right.
  destruct (decide (EventsUpdate ∈ rejecting w)) as [Hrej|Hupd];
    [left; exists e; split; [reflexivity|]; now apply cancel_update_rejected|].
  right.
  destruct (decide (AppointmentUpdateMany ∈ rejecting w)) as [Hrej|Hok].
  - left. exists e. split; [reflexivity|]. now apply cancel_ledger_rejected.
  - right. exists e. split; [|now apply cancel_done].
    split; [reflexivity|]. split; [exact Hget|]. split; [exact Hupd|].
    split; [exact Hok|reflexivity].
Qed.

(** The answer 404 is none of them. *)
Lemma book_never_not_found (req : Request) (w : World) :
  fst (book req w) <> Return EVENT_NOT_FOUND.
Proof.
  destruct (book_cases req w)
    as [[_ H]|[H|[H|[(e&_&H)|[(e&_&H)|[(e&s&t&_&H)|(e&s&t&_&H)]]]]]];
    rewrite H; discriminate.
Qed.

Lemma cancel_never_not_found (req : Request) (w : World) :
  fst (cancel req w) <> Return EVENT_NOT_FOUND.
Proof.
  destruct (cancel_cases req w) as [[_ H]|[H|[(e&_&H)|[(e&_&H)|(e&_&H)]]]];
    rewrite H; discriminate.
Qed.

(** ** The claims on the booking and cancelling routes *)

Lemma slot_absent_find (eventId : string) (cal : Calendar) :
  slot_absent eventId cal -> List.find (has_id eventId) (stored cal) = None.
Proof.
  intros H. destruct (List.find _ _) as [e|] eqn:Hf; [|reflexivity].
  apply List.find_some in Hf as [Hin Hid]. apply String.eqb_eq in Hid.
  now destruct (H e Hin).
Qed.

Lemma same_stores_log (c : Call) (w : World) : same_stores w (log c w).
Proof. repeat split. Qed.

(** C7.  The handlers test the fetched event and answer 404 "Event not
    found in calendar." when there is none, which is what the claim says.
    That answer is out of reach, for every request and in every world:
    when the calendar stores no event under the id of the request (the
    gate open, the lookup reaching the calendar), the lookup is rejected
    and each handler leaves through its [catch].  [book] answers 500
    "Failed to book appointment." and [cancel] 500 "Failed to cancel
    appointment." -- UpstreamUnavailable, not NotFound.  The other half of
    the claim holds: the lookup is the only call made, calendar and ledger
    are as before. *)
Theorem absent_slot_is_answered_as_a_failure (req : Request) (w : World) :
  tokensSet w = true ->
  EventsGet ∉ rejecting w ->
  slot_absent (params_eventId req) (calendar w) ->
  let w' := log (CallEventsGet CAREGIVER_CALENDAR_ID (params_eventId req)) w in
  book req w = (Return BOOK_FAILED, w')
  /\ cancel req w = (Return CANCEL_FAILED, w')
  /\ error_kind BOOK_FAILED = Some UpstreamUnavailable
  /\ error_kind CANCEL_FAILED = Some UpstreamUnavailable
  /\ error_kind EVENT_NOT_FOUND = Some NotFound
  /\ (forall r v,
        fst (book r v) <> Return EVENT_NOT_FOUND
        /\ fst (cancel r v) <> Return EVENT_NOT_FOUND)
  /\ same_stores w w'
  /\ trace w' = (trace w ++ [CallEventsGet CAREGIVER_CALENDAR_ID (params_eventId req)])%list.
Proof.
  intros Hauth Hget Habs. apply slot_absent_find in Habs. simpl.
  rewrite (book_absent req w Hauth Hget Habs), (cancel_absent req w Hauth Hget Habs).
  repeat split.
  - apply book_never_not_found.
  - apply cancel_never_not_found.
Qed.

(** C2.  When the label of the fetched slot holds no case-insensitive
    occurrence of the token (and the gate is open and the lookup answers),
    [book] answers 400 "This slot is not available anymore." -- Conflict --
    after the lookup alone: the slot, the calendar and the rows of the
    ledger are as before. *)
Theorem unavailable_slot_is_conflict (req : Request) (w : World) (event : Event) :
  tokensSet w = true ->
  EventsGet ∉ rejecting w ->
  List.find (has_id (params_eventId req)) (stored (calendar w)) = Some event ->
  ~ ci_substring AVAILABLE_TOKEN (or_empty (summary event)) ->
  let w' := log (CallEventsGet CAREGIVER_CALENDAR_ID (params_eventId req)) w in
  book req w = (Return NOT_AVAILABLE, w')
  /\ error_kind NOT_AVAILABLE = Some Conflict
  /\ calendar w' = calendar w
  /\ appointments w' = appointments w
  /\ List.find (has_id (params_eventId req)) (stored (calendar w')) = Some event
  /\ trace w' = (trace w ++ [CallEventsGet CAREGIVER_CALENDAR_ID (params_eventId req)])%list.
Proof.
  intros Hauth Hget Hfound Hno. apply marks_available_false_iff in Hno. simpl.
  rewrite (book_refused req w Hauth Hget event Hfound Hno). repeat split. exact Hfound.
Qed.

(** The relabelled slot is what the calendar stores after the overwrite. *)
Lemma after_update_stored (eventId : string) (event : Event) (label : string) (w : World) :
  List.find (has_id eventId) (stored (calendar w)) = Some event ->
  List.find (has_id eventId)
    (stored (calendar (after_update eventId (with_summary event label) w)))
  = Some (with_summary event label).
Proof.
  intros Hfound. simpl. rewrite stored_overwrite.
  apply find_overwrite_same with (e := event); [|exact Hfound].
  rewrite has_id_with_summary. apply List.find_some in Hfound. tauto.
Qed.

(** C9.  The relabel went through and the insert is then turned down (the
    ledger rejects the call, a bound is no valid date, or the patient is
    no stored user): [book] answers 500 "Failed to book appointment." and
    undoes nothing.  The calendar stores the slot under the label BOOKED and
    the ledger has the rows it had. *)
Theorem failed_insert_leaves_slot_booked
    (req : Request) (w : World) (event : Event) (s t : EventDateTime) :
  tokensSet w = true ->
  EventsGet ∉ rejecting w ->
  EventsUpdate ∉ rejecting w ->
  List.find (has_id (params_eventId req)) (stored (calendar w)) = Some event ->
  marks_available (summary event) = true ->
  start event = Some s ->
  end_ event = Some t ->
  insert_rejected w (booking_data req s t) ->
  let w' := snd (book req w) in
  fst (book req w) = Return BOOK_FAILED
  /\ error_kind BOOK_FAILED = Some UpstreamUnavailable
  /\ List.find (has_id (params_eventId req)) (stored (calendar w'))
     = Some (with_summary event "BOOKED")
  /\ appointments w' = appointments w
  /\ In (CallEventsUpdate CAREGIVER_CALENDAR_ID (params_eventId req)
           (with_summary event "BOOKED")) (trace w').
Proof.
  intros Hauth Hget Hupd Hfound Hyes Hs Ht Hrej. simpl.
  rewrite (book_insert_rejected req w Hauth Hget event Hfound Hupd s t Hs Ht Hyes Hrej).
  destruct (after_rejected_insert_frame (booking_data req s t)
              (after_update (params_eventId req) (with_summary event "BOOKED") w))
    as (_ & Hcal & Hrows & _ & _ & _ & Htr & _).
  unfold fst, snd. rewrite Hcal, Hrows, Htr. simpl. repeat split.
  - rewrite stored_overwrite.
    apply find_overwrite_same with (e := event); [|exact Hfound].
    rewrite has_id_with_summary. apply List.find_some in Hfound. tauto.
  - rewrite !List.in_app_iff. simpl. tauto.
Qed.

(** Once the relabel went through, whatever [book] and [cancel] do next adds
    to the trace and leaves the calendar alone. *)
Lemma book_after_relabel (req : Request) (w : World) (event : Event) :
  tokensSet w = true ->
  EventsGet ∉ rejecting w ->
  EventsUpdate ∉ rejecting w ->
  List.find (has_id (params_eventId req)) (stored (calendar w)) = Some event ->
  marks_available (summary event) = true ->
  let w1 := after_update (params_eventId req) (with_summary event "BOOKED") w in
  calendar (snd (book req w)) = calendar w1
  /\ exists rest, trace (snd (book req w)) = (trace w1 ++ rest)%list.
Proof.
  intros Hauth Hget Hupd Hfound Hyes. simpl.
  destruct (start event) as [s|] eqn:Hs; [destruct (end_ event) as [t|] eqn:Ht|].
  - destruct (insert_accepted_or_rejected w (booking_data req s t)) as [Hins|Hins].
    + rewrite (book_accepted req w Hauth Hget event Hfound Hupd s t Hs Ht Hyes Hins).
      split; [reflexivity|]. eexists. reflexivity.
    + rewrite (book_insert_rejected req w Hauth Hget event Hfound Hupd s t Hs Ht Hyes Hins).
      destruct (after_rejected_insert_frame (booking_data req s t)
                  (after_update (params_eventId req) (with_summary event "BOOKED") w))
        as (_ & Hcal & _ & _ & _ & _ & Htr & _).
      unfold snd. rewrite Hcal, Htr. split; [reflexivity|]. eexists. reflexivity.
  - rewrite (book_no_bounds req w Hauth Hget event Hfound Hupd Hyes (or_intror Ht)).
    split; [reflexivity|]. exists []. simpl. now rewrite app_nil_r.
  - rewrite (book_no_bounds req w Hauth Hget event Hfound Hupd Hyes (or_introl Hs)).
    split; [reflexivity|]. exists []. simpl. now rewrite app_nil_r.
Qed.

Lemma cancel_after_relabel (req : Request) (w : World) (event : Event) :
  tokensSet w = true ->
  EventsGet ∉ rejecting w ->
  EventsUpdate ∉ rejecting w ->
  List.find (has_id (params_eventId req)) (stored (calendar w)) = Some event ->
  let w1 := after_update (params_eventId req) (with_summary event "AVAILABLE") w in
  calendar (snd (cancel req w)) = calendar w1
  /\ exists rest, trace (snd (cancel req w)) = (trace w1 ++ rest)%list.
Proof.
  intros Hauth Hget Hupd Hfound. simpl.
  destruct (decide (AppointmentUpdateMany ∈ rejecting w)) as [Hrej|Hok].
  - rewrite (cancel_ledger_rejected req w Hauth Hget event Hfound Hupd Hrej).
    split; [reflexivity|]. eexists. reflexivity.
  - rewrite (cancel_done req w Hauth Hget event Hfound Hupd Hok).
    split; [reflexivity|]. eexists. reflexivity.
Qed.

Lemma update_sent_after_get (tr rest : list Call) (c e : string) (r : Event) :
  update_sent tr (tr ++ [CallEventsGet c e; CallEventsUpdate c e r] ++ rest)%list = Some r.
Proof. unfold update_sent. rewrite drop_app_length. reflexivity. Qed.

(** C6.  For a slot that [book] finds available, and for any slot that
    [cancel] finds, the resource sent to [events.update] under the id of the
    request is the fetched representation with its label replaced -- by
    BOOKED, by AVAILABLE -- and with every other field as fetched.  When the
    calendar accepts it, the stored slot is overwritten by exactly that
    resource and every other stored event is as it was. *)
Theorem relabel_round_trips_the_slot (req : Request) (w : World) (event : Event) :
  tokensSet w = true ->
  EventsGet ∉ rejecting w ->
  List.find (has_id (params_eventId req)) (stored (calendar w)) = Some event ->
  let eventId := params_eventId req in
  (marks_available (summary event) = true ->
   exists r,
     update_sent (trace w) (trace (snd (book req w))) = Some r
     /\ In (CallEventsUpdate CAREGIVER_CALENDAR_ID eventId r) (trace (snd (book req w)))
     /\ summary r = Some "BOOKED"
     /\ same_but_summary event r
     /\ (EventsUpdate ∉ rejecting w ->
         stored (calendar (snd (book req w))) = List.map (overwrite eventId r) (stored (calendar w))
         /\ List.find (has_id eventId) (stored (calendar (snd (book req w)))) = Some r))
  /\ (exists r,
     update_sent (trace w) (trace (snd (cancel req w))) = Some r
     /\ In (CallEventsUpdate CAREGIVER_CALENDAR_ID eventId r) (trace (snd (cancel req w)))
     /\ summary r = Some "AVAILABLE"
     /\ same_but_summary event r
     /\ (EventsUpdate ∉ rejecting w ->
         stored (calendar (snd (cancel req w))) = List.map (overwrite eventId r) (stored (calendar w))
         /\ List.find (has_id eventId) (stored (calendar (snd (cancel req w)))) = Some r)).
Proof.
  intros Hauth Hget Hfound. simpl. split.
  - intros Hyes. exists (with_summary event "BOOKED").
    destruct (decide (EventsUpdate ∈ rejecting w)) as [Hrej|Hupd].
    + rewrite (book_update_rejected req w Hauth Hget event Hfound Hyes Hrej). simpl.
      rewrite <- app_assoc.
      split; [apply (update_sent_after_get _ [])|].
      split; [rewrite !List.in_app_iff; simpl; tauto|].
      repeat split; intros; contradiction.
    + destruct (book_after_relabel req w event Hauth Hget Hupd Hfound Hyes) as [Hcal [rest Htr]].
      rewrite Htr, Hcal. simpl. rewrite <- !app_assoc.
      split; [apply update_sent_after_get|].
      split; [rewrite !List.in_app_iff; simpl; tauto|].
      repeat split.
      * apply stored_overwrite.
      * apply (after_update_stored _ _ _ _ Hfound).
  - exists (with_summary event "AVAILABLE").
    destruct (decide (EventsUpdate ∈ rejecting w)) as [Hrej|Hupd].
    + rewrite (cancel_update_rejected req w Hauth Hget event Hfound Hrej). simpl.
      rewrite <- app_assoc.
      split; [apply (update_sent_after_get _ [])|].
      split; [rewrite !List.in_app_iff; simpl; tauto|].
      repeat split; intros; contradiction.
    + destruct (cancel_after_relabel req w event Hauth Hget Hupd Hfound) as [Hcal [rest Htr]].
      rewrite Htr, Hcal. simpl. rewrite <- !app_assoc.
      split; [apply update_sent_after_get|].
      split; [rewrite !List.in_app_iff; simpl; tauto|].
      repeat split.
      * apply stored_overwrite.
      * apply (after_update_stored _ _ _ _ Hfound).
Qed.

(** ** The claims on the listing route *)

Lemma overlaps_iff (a b : Instant) (e : Event) :
  overlaps a b e = true <-> in_window a b e.
Proof.
  unfold overlaps, in_window. split.
  - destruct (start_instant e) as [s|], (end_instant e) as [t|]; try discriminate.
    intros H. apply andb_prop in H as [H1 H2]. exists s, t. repeat split; lia.
  - intros (s & t & -> & -> & H1 & H2). apply andb_true_intro. split; lia.
Qed.

(** With [singleEvents] a series is listed as its occurrences. *)
Lemma listed_occurrence (cal : Calendar) (m o : Event) (occ : list Event) :
  In (Series m occ) cal -> In o occ -> In o (listed true cal).
Proof.
  intros Hs Ho. unfold listed. apply List.in_flat_map. exists (Series m occ). auto.
Qed.

(** The answer of [available] and what is in it. *)
Lemma available_answer_members
    (oneMonthAfter : Instant -> Instant) (req : Request) (w : World) :
  tokensSet w = true ->
  EventsList ∉ rejecting w ->
  exists answer,
    available oneMonthAfter req w =
      (Return (Json 200 (JsonEvents answer)),
       log (CallEventsList (available_query oneMonthAfter w)) w)
    /\ (forall ev,
          In ev answer <->
          In ev (listed true (calendar w))
          /\ in_window (clock w) (oneMonthAfter (clock w)) ev
          /\ ci_substring AVAILABLE_TOKEN (or_empty (summary ev))).
Proof.
  intros Hauth Hlist.
  destruct (available_slots oneMonthAfter w) as [Hperm _]. simpl in Hperm.
  eexists. split; [apply (available_ok oneMonthAfter req w Hauth Hlist)|].
  intros ev. split.
  - intros Hin. apply list_elem_of_In in Hin. rewrite Hperm in Hin.
    apply list_elem_of_In, List.filter_In in Hin. destruct Hin as [Hin Hb].
    apply andb_prop in Hb as [H1 H2].
    apply overlaps_iff in H1. apply marks_available_iff in H2. auto.
  - intros (Hin & Hw & Hc). apply list_elem_of_In. rewrite Hperm.
    apply list_elem_of_In, List.filter_In. split; [exact Hin|].
    apply andb_true_intro. split; [now apply overlaps_iff | now apply marks_available_iff].
Qed.

(** The calendar's listing against the words of the specification. *)
Lemma expanded_slot_iff (cal : Calendar) (e : Event) :
  expanded_slot cal e <-> In e (listed true cal).
Proof.
  unfold listed. rewrite List.in_flat_map. split.
  - intros [x Hx | m occ x Hs Hx].
    + exists (Single x). split; [exact Hx | now left].
    + exists (Series m occ). split; [exact Hs | exact Hx].
  - intros ([x | m occ] & Hen & Hin); simpl in Hin.
    + destruct Hin as [<- | []]. now apply slot_single.
    + now apply slot_occurrence with (m := m) (occ := occ).
Qed.

Lemma times_held_listed (cal : Calendar) (e : Event) :
  times_held cal e = count_occ Event_eq_dec (listed true cal) e.
Proof.
  unfold listed. induction cal as [|[x | m occ] cal IH]; simpl; [reflexivity| |].
  - rewrite IH. destruct (decide (x = e)), (Event_eq_dec x e); congruence || reflexivity.
  - rewrite IH, count_occ_app. reflexivity.
Qed.

Lemma denotes_iff (b : EventDateTime) (i : Instant) :
  denotes b i <-> new_Date (dateTime_or_date b) = Some i.
Proof.
  unfold dateTime_or_date. split.
  - intros [ms H | d H1 H2]; rewrite ?H, ?H1, ?H2; reflexivity.
  - destruct (dateTime b) as [ms|] eqn:Hdt.
    + intros [= <-]. now apply denotes_dateTime.
    + destruct (date b) as [d|] eqn:Hd; simpl; [|discriminate].
      intros [= <-]. now apply denotes_date.
Qed.

Lemma starts_at_iff (e : Event) (i : Instant) : starts_at e i <-> start_instant e = Some i.
Proof.
  unfold starts_at, start_instant. split.
  - intros (b & -> & H). now apply denotes_iff.
  - destruct (start e) as [b|]; [|discriminate]. intros H. exists b. split; [reflexivity|].
    now apply denotes_iff.
Qed.

Lemma ends_at_iff (e : Event) (i : Instant) : ends_at e i <-> end_instant e = Some i.
Proof.
  unfold ends_at, end_instant. split.
  - intros (b & -> & H). now apply denotes_iff.
  - destruct (end_ e) as [b|]; [|discriminate]. intros H. exists b. split; [reflexivity|].
    now apply denotes_iff.
Qed.

Lemma overlaps_window_iff (a b : Instant) (e : Event) :
  overlaps_window a b e <-> in_window a b e.
Proof.
  unfold overlaps_window, in_window. split; intros (s & t & Hs & Ht & H).
  - exists s, t. rewrite <- starts_at_iff, <- ends_at_iff. auto.
  - exists s, t. rewrite starts_at_iff, ends_at_iff. auto.
Qed.

Lemma StronglySorted_lookup_lt {A} (R : relation A) (l : list A) :
  StronglySorted R l ->
  forall (i j : nat) x y, (i < j)%nat -> l !! i = Some x -> l !! j = Some y -> R x y.
Proof.
  induction 1 as [|x0 l Hs IH Hx]; intros i j x y Hij Hi Hj; [discriminate|].
  destruct j as [|j]; [lia|]. simpl in Hj. destruct i as [|i]; simpl in Hi.
  - injection Hi as <-. rewrite List.Forall_forall in Hx. apply Hx.
    apply list_elem_of_In. eapply list_elem_of_lookup_2. exact Hj.
  - apply (IH i j); [lia | exact Hi | exact Hj].
Qed.

Lemma sorted_is_ascending (l : list Event) :
  StronglySorted start_le l -> ascending_by_start l.
Proof.
  intros Hs i j e1 e2 s1 s2 Hij H1 H2 Hs1 Hs2.
  pose proof (StronglySorted_lookup_lt _ _ Hs i j e1 e2 Hij H1 H2) as Hle.
  unfold start_le, start_key in Hle.
  apply starts_at_iff in Hs1, Hs2. rewrite Hs1, Hs2 in Hle. exact Hle.
Qed.

Lemma count_occ_filter (f : Event -> bool) (l : list Event) (e : Event) :
  count_occ Event_eq_dec (List.filter f l) e =
  if f e then count_occ Event_eq_dec l e else 0%nat.
Proof.
  induction l as [|x l IH]; simpl; [now destruct (f e)|].
  destruct (f x) eqn:Hx; simpl; destruct (Event_eq_dec x e) as [->|Hne]; rewrite IH.
  - now rewrite Hx.
  - reflexivity.
  - now rewrite Hx.
  - reflexivity.
Qed.

(** C4.  With the gate open and the listing answering, [available] asks
    the calendar once -- for the window from now to one month from now,
    recurring events expanded, ordered by start time -- and answers 200 with
    exactly the slots of the calendar, the occurrences of its series among
    them and their masters not, that overlap the window and whose label
    holds the token case-insensitively: each of them as often as the
    calendar holds it, none starting after one that follows it.  A slot
    whose label fails the match is not in the answer.  Calendar and ledger
    are as before. *)
Theorem available_lists_the_open_slots
    (oneMonthAfter : Instant -> Instant) (req : Request) (w : World) :
  tokensSet w = true ->
  EventsList ∉ rejecting w ->
  let now := clock w in
  let w' := log (CallEventsList {| q_calendarId := CAREGIVER_CALENDAR_ID;
                                   timeMin := now;
                                   timeMax := oneMonthAfter now;
                                   singleEvents := true;
                                   orderBy := Some OrderByStartTime |}) w in
  exists answer,
    available oneMonthAfter req w = (Return (Json 200 (JsonEvents answer)), w')
    /\ (forall ev,
          In ev answer <->
          expanded_slot (calendar w) ev
          /\ overlaps_window now (oneMonthAfter now) ev
          /\ ci_substring AVAILABLE_TOKEN (or_empty (summary ev)))
    /\ (forall ev,
          In ev answer ->
          count_occ Event_eq_dec answer ev = times_held (calendar w) ev)
    /\ ascending_by_start answer
    /\ (forall ev, ~ ci_substring AVAILABLE_TOKEN (or_empty (summary ev)) -> ~ In ev answer)
    /\ (forall m occ o,
          In (Series m occ) (calendar w) -> In o occ ->
          overlaps_window now (oneMonthAfter now) o ->
          ci_substring AVAILABLE_TOKEN (or_empty (summary o)) ->
          In o answer)
    /\ same_stores w w'
    /\ trace w' = (trace w ++ [CallEventsList (available_query oneMonthAfter w)])%list.
Proof.
  intros Hauth Hlist. simpl.
  destruct (available_slots oneMonthAfter w) as [Hperm Hsorted]. simpl in Hperm, Hsorted.
  destruct (available_answer_members oneMonthAfter req w Hauth Hlist)
    as (answer & Heq & Hmem).
  rewrite (available_ok oneMonthAfter req w Hauth Hlist) in Heq.
  injection Heq as <-.
  assert (Hmem' : forall ev,
    In ev (List.filter (fun ev => marks_available (summary ev)) (window_events oneMonthAfter w)) <->
    expanded_slot (calendar w) ev
    /\ overlaps_window (clock w) (oneMonthAfter (clock w)) ev
    /\ ci_substring AVAILABLE_TOKEN (or_empty (summary ev))).
  { intros ev. rewrite Hmem, expanded_slot_iff, overlaps_window_iff. reflexivity. }
  eexists. split; [apply (available_ok oneMonthAfter req w Hauth Hlist)|].
  split; [exact Hmem'|]. split; [|split; [now apply sorted_is_ascending|]].
  - intros ev Hin.
    rewrite (Permutation_count_occ Event_eq_dec) in Hperm. rewrite Hperm.
    rewrite count_occ_filter, times_held_listed.
    apply Hmem in Hin as (_ & Hw & Hc).
    apply overlaps_iff in Hw. apply marks_available_iff in Hc. now rewrite Hw, Hc.
  - split; [|split; [|split; [apply same_stores_log | reflexivity]]].
    + intros ev Hno Hin. apply Hmem' in Hin. tauto.
    + intros m occ o Hs Ho Hwin Hlabel. apply Hmem'.
      split; [now apply slot_occurrence with (m := m) (occ := occ)|]. tauto.
Qed.

(** C10.  The test looks for the token anywhere in the label, inside a
    longer word as well: "UNAVAILABLE" and "not available" pass it.  A slot
    whose label passes is in the answer of [available] when the calendar
    lists it in the window, and [book] does not refuse it: it goes on to
    relabel it BOOKED. *)
Theorem token_inside_a_longer_word_counts
    (oneMonthAfter : Instant -> Instant) (req : Request) (w : World) (ev : Event)
    (pre mid post : string) :
  summary ev = Some (append pre (append mid post)) ->
  toUpperCase mid = AVAILABLE_TOKEN ->
  tokensSet w = true ->
  (marks_available (Some "UNAVAILABLE") = true /\ marks_available (Some "not available") = true)
  /\ marks_available (summary ev) = true
  /\ (EventsList ∉ rejecting w ->
      In ev (listed true (calendar w)) ->
      in_window (clock w) (oneMonthAfter (clock w)) ev ->
      exists answer,
        fst (available oneMonthAfter req w) = Return (Json 200 (JsonEvents answer))
        /\ In ev answer)
  /\ (EventsGet ∉ rejecting w ->
      List.find (has_id (params_eventId req)) (stored (calendar w)) = Some ev ->
      fst (book req w) <> Return NOT_AVAILABLE
      /\ In (CallEventsUpdate CAREGIVER_CALENDAR_ID (params_eventId req)
               (with_summary ev "BOOKED")) (trace (snd (book req w)))).
Proof.
  intros Hlabel Hmid Hauth.
  assert (Hci : ci_substring AVAILABLE_TOKEN (or_empty (summary ev))).
  { rewrite Hlabel. exists pre, mid, post. split; [reflexivity|]. rewrite Hmid. reflexivity. }
  assert (Hyes : marks_available (summary ev) = true) by now apply marks_available_iff.
  split; [split; reflexivity|]. split; [exact Hyes|]. split.
  - intros Hlist Hin Hwin.
    destruct (available_answer_members oneMonthAfter req w Hauth Hlist)
      as (answer & Heq & Hmem).
    exists answer. rewrite Heq. split; [reflexivity|]. apply Hmem. tauto.
  - intros Hget Hfound.
    destruct (decide (EventsUpdate ∈ rejecting w)) as [Hrej|Hupd].
    + rewrite (book_update_rejected req w Hauth Hget ev Hfound Hyes Hrej). simpl.
      split; [discriminate|]. rewrite !List.in_app_iff; simpl; tauto.
    + destruct (book_after_relabel req w ev Hauth Hget Hupd Hfound Hyes) as [_ [rest Htr]].
      rewrite Htr. split.
      * destruct (start ev) as [s|] eqn:Hs; [destruct (end_ ev) as [t|] eqn:Ht|].
        -- destruct (insert_accepted_or_rejected w (booking_data req s t)) as [Hins|Hins].
           ++ rewrite (book_accepted req w Hauth Hget ev Hfound Hupd s t Hs Ht Hyes Hins).
              discriminate.
           ++ rewrite (book_insert_rejected req w Hauth Hget ev Hfound Hupd s t Hs Ht Hyes Hins).
              discriminate.
        -- rewrite (book_no_bounds req w Hauth Hget ev Hfound Hupd Hyes (or_intror Ht)).
           discriminate.
        -- rewrite (book_no_bounds req w Hauth Hget ev Hfound Hupd Hyes (or_introl Hs)).
           discriminate.
      * simpl. rewrite !List.in_app_iff; simpl; tauto.
Qed.

(** ** The gate, route by route *)

Lemma mine_ignores_flag (req : Request) (w : World) (b : bool) :
  mine req (set_tokensSet b w) = (fst (mine req w), set_tokensSet b (snd (mine req w))).
Proof.
  unfold mine, appointment_findMany, call. eff_unfold.
  destruct (decide (AppointmentFindMany ∈ rejecting w)); reflexivity.
Qed.

Ltac decided :=
  match goal with
  | |- ?P => apply (@bool_decide_unpack P _); vm_compute; exact I
  end.

(** C8, as stated: each of the four handlers is gated.  [mine] is not: with
    the flag unset it queries the ledger and answers 200. *)
Lemma mine_is_not_gated :
  ~ (forall oneMonthAfter, gated (available oneMonthAfter)
                            /\ gated book /\ gated cancel /\ gated mine).
Proof.
  intros H. destruct (H sample_month) as (_ & _ & _ & Hmine).
  destruct (Hmine (request_for 2 "") (set_tokensSet false sample_world) eq_refl)
    as (resp & Heq & Hkind).
  vm_compute in Heq. injection Heq as <- Htrace. discriminate Hkind.
Qed.

(** C8, amended.  With the flag unset, the handlers of [available], [book]
    and [cancel] answer 400 "Google calendar is not authorized yet." --
    UpstreamUnavailable -- before any call to the calendar or the ledger:
    the world, trace included, is as before; called through the router by
    a request that passes the guard, the three routes answer the same after
    the guard's one lookup of the user.  [mine] has no such gate: it never
    reads the flag, and queries the ledger whether the flag is set or
    not. *)
Theorem calendar_routes_are_gated (oneMonthAfter : Instant -> Instant) :
  gated (available oneMonthAfter)
  /\ gated book
  /\ gated cancel
  /\ (forall req w b,
        mine req (set_tokensSet b w) = (fst (mine req w), set_tokensSet b (snd (mine req w))))
  /\ (forall req w,
        exists c, trace (snd (mine req w)) = (trace w ++ [c])%list /\ is_ledger_call c = true)
  /\ (forall jwt_verify authUrl route req w u,
        route = GET_available \/ route = POST_book \/ route = POST_cancel ->
        authenticates jwt_verify w req u ->
        tokensSet w = false ->
        router jwt_verify oneMonthAfter authUrl route req w
          = (Return NOT_AUTHORIZED, log (CallUserFindUnique (user_id u)) w)).
Proof.
  split; [|split; [|split; [|split; [|split]]]].
  - intros req w H. exists NOT_AUTHORIZED. split; [now apply available_gate|reflexivity].
  - intros req w H. exists NOT_AUTHORIZED. split; [now apply book_gate|reflexivity].
  - intros req w H. exists NOT_AUTHORIZED. split; [now apply cancel_gate|reflexivity].
  - apply mine_ignores_flag.
  - intros req w. unfold mine, appointment_findMany, call. eff_unfold.
    destruct (decide (AppointmentFindMany ∈ rejecting w)); simpl; eexists; split; reflexivity.
  - intros jwt_verify authUrl route req w u Hroute Hauth Hflag.
    rewrite (patient_route_behind_guard _ oneMonthAfter authUrl route _ _ _ Hauth).
    destruct Hroute as [-> | [-> | ->]]; simpl.
    + now apply available_gate.
    + now apply book_gate.
    + now apply cancel_gate.
Qed.

Lemma calendar_routes_are_gated_witness :
  exists resp,
    book (request_for 1 "evt-open") (set_tokensSet false sample_world)
      = (Return resp, set_tokensSet false sample_world)
    /\ error_kind resp = Some UpstreamUnavailable.
Proof.
  apply (proj1 (proj2 (calendar_routes_are_gated sample_month))). reflexivity.
Defined.

(** ** The patient of a request *)

(** The condition [cancel] puts on the rows, when the request carries a
    [userId] and when it does not. *)
Lemma cancel_where_matches (req : Request) (p : Z) (r : Appointment) :
  userId req = Some p ->
  row_matches (cancel_where req) r = true <->
  googleEventId r = Some (params_eventId req) /\ patientId r = Some p /\ status r = BOOKED.
Proof.
  intros Hp. unfold row_matches, cancel_where. simpl. rewrite Hp. simpl.
  rewrite !andb_true_iff, !bool_decide_eq_true. split.
  - intros [[H1 H2] H3]. injection H3 as H3. auto.
  - intros (H1 & H2 & H3). rewrite H3. auto.
Qed.

Lemma cancel_where_matches_no_userId (req : Request) (r : Appointment) :
  userId req = None ->
  row_matches (cancel_where req) r = true <->
  googleEventId r = Some (params_eventId req) /\ status r = BOOKED.
Proof.
  intros Hp. unfold row_matches, cancel_where. simpl. rewrite Hp. simpl.
  rewrite !andb_true_iff, !bool_decide_eq_true. split.
  - intros [[H1 _] H3]. injection H3 as H3. auto.
  - intros (H1 & H3). rewrite H3. auto.
Qed.

(** Behind the guard a handler sees the [userId] the request came in with:
    the guard sets [user] and nothing else. *)
Lemma guard_keeps_userId (jwt_verify : string -> option Z) (next : Request -> Eff Response)
    (req : Request) (w : World) (u : User) :
  answers next ->
  authenticates jwt_verify w req u ->
  exists req',
    authMiddleware jwt_verify req next w = next req' (log (CallUserFindUnique (user_id u)) w)
    /\ user req' = Some u
    /\ userId req' = userId req.
Proof.
  intros Hnext Hauth. exists (set_user req u).
  rewrite (authMiddleware_pass _ _ _ _ _ Hnext Hauth). auto.
Qed.

Lemma ana_authenticates (eventId : string) :
  authenticates sample_jwt sample_world (request_of_ana eventId) ana.
Proof.
  exists "Bearer token-ana". repeat split; try reflexivity; try discriminate.
  apply not_elem_of_nil.
Qed.

(** C1.  Ana, a stored patient, books the open slot through the route.  The
    slot is relabelled and one BOOKED row for it is created and returned,
    with its times taken from the slot -- and with no patient: the guard
    sets [req.user], the handler reads [req.userId]. *)
Theorem book_route_records_no_patient :
  let w := sample_world in
  let req := request_of_ana "evt-open" in
  authenticates sample_jwt w req ana
  /\ List.find (has_id "evt-open") (stored (calendar w)) = Some slot_open
  /\ marks_available (summary slot_open) = true
  /\ exists row w',
       router sample_jwt sample_month "" POST_book req w
         = (Return (Json 200 (JsonAppointment row)), w')
       /\ List.find (has_id "evt-open") (stored (calendar w'))
          = Some (with_summary slot_open "BOOKED")
       /\ appointments w' = (appointments w ++ [row])%list
       /\ status row = BOOKED
       /\ googleEventId row = Some "evt-open"
       /\ (startTime row, endTime row) = (7200000, 9000000)
       /\ patientId row = None
       /\ patientId row <> Some (user_id ana).
Proof.
  simpl. split; [apply ana_authenticates|]. split; [reflexivity|]. split; [reflexivity|].
  eexists. eexists. split; [vm_compute; reflexivity|].
  repeat split. discriminate.
Qed.

(** C3.  Ana cancels, through the route, the slot that Ben has booked.  The
    slot is relabelled AVAILABLE and the route answers success -- and Ben's
    BOOKED row is CANCELLED: with [req.userId] undefined the update puts no
    condition on the patient. *)
Theorem cancel_route_cancels_rows_of_others :
  let w := sample_world in
  let req := request_of_ana "evt-taken" in
  authenticates sample_jwt w req ana
  /\ In row_of_ben (appointments w)
  /\ patientId row_of_ben = Some (user_id ben)
  /\ user_id ben <> user_id ana
  /\ exists w',
       router sample_jwt sample_month "" POST_cancel req w = (Return CANCELLED_OK, w')
       /\ List.find (has_id "evt-taken") (stored (calendar w'))
          = Some (with_summary slot_taken "AVAILABLE")
       /\ appointments w' = [set_status CANCELLED row_of_ben].
Proof.
  simpl. split; [apply ana_authenticates|]. split; [left; reflexivity|].
  split; [reflexivity|]. split; [discriminate|].
  eexists. split; [vm_compute; reflexivity|]. split; reflexivity.
Qed.

(** With [userId] set to a patient, the handler of [cancel] cancels the
    BOOKED rows of that patient for that slot and no other row. *)
Lemma cancel_handler_rows (req : Request) (w : World) (event : Event) (p : Z) :
  tokensSet w = true ->
  EventsGet ∉ rejecting w ->
  EventsUpdate ∉ rejecting w ->
  AppointmentUpdateMany ∉ rejecting w ->
  List.find (has_id (params_eventId req)) (stored (calendar w)) = Some event ->
  userId req = Some p ->
  fst (cancel req w) = Return CANCELLED_OK
  /\ appointments (snd (cancel req w)) =
       List.map
         (fun r =>
            if bool_decide (googleEventId r = Some (params_eventId req)
                            /\ patientId r = Some p /\ status r = BOOKED)
            then set_status CANCELLED r else r)
         (appointments w).
Proof.
  intros Hauth Hget Hupd Hledger Hfound Hp.
  rewrite (cancel_done req w Hauth Hget event Hfound Hupd Hledger). simpl.
  split; [reflexivity|]. apply List.map_ext. intros r. unfold update_row.
  pose proof (cancel_where_matches req p r Hp) as Hiff.
  destruct (row_matches (cancel_where req) r).
  - rewrite bool_decide_eq_true_2; [reflexivity|]. now apply Hiff.
  - rewrite bool_decide_eq_false_2; [reflexivity|]. intros H. apply Hiff in H. discriminate.
Qed.

(** ** The theorems at work on the sample data *)

Lemma absent_slot_is_answered_as_a_failure_witness :
  book (request_for 1 "evt-missing") sample_world
    = (Return BOOK_FAILED, log (CallEventsGet CAREGIVER_CALENDAR_ID "evt-missing") sample_world)
  /\ cancel (request_for 1 "evt-missing") sample_world
    = (Return CANCEL_FAILED, log (CallEventsGet CAREGIVER_CALENDAR_ID "evt-missing") sample_world)
  /\ error_kind BOOK_FAILED <> Some NotFound
  /\ error_kind CANCEL_FAILED <> Some NotFound.
Proof.
  assert (H1 : tokensSet sample_world = true) by reflexivity.
  assert (H2 : EventsGet ∉ rejecting sample_world) by apply not_elem_of_nil.
  assert (H3 : slot_absent (params_eventId (request_for 1 "evt-missing")) (calendar sample_world)).
  { intros e He. vm_compute in He. intuition (subst; discriminate). }
  pose proof (absent_slot_is_answered_as_a_failure
                (request_for 1 "evt-missing") sample_world H1 H2 H3) as H.
  simpl in H. destruct H as (Hb & Hc & _).
  split; [exact Hb|]. split; [exact Hc|]. split; discriminate.
Defined.

(** A label that spells the token with a dotless i passes the test, and the
    slot that carries it is booked. *)
Lemma dotless_label_is_booked :
  marks_available (summary slot_dotless) = true
  /\ exists row w',
       book (request_for 1 "evt-dotless") dotless_world
         = (Return (Json 200 (JsonAppointment row)), w')
       /\ googleEventId row = Some "evt-dotless".
Proof.
  split; [reflexivity|]. eexists. eexists. split; [vm_compute; reflexivity | reflexivity].
Qed.

Lemma unavailable_slot_is_conflict_witness :
  book (request_for 1 "evt-taken") sample_world
    = (Return NOT_AVAILABLE, log (CallEventsGet CAREGIVER_CALENDAR_ID "evt-taken") sample_world).
Proof.
  refine (proj1 (unavailable_slot_is_conflict
                   (request_for 1 "evt-taken") sample_world slot_taken _ _ _ _)).
  - reflexivity.
  - apply not_elem_of_nil.
  - reflexivity.
  - apply marks_available_false_iff. reflexivity.
Defined.

Lemma failed_insert_leaves_slot_booked_witness :
  fst (book (request_for 1 "evt-open") ledger_down_world) = Return BOOK_FAILED
  /\ List.find (has_id "evt-open")
       (stored (calendar (snd (book (request_for 1 "evt-open") ledger_down_world))))
     = Some (with_summary slot_open "BOOKED")
  /\ appointments (snd (book (request_for 1 "evt-open") ledger_down_world)) = [row_of_ben].
Proof.
  assert (Hrej : insert_rejected ledger_down_world
                   (booking_data (request_for 1 "evt-open")
                      {| date := None; dateTime := Some 7200000; timeZone := Some "UTC" |}
                      {| date := None; dateTime := Some 9000000; timeZone := Some "UTC" |})).
  { left. decided. }
  pose proof (failed_insert_leaves_slot_booked
                (request_for 1 "evt-open") ledger_down_world slot_open _ _
                eq_refl ltac:(decided) ltac:(decided) eq_refl eq_refl eq_refl eq_refl Hrej) as H.
  simpl in H. destruct H as (H1 & _ & H2 & H3 & _). auto.
Defined.

Lemma relabel_round_trips_the_slot_witness :
  exists r,
    update_sent [] (trace (snd (book (request_for 1 "evt-open") sample_world))) = Some r
    /\ summary r = Some "BOOKED"
    /\ same_but_summary slot_open r.
Proof.
  destruct (relabel_round_trips_the_slot (request_for 1 "evt-open") sample_world slot_open
              eq_refl ltac:(apply not_elem_of_nil) eq_refl) as [Hbook _].
  destruct (Hbook eq_refl) as (r & H1 & _ & H2 & H3 & _).
  exists r. auto.
Defined.

Lemma available_lists_the_open_slots_witness :
  exists answer,
    fst (available sample_month (request_for 1 "") dotless_world)
      = Return (Json 200 (JsonEvents answer))
    /\ In slot_open answer /\ In slot_blocked answer /\ In slot_dotless answer
    /\ In weekly_1 answer /\ In weekly_2 answer
    /\ ~ In weekly answer /\ ~ In slot_taken answer
    /\ count_occ Event_eq_dec answer slot_open = 1%nat
    /\ ascending_by_start answer.
Proof.
  destruct (available_lists_the_open_slots sample_month (request_for 1 "") dotless_world
              eq_refl ltac:(apply not_elem_of_nil))
    as (answer & Heq & Hmem & Hcount & Hsorted & Hout & _).
  assert (Hin : forall ev,
    ev ∈ listed true (calendar dotless_world) ->
    overlaps (clock dotless_world) (sample_month (clock dotless_world)) ev = true ->
    marks_available (summary ev) = true -> In ev answer).
  { intros ev H1 H2 H3. apply Hmem. split; [|split].
    - now apply expanded_slot_iff, list_elem_of_In.
    - now apply overlaps_window_iff, overlaps_iff.
    - now apply marks_available_iff. }
  exists answer. rewrite Heq. split; [reflexivity|].
  assert (Hopen : In slot_open answer) by (apply Hin; [decided | reflexivity | reflexivity]).
  split; [exact Hopen|].
  split; [apply Hin; [decided | reflexivity | reflexivity]|].
  split; [apply Hin; [decided | reflexivity | reflexivity]|].
  split; [apply Hin; [decided | reflexivity | reflexivity]|].
  split; [apply Hin; [decided | reflexivity | reflexivity]|].
  split; [|split; [|split; [|exact Hsorted]]].
  - intros H. apply Hmem in H as (H & _).
    apply expanded_slot_iff, list_elem_of_In in H. revert H. decided.
  - apply Hout. apply marks_available_false_iff. reflexivity.
  - rewrite (Hcount _ Hopen). reflexivity.
Defined.

Lemma token_inside_a_longer_word_counts_witness :
  marks_available (summary slot_blocked) = true
  /\ fst (book (request_for 1 "evt-blocked") sample_world) <> Return NOT_AVAILABLE.
Proof.
  destruct (token_inside_a_longer_word_counts sample_month
              (request_for 1 "evt-blocked") sample_world slot_blocked "UN" "AVAILABLE" ""
              eq_refl eq_refl eq_refl) as (_ & Hyes & _ & Hbook).
  split; [exact Hyes|]. apply Hbook; [apply not_elem_of_nil | reflexivity].
Defined.

Lemma ledger_rows_only_ever_cancelled_witness :
  keys_below_seq
    (snd (router sample_jwt sample_month "" POST_cancel (request_of_ana "evt-taken") sample_world))
  /\ exists added,
       appointments
         (snd (router sample_jwt sample_month "" POST_book (request_of_ana "evt-open") sample_world))
       = (appointments sample_world ++ added)%list.
Proof.
  split.
  - apply (ledger_rows_only_ever_cancelled sample_jwt sample_month "" POST_cancel
             (request_of_ana "evt-taken") sample_world).
    repeat constructor.
  - destruct (ledger_rows_only_ever_cancelled sample_jwt sample_month "" POST_book
                (request_of_ana "evt-open") sample_world) as (_ & Hgrow & _).
    destruct Hgrow as (added & Hadd & _); [discriminate|]. exists added. exact Hadd.
Defined.

(** * Further properties of the routes *)

(** ** The guard, answer by answer *)

Lemma guard_no_header (jwt_verify : string -> option Z) (next : Request -> Eff Response)
    (req : Request) (w : World) :
  headers_authorization req = None \/ headers_authorization req = Some "" ->
  authMiddleware jwt_verify req next w = (Return NO_TOKEN, w).
Proof. intros [H|H]; unfold authMiddleware; rewrite H; reflexivity. Qed.

Lemma guard_bad_token (jwt_verify : string -> option Z) (next : Request -> Eff Response)
    (req : Request) (w : World) (h : string) :
  headers_authorization req = Some h ->
  h <> "" ->
  jwt_verify (bearer_token h) = None ->
  authMiddleware jwt_verify req next w = (Return INVALID_TOKEN, w).
Proof.
  intros Hh Hne Hjwt. unfold authMiddleware. rewrite Hh.
  destruct (String.eqb_spec h ""); [contradiction|].
  unfold try_catch, bind at 1. rewrite Hjwt. reflexivity.
Qed.

Lemma guard_lookup_rejected (jwt_verify : string -> option Z) (next : Request -> Eff Response)
    (req : Request) (w : World) (h : string) (id : Z) :
  headers_authorization req = Some h ->
  h <> "" ->
  jwt_verify (bearer_token h) = Some id ->
  UserFindUnique ∈ rejecting w ->
  authMiddleware jwt_verify req next w = (Return INVALID_TOKEN, log (CallUserFindUnique id) w).
Proof.
  intros Hh Hne Hjwt Hrej. unfold authMiddleware. rewrite Hh.
  destruct (String.eqb_spec h ""); [contradiction|].
  unfold try_catch, bind at 1. rewrite Hjwt. unfold ret at 1.
  unfold bind at 1, user_findUnique, bind at 1. rewrite (call_rejected _ _ _ Hrej).
  reflexivity.
Qed.

Lemma guard_no_user (jwt_verify : string -> option Z) (next : Request -> Eff Response)
    (req : Request) (w : World) (h : string) (id : Z) :
  headers_authorization req = Some h ->
  h <> "" ->
  jwt_verify (bearer_token h) = Some id ->
  UserFindUnique ∉ rejecting w ->
  List.find (fun u => user_id u =? id) (users w) = None ->
  authMiddleware jwt_verify req next w = (Return USER_NOT_FOUND, log (CallUserFindUnique id) w).
Proof.
  intros Hh Hne Hjwt Hcap Hfind. unfold authMiddleware. rewrite Hh.
  destruct (String.eqb_spec h ""); [contradiction|].
  unfold try_catch, bind at 1. rewrite Hjwt. unfold ret at 1.
  unfold bind at 1, user_findUnique, bind at 1. rewrite (call_ok _ _ _ Hcap).
  eff_unfold. rewrite Hfind. reflexivity.
Qed.

(** X1.  A request with no [Authorization] header, or an empty one, is
    answered 401 "No token provided": the token is not verified, the
    database is not asked, the handler behind the guard is not run. *)
Theorem guard_rejects_missing_header
    (jwt_verify : string -> option Z) (next : Request -> Eff Response)
    (req : Request) (w : World) :
  headers_authorization req = None \/ headers_authorization req = Some "" ->
  authMiddleware jwt_verify req next w = (Return NO_TOKEN, w)
  /\ error_kind NO_TOKEN = Some Unauthenticated.
Proof. intros H. split; [now apply guard_no_header | reflexivity]. Qed.

Lemma guard_rejects_missing_header_witness :
  router sample_jwt sample_month "" POST_book (request_with_header None "evt-open") sample_world
    = (Return NO_TOKEN, sample_world)
  /\ router sample_jwt sample_month "" GET_mine (request_with_header (Some "") "") sample_world
    = (Return NO_TOKEN, sample_world).
Proof.
  split.
  - apply (guard_rejects_missing_header sample_jwt book
             (request_with_header None "evt-open") sample_world). left. reflexivity.
  - apply (guard_rejects_missing_header sample_jwt mine
             (request_with_header (Some "") "") sample_world). right. reflexivity.
Defined.

(** X2.  A token that does not verify is answered 401 "Invalid token"
    before any lookup: no call is made and the world is as it was. *)
Theorem guard_rejects_bad_token_before_lookup
    (jwt_verify : string -> option Z) (next : Request -> Eff Response)
    (req : Request) (w : World) (h : string) :
  headers_authorization req = Some h ->
  h <> "" ->
  jwt_verify (bearer_token h) = None ->
  authMiddleware jwt_verify req next w = (Return INVALID_TOKEN, w)
  /\ error_kind INVALID_TOKEN = Some Unauthenticated.
Proof. intros Hh Hne Hjwt. split; [now apply guard_bad_token with h | reflexivity]. Qed.

Lemma guard_rejects_bad_token_before_lookup_witness :
  router sample_jwt sample_month "" POST_cancel
    (request_with_header (Some "Bearer forged") "evt-taken") sample_world
  = (Return INVALID_TOKEN, sample_world).
Proof.
  apply (guard_rejects_bad_token_before_lookup sample_jwt cancel
           (request_with_header (Some "Bearer forged") "evt-taken") sample_world
           "Bearer forged"); [reflexivity | discriminate | reflexivity].
Defined.

(** X3.  A token that verifies to an id no stored user has is answered 401
    "User not found", after the one lookup; the handler is not run. *)
Theorem guard_rejects_unknown_user
    (jwt_verify : string -> option Z) (next : Request -> Eff Response)
    (req : Request) (w : World) (h : string) (id : Z) :
  headers_authorization req = Some h ->
  h <> "" ->
  jwt_verify (bearer_token h) = Some id ->
  UserFindUnique ∉ rejecting w ->
  (forall u, In u (users w) -> user_id u <> id) ->
  authMiddleware jwt_verify req next w = (Return USER_NOT_FOUND, log (CallUserFindUnique id) w)
  /\ error_kind USER_NOT_FOUND = Some Unauthenticated.
Proof.
  intros Hh Hne Hjwt Hcap Hnone. split; [|reflexivity].
  apply guard_no_user with h; try assumption.
  destruct (List.find _ _) as [u|] eqn:Hf; [|reflexivity].
  apply List.find_some in Hf as [Hin Hid]. apply Z.eqb_eq in Hid.
  now destruct (Hnone u Hin).
Qed.

Lemma guard_rejects_unknown_user_witness :
  authMiddleware (fun _ => Some 9) (request_with_header (Some "Bearer any") "evt-open") book
    sample_world
  = (Return USER_NOT_FOUND, log (CallUserFindUnique 9) sample_world).
Proof.
  apply (guard_rejects_unknown_user (fun _ => Some 9) book
           (request_with_header (Some "Bearer any") "evt-open") sample_world "Bearer any" 9);
    [reflexivity | discriminate | reflexivity | apply not_elem_of_nil |].
  intros u Hu. vm_compute in Hu. intuition (subst; discriminate).
Defined.

(** X4.  When the lookup of the user rejects, a token that verifies is
    answered 401 "Invalid token" all the same: the failure of the database
    is reported as a failure of the token. *)
Theorem guard_reports_lookup_failure_as_invalid_token
    (jwt_verify : string -> option Z) (next : Request -> Eff Response)
    (req : Request) (w : World) (h : string) (id : Z) :
  headers_authorization req = Some h ->
  h <> "" ->
  jwt_verify (bearer_token h) = Some id ->
  UserFindUnique ∈ rejecting w ->
  authMiddleware jwt_verify req next w = (Return INVALID_TOKEN, log (CallUserFindUnique id) w)
  /\ fst (authMiddleware jwt_verify req next w)
     = fst (authMiddleware (fun _ => None) req next w).
Proof.
  intros Hh Hne Hjwt Hrej.
  rewrite (guard_lookup_rejected _ next _ _ _ _ Hh Hne Hjwt Hrej).
  rewrite (guard_bad_token (fun _ => None) next _ _ _ Hh Hne eq_refl). auto.
Qed.

Lemma guard_reports_lookup_failure_as_invalid_token_witness :
  authMiddleware sample_jwt (request_of_ana "evt-open") book (sample_world_without UserFindUnique)
  = (Return INVALID_TOKEN, log (CallUserFindUnique 1) (sample_world_without UserFindUnique)).
Proof.
  apply (guard_reports_lookup_failure_as_invalid_token sample_jwt book
           (request_of_ana "evt-open") (sample_world_without UserFindUnique)
           "Bearer token-ana" 1); [reflexivity | discriminate | reflexivity | decided].
Defined.

(** X5.  The handler behind the guard runs for authenticated requests
    only.  A request that does not authenticate -- no usable header, a token
    that does not verify, a lookup that rejects or finds no user -- is
    answered 401 whatever the handler is, after at most the one lookup, with
    flag, calendar, ledger and users as they were. *)
Theorem guard_lets_no_one_else_through
    (jwt_verify : string -> option Z) (next : Request -> Eff Response)
    (req : Request) (w : World) :
  ~ (exists u, authenticates jwt_verify w req u) ->
  exists resp w',
    authMiddleware jwt_verify req next w = (Return resp, w')
    /\ error_kind resp = Some Unauthenticated
    /\ (forall next', authMiddleware jwt_verify req next' w = (Return resp, w'))
    /\ (w' = w \/ exists id, w' = log (CallUserFindUnique id) w)
    /\ same_stores w w'.
Proof.
  intros Hnot.
  destruct (headers_authorization req) as [h|] eqn:Hh.
  2:{ exists NO_TOKEN, w. split; [apply guard_no_header; auto|].
      split; [reflexivity|]. split; [intros; apply guard_no_header; auto|].
      split; [auto|repeat split]. }
  destruct (String.eqb_spec h "") as [->|Hne].
  { exists NO_TOKEN, w. split; [apply guard_no_header; auto|].
    split; [reflexivity|]. split; [intros; apply guard_no_header; auto|].
    split; [auto|repeat split]. }
  destruct (jwt_verify (bearer_token h)) as [id|] eqn:Hjwt.
  2:{ exists INVALID_TOKEN, w. split; [now apply guard_bad_token with h|].
      split; [reflexivity|]. split; [intros; now apply guard_bad_token with h|].
      split; [auto|repeat split]. }
  destruct (decide (UserFindUnique ∈ rejecting w)) as [Hrej|Hcap].
  { exists INVALID_TOKEN, (log (CallUserFindUnique id) w).
    split; [now apply guard_lookup_rejected with h|].
    split; [reflexivity|]. split; [intros; now apply guard_lookup_rejected with h|].
    split; [eauto|repeat split]. }
  destruct (List.find (fun u => user_id u =? id) (users w)) as [u|] eqn:Hfind.
  - exfalso. apply Hnot. exists u.
    pose proof (List.find_some _ _ Hfind) as [_ Hid]. apply Z.eqb_eq in Hid. subst id.
    exists h. auto.
  - exists USER_NOT_FOUND, (log (CallUserFindUnique id) w).
    split; [now apply guard_no_user with h|].
    split; [reflexivity|]. split; [intros; now apply guard_no_user with h|].
    split; [eauto|repeat split].
Qed.

Lemma guard_lets_no_one_else_through_witness :
  exists resp w',
    authMiddleware sample_jwt (request_with_header (Some "token-eve") "evt-taken") cancel
      sample_world = (Return resp, w')
    /\ error_kind resp = Some Unauthenticated
    /\ same_stores sample_world w'.
Proof.
  destruct (guard_lets_no_one_else_through sample_jwt cancel
              (request_with_header (Some "token-eve") "evt-taken") sample_world)
    as (resp & w' & H1 & H2 & _ & _ & H3).
  - intros (u & h & Hh & _ & Hjwt & _). injection Hh as <-. discriminate Hjwt.
  - exists resp, w'. auto.
Defined.

(** *** The token of a header *)

Lemma startsWith_append (t s : string) : startsWith (append t s) t = true.
Proof. apply startsWith_iff. exists s. reflexivity. Qed.

Lemma substring_from_append (t s : string) :
  substring_from (String.length t) (append t s) = s.
Proof. induction t as [|c t IH]; simpl; [destruct s; reflexivity | exact IH]. Qed.

(** X6.  The word "Bearer" is optional: a header that is the bare token
    and the header "Bearer " followed by that token name the same token, so
    the one passes the guard, as the same user, exactly when the other
    does. *)
Theorem bearer_prefix_is_optional
    (jwt_verify : string -> option Z) (w : World) (req1 req2 : Request) (t : string) (u : User) :
  t <> "" ->
  startsWith t "Bearer " = false ->
  headers_authorization req1 = Some (append "Bearer " t) ->
  headers_authorization req2 = Some t ->
  bearer_token (append "Bearer " t) = t
  /\ bearer_token t = t
  /\ (authenticates jwt_verify w req1 u <-> authenticates jwt_verify w req2 u).
Proof.
  intros Hne Hno H1 H2.
  assert (Hb1 : bearer_token (append "Bearer " t) = t).
  { unfold bearer_token. rewrite startsWith_append.
    apply (substring_from_append "Bearer " t). }
  assert (Hb2 : bearer_token t = t) by (unfold bearer_token; now rewrite Hno).
  split; [exact Hb1|]. split; [exact Hb2|]. unfold authenticates. split.
  - intros (h & Hh & _ & Hjwt & Hrest).
    assert (h = append "Bearer " t) as -> by congruence.
    exists t. rewrite Hb1 in Hjwt. rewrite Hb2. auto.
  - intros (h & Hh & _ & Hjwt & Hrest).
    assert (h = t) as -> by congruence.
    exists (append "Bearer " t). rewrite Hb2 in Hjwt. rewrite Hb1.
    split; [exact H1|]. split; [discriminate|]. auto.
Qed.

Lemma bearer_prefix_is_optional_witness :
  authenticates sample_jwt sample_world (request_with_header (Some "Bearer token-ben") "") ben
  <-> authenticates sample_jwt sample_world (request_with_header (Some "token-ben") "") ben.
Proof.
  apply (bearer_prefix_is_optional sample_jwt sample_world
           (request_with_header (Some "Bearer token-ben") "")
           (request_with_header (Some "token-ben") "") "token-ben" ben);
    [discriminate | reflexivity | reflexivity | reflexivity].
Defined.

(** ** Connecting the calendar *)

Lemma redirect_no_code (req : Request) (w : World) :
  query_code req = None \/ query_code req = Some "" ->
  redirect req w = (Return NO_CODE, w).
Proof. intros [H|H]; unfold redirect; rewrite H; reflexivity. Qed.

Lemma redirect_exchanged (req : Request) (w : World) (code : string) :
  query_code req = Some code ->
  code <> "" ->
  OAuthGetToken ∉ rejecting w ->
  redirect req w = (Return (Redirect "/"), set_tokensSet true (log (CallOAuthGetToken code) w)).
Proof.
  intros Hc Hne Hcap. unfold redirect. rewrite Hc.
  destruct (String.eqb_spec code ""); [contradiction|].
  unfold try_catch, bind at 1, oauth_getToken. rewrite (call_ok _ _ _ Hcap). reflexivity.
Qed.

Lemma redirect_exchange_rejected (req : Request) (w : World) (code : string) :
  query_code req = Some code ->
  code <> "" ->
  OAuthGetToken ∈ rejecting w ->
  redirect req w = (Return AUTHORIZE_FAILED, log (CallOAuthGetToken code) w).
Proof.
  intros Hc Hne Hcap. unfold redirect. rewrite Hc.
  destruct (String.eqb_spec code ""); [contradiction|].
  unfold try_catch, bind at 1, oauth_getToken. rewrite (call_rejected _ _ _ Hcap). reflexivity.
Qed.

(** X7.  [redirect] without a [code] in the query, or with an empty one,
    answers 400 "No ?code provided from Google": no token is requested and
    the flag stays as it is. *)
Theorem redirect_without_code_changes_nothing (req : Request) (w : World) :
  query_code req = None \/ query_code req = Some "" ->
  redirect req w = (Return NO_CODE, w).
Proof. apply redirect_no_code. Qed.

Lemma redirect_without_code_changes_nothing_witness :
  router sample_jwt sample_month "" GET_redirect (request_with_code None)
    (set_tokensSet false sample_world)
  = (Return NO_CODE, set_tokensSet false sample_world).
Proof.
  apply (redirect_without_code_changes_nothing (request_with_code None)
           (set_tokensSet false sample_world)). left. reflexivity.
Defined.

(** X8.  When the exchange of the code fails, [redirect] answers 500
    "Failed to authorize Google Calendar." and does not touch the flag: a
    calendar that was not connected stays unconnected, one that was
    connected stays connected. *)
Theorem failed_exchange_leaves_the_flag (req : Request) (w : World) (code : string) :
  query_code req = Some code ->
  code <> "" ->
  OAuthGetToken ∈ rejecting w ->
  let w' := snd (redirect req w) in
  fst (redirect req w) = Return AUTHORIZE_FAILED
  /\ tokensSet w' = tokensSet w
  /\ same_stores w w'
  /\ trace w' = (trace w ++ [CallOAuthGetToken code])%list.
Proof.
  intros Hc Hne Hrej. simpl. rewrite (redirect_exchange_rejected _ _ _ Hc Hne Hrej).
  repeat split.
Qed.

Lemma failed_exchange_leaves_the_flag_witness :
  fst (redirect (request_with_code (Some "4/0Axyz"))
         (set_tokensSet false (sample_world_without OAuthGetToken)))
  = Return AUTHORIZE_FAILED
  /\ tokensSet (snd (redirect (request_with_code (Some "4/0Axyz"))
                       (set_tokensSet false (sample_world_without OAuthGetToken)))) = false.
Proof.
  destruct (failed_exchange_leaves_the_flag (request_with_code (Some "4/0Axyz"))
              (set_tokensSet false (sample_world_without OAuthGetToken)) "4/0Axyz"
              eq_refl ltac:(discriminate) ltac:(decided)) as (H1 & H2 & _).
  split; [exact H1 | exact H2].
Defined.

(** The three calendar routes past the gate: with the flag set, none of
    them gives the answer of the gate. *)
Lemma available_past_gate (oneMonthAfter : Instant -> Instant) (req : Request) (w : World) :
  tokensSet w = true ->
  fst (available oneMonthAfter req w) <> Return NOT_AUTHORIZED.
Proof.
  intros Hauth. destruct (decide (EventsList ∈ rejecting w)) as [Hrej|Hok].
  - rewrite (available_list_rejected _ _ _ Hauth Hrej). discriminate.
  - rewrite (available_ok _ _ _ Hauth Hok). discriminate.
Qed.

(** ** Past the gate *)

Lemma book_past_gate (req : Request) (w : World) :
  tokensSet w = true -> fst (book req w) <> Return NOT_AUTHORIZED.
Proof.
  intros Hauth.
  destruct (book_cases req w)
    as [[Hf _]|[H|[H|[(e&_&H)|[(e&_&H)|[(e&s&t&_&H)|(e&s&t&_&H)]]]]]];
    [congruence| rewrite H; discriminate ..].
Qed.

Lemma cancel_past_gate (req : Request) (w : World) :
  tokensSet w = true -> fst (cancel req w) <> Return NOT_AUTHORIZED.
Proof.
  intros Hauth.
  destruct (cancel_cases req w) as [[Hf _]|[H|[(e&_&H)|[(e&_&H)|(e&_&H)]]]];
    [congruence| rewrite H; discriminate ..].
Qed.

(** X9.  When the exchange of the code succeeds, [redirect] sets the flag
    and sends the browser to "/"; calendar, ledger and users are as they
    were.  From then on none of the three calendar routes gives the answer
    of the gate. *)
Theorem successful_exchange_opens_the_gate
    (oneMonthAfter : Instant -> Instant) (req : Request) (w : World) (code : string) :
  query_code req = Some code ->
  code <> "" ->
  OAuthGetToken ∉ rejecting w ->
  let w' := snd (redirect req w) in
  fst (redirect req w) = Return (Redirect "/")
  /\ tokensSet w' = true
  /\ tables w' = tables w
  /\ trace w' = (trace w ++ [CallOAuthGetToken code])%list
  /\ (forall r,
        fst (available oneMonthAfter r w') <> Return NOT_AUTHORIZED
        /\ fst (book r w') <> Return NOT_AUTHORIZED
        /\ fst (cancel r w') <> Return NOT_AUTHORIZED).
Proof.
  intros Hc Hne Hcap. simpl. rewrite (redirect_exchanged _ _ _ Hc Hne Hcap). simpl.
  repeat split.
  - now apply available_past_gate.
  - now apply book_past_gate.
  - now apply cancel_past_gate.
Qed.

Lemma successful_exchange_opens_the_gate_witness :
  fst (book (request_for 1 "evt-open") (set_tokensSet false sample_world)) = Return NOT_AUTHORIZED
  /\ fst (book (request_for 1 "evt-open")
            (snd (redirect (request_with_code (Some "4/0Axyz"))
                    (set_tokensSet false sample_world))))
     <> Return NOT_AUTHORIZED.
Proof.
  split; [reflexivity|].
  apply (successful_exchange_opens_the_gate sample_month (request_with_code (Some "4/0Axyz"))
           (set_tokensSet false sample_world) "4/0Axyz");
    [reflexivity | discriminate | apply not_elem_of_nil].
Defined.

(** ** What [book] writes and what it reports *)



(** An insert turned down for its foreign key: the rows are as they were,
    the value of the sequence is spent and the next row gets the one after. *)
Lemma rejected_insert_spends_a_key :
  let w1 := snd (book (request_for 9 "evt-open") sample_world) in
  fst (book (request_for 9 "evt-open") sample_world) = Return BOOK_FAILED
  /\ appointments w1 = appointments sample_world
  /\ appointment_seq sample_world = 2
  /\ appointment_seq w1 = 3
  /\ exists row w2,
       book (request_for 2 "evt-blocked") w1 = (Return (Json 200 (JsonAppointment row)), w2)
       /\ appt_id row = 3.
Proof.
  simpl. repeat split. eexists. eexists. split; [vm_compute; reflexivity | reflexivity].
Qed.

(** X11.  With every capability answering, [book] on an available slot
    with bounds inserts and returns a row whose times are those of the
    slot: for each bound the date-time when the slot carries one, otherwise
    midnight UTC of its date; the slot is stored under the label BOOKED.  The
    patient recorded is the [userId] of the request, which must be a stored
    user if it is set. *)
Theorem book_takes_the_times_of_the_slot
    (req : Request) (w : World) (event : Event) (s t : EventDateTime) (ts te : Instant) :
  tokensSet w = true ->
  EventsGet ∉ rejecting w ->
  EventsUpdate ∉ rejecting w ->
  AppointmentCreate ∉ rejecting w ->
  List.find (has_id (params_eventId req)) (stored (calendar w)) = Some event ->
  marks_available (summary event) = true ->
  start event = Some s ->
  end_ event = Some t ->
  new_Date (dateTime_or_date s) = Some ts ->
  new_Date (dateTime_or_date t) = Some te ->
  (forall p, userId req = Some p -> user_exists (users w) p = true) ->
  let w' := snd (book req w) in
  let row := {| appt_id := appointment_seq w; startTime := ts; endTime := te;
                status := BOOKED; googleEventId := Some (params_eventId req);
                patientId := userId req; createdAt := clock w |} in
  book req w = (Return (Json 200 (JsonAppointment row)), w')
  /\ appointments w' = (appointments w ++ [row])%list
  /\ List.find (has_id (params_eventId req)) (stored (calendar w'))
     = Some (with_summary event "BOOKED")
  /\ (forall ms, dateTime s = Some ms -> ts = ms)
  /\ (forall d, dateTime s = None -> date s = Some d -> ts = d * MS_PER_DAY)
  /\ (forall ms, dateTime t = Some ms -> te = ms)
  /\ (forall d, dateTime t = None -> date t = Some d -> te = d * MS_PER_DAY).
Proof.
  intros Hauth Hget Hupd Hcreate Hfound Hyes Hs Ht Hts Hte Hfk. simpl.
  assert (Hins : insert_accepted w (booking_data req s t)).
  { unfold insert_accepted, booking_data; simpl. rewrite Hts, Hte. eauto. }
  rewrite (book_accepted req w Hauth Hget event Hfound Hupd s t Hs Ht Hyes Hins).
  unfold created_row, booking_data; simpl. rewrite Hts, Hte. simpl.
  split; [reflexivity|]. split; [reflexivity|].
  split; [apply (after_update_stored _ _ _ _ Hfound)|].
  unfold dateTime_or_date in Hts, Hte.
  repeat split.
  - intros ms H. rewrite H in Hts. simpl in Hts. congruence.
  - intros d H1 H2. rewrite H1, H2 in Hts. simpl in Hts. congruence.
  - intros ms H. rewrite H in Hte. simpl in Hte. congruence.
  - intros d H1 H2. rewrite H1, H2 in Hte. simpl in Hte. congruence.
Qed.

Lemma book_takes_the_times_of_the_slot_witness :
  exists w',
    book (request_for 2 "evt-blocked") sample_world =
      (Return (Json 200 (JsonAppointment
         {| appt_id := 2; startTime := 86400000; endTime := 172800000; status := BOOKED;
            googleEventId := Some "evt-blocked"; patientId := Some 2; createdAt := 600 |})),
       w').
Proof.
  eexists.
  refine (proj1 (book_takes_the_times_of_the_slot (request_for 2 "evt-blocked") sample_world
                   slot_blocked
                   {| date := Some 1; dateTime := None; timeZone := None |}
                   {| date := Some 2; dateTime := None; timeZone := None |}
                   86400000 172800000 eq_refl _ _ _ eq_refl eq_refl eq_refl eq_refl
                   eq_refl eq_refl _));
    try apply not_elem_of_nil.
  intros p [= <-]. reflexivity.
Defined.

(** X12.  A failure before the relabel is clean.  When the lookup of the
    slot rejects, or the slot is found available and the relabel rejects,
    [book] answers 500 "Failed to book appointment." with calendar and
    ledger as they were, and no insert was attempted. *)
Theorem book_failing_before_the_relabel_writes_nothing (req : Request) (w : World) :
  tokensSet w = true ->
  (EventsGet ∈ rejecting w)
  \/ ((EventsGet ∉ rejecting w)
      /\ (EventsUpdate ∈ rejecting w)
      /\ exists e,
           List.find (has_id (params_eventId req)) (stored (calendar w)) = Some e
           /\ marks_available (summary e) = true) ->
  let w' := snd (book req w) in
  fst (book req w) = Return BOOK_FAILED
  /\ error_kind BOOK_FAILED = Some UpstreamUnavailable
  /\ same_stores w w'
  /\ exists calls,
       trace w' = (trace w ++ calls)%list /\ forallb (fun c => negb (is_insert c)) calls = true.
Proof.
  intros Hauth [Hrej | (Hget & Hrej & e & Hfound & Hyes)]; simpl.
  - rewrite (book_get_rejected req w Hauth Hrej). simpl. repeat split.
    eexists. split; reflexivity.
  - rewrite (book_update_rejected req w Hauth Hget e Hfound Hyes Hrej). simpl. repeat split.
    exists [CallEventsGet CAREGIVER_CALENDAR_ID (params_eventId req);
            CallEventsUpdate CAREGIVER_CALENDAR_ID (params_eventId req)
              (with_summary e "BOOKED")].
    split; [now rewrite <- app_assoc | reflexivity].
Qed.

Lemma book_failing_before_the_relabel_writes_nothing_witness :
  fst (book (request_for 1 "evt-open") (sample_world_without EventsUpdate)) = Return BOOK_FAILED
  /\ same_stores (sample_world_without EventsUpdate)
       (snd (book (request_for 1 "evt-open") (sample_world_without EventsUpdate))).
Proof.
  destruct (book_failing_before_the_relabel_writes_nothing (request_for 1 "evt-open")
              (sample_world_without EventsUpdate) eq_refl) as (H1 & _ & H2 & _).
  - right. split; [decided|]. split; [decided|]. exists slot_open. split; reflexivity.
  - split; [exact H1 | exact H2].
Defined.

(** X13.  A slot that passes the test but has no [start] or no [end] is
    relabelled BOOKED all the same, and only then does reading its bounds
    throw: [book] answers 500, the calendar keeps the new label, no insert is
    attempted and the ledger is as it was. *)
Theorem slot_without_bounds_is_relabelled_and_not_booked
    (req : Request) (w : World) (event : Event) :
  tokensSet w = true ->
  EventsGet ∉ rejecting w ->
  EventsUpdate ∉ rejecting w ->
  List.find (has_id (params_eventId req)) (stored (calendar w)) = Some event ->
  marks_available (summary event) = true ->
  start event = None \/ end_ event = None ->
  let w' := snd (book req w) in
  let eventId := params_eventId req in
  fst (book req w) = Return BOOK_FAILED
  /\ List.find (has_id eventId) (stored (calendar w')) = Some (with_summary event "BOOKED")
  /\ appointments w' = appointments w
  /\ trace w' = (trace w ++ [CallEventsGet CAREGIVER_CALENDAR_ID eventId;
                             CallEventsUpdate CAREGIVER_CALENDAR_ID eventId
                               (with_summary event "BOOKED")])%list.
Proof.
  intros Hauth Hget Hupd Hfound Hyes Hnone. simpl.
  rewrite (book_no_bounds req w Hauth Hget event Hfound Hupd Hyes Hnone).
  split; [reflexivity|]. split; [apply (after_update_stored _ _ _ _ Hfound)|].
  split; [reflexivity|]. simpl. now rewrite <- app_assoc.
Qed.

Lemma slot_without_bounds_is_relabelled_and_not_booked_witness :
  fst (book (request_for 1 "evt-unbounded") unbounded_world) = Return BOOK_FAILED
  /\ List.find (has_id "evt-unbounded")
       (stored (calendar (snd (book (request_for 1 "evt-unbounded") unbounded_world))))
     = Some (with_summary slot_unbounded "BOOKED")
  /\ appointments (snd (book (request_for 1 "evt-unbounded") unbounded_world)) = [].
Proof.
  destruct (slot_without_bounds_is_relabelled_and_not_booked (request_for 1 "evt-unbounded")
              unbounded_world slot_unbounded eq_refl ltac:(apply not_elem_of_nil)
              ltac:(apply not_elem_of_nil) eq_refl eq_refl (or_introl eq_refl))
    as (H1 & H2 & H3 & _).
  auto.
Defined.

(** ** Booking and cancelling, one after the other *)











(** ** What [cancel] does to the rows *)

(** X17.  With [userId] set to a patient and every capability answering,
    [cancel] answers success and turns CANCELLED exactly the BOOKED rows of
    that patient for that slot; a row of another patient, of another slot
    or with another status is left as it is. *)
Theorem cancel_with_userId_cancels_for_that_patient
    (req : Request) (w : World) (event : Event) (p : Z) :
  tokensSet w = true ->
  EventsGet ∉ rejecting w ->
  EventsUpdate ∉ rejecting w ->
  AppointmentUpdateMany ∉ rejecting w ->
  List.find (has_id (params_eventId req)) (stored (calendar w)) = Some event ->
  userId req = Some p ->
  let w' := snd (cancel req w) in
  let picked r :=
    googleEventId r = Some (params_eventId req) /\ patientId r = Some p /\ status r = BOOKED in
  fst (cancel req w) = Return CANCELLED_OK
  /\ appointments w' =
       List.map (fun r => if bool_decide (picked r) then set_status CANCELLED r else r)
         (appointments w)
  /\ (forall r, In r (appointments w) -> picked r -> In (set_status CANCELLED r) (appointments w'))
  /\ (forall r, In r (appointments w) -> ~ picked r -> In r (appointments w')).
Proof.
  intros Hauth Hget Hupd Hledger Hfound Hp. simpl.
  destruct (cancel_handler_rows req w event p Hauth Hget Hupd Hledger Hfound Hp) as [H1 H2].
  split; [exact H1|]. split; [exact H2|]. rewrite H2. split.
  - intros r Hin Hpick. apply List.in_map_iff. exists r. split; [|exact Hin].
    now rewrite bool_decide_eq_true_2.
  - intros r Hin Hpick. apply List.in_map_iff. exists r. split; [|exact Hin].
    now rewrite bool_decide_eq_false_2.
Qed.

Lemma cancel_with_userId_cancels_for_that_patient_witness :
  appointments (snd (cancel (request_for 1 "evt-taken") busy_world))
  = [row_of_ben; set_status CANCELLED row_of_ana; row_cancelled].
Proof.
  destruct (cancel_with_userId_cancels_for_that_patient (request_for 1 "evt-taken") busy_world
              slot_taken 1 eq_refl ltac:(apply not_elem_of_nil) ltac:(apply not_elem_of_nil)
              ltac:(apply not_elem_of_nil) eq_refl eq_refl) as (_ & H & _).
  rewrite H. reflexivity.
Defined.

(** X18.  When the request carries no [userId], the update of [cancel] has
    no condition on the patient: every BOOKED row of the slot is turned
    CANCELLED, whoever its patient is; rows of other slots and rows that are
    not BOOKED stay as they are. *)
Theorem cancel_without_userId_cancels_for_everyone
    (req : Request) (w : World) (event : Event) :
  tokensSet w = true ->
  EventsGet ∉ rejecting w ->
  EventsUpdate ∉ rejecting w ->
  AppointmentUpdateMany ∉ rejecting w ->
  List.find (has_id (params_eventId req)) (stored (calendar w)) = Some event ->
  userId req = None ->
  fst (cancel req w) = Return CANCELLED_OK
  /\ appointments (snd (cancel req w)) =
       List.map
         (fun r =>
            if bool_decide (googleEventId r = Some (params_eventId req) /\ status r = BOOKED)
            then set_status CANCELLED r else r)
         (appointments w)
  /\ (forall r,
        In r (appointments w) ->
        googleEventId r = Some (params_eventId req) ->
        status r = BOOKED ->
        In (set_status CANCELLED r) (appointments (snd (cancel req w)))).
Proof.
  intros Hauth Hget Hupd Hledger Hfound Hp.
  rewrite (cancel_done req w Hauth Hget event Hfound Hupd Hledger). simpl.
  split; [reflexivity|].
  assert (Hrow : forall r,
            update_row (cancel_where req) CANCELLED r =
            if bool_decide (googleEventId r = Some (params_eventId req) /\ status r = BOOKED)
            then set_status CANCELLED r else r).
  { intros r. unfold update_row.
    pose proof (cancel_where_matches_no_userId req r Hp) as Hiff.
    destruct (row_matches (cancel_where req) r).
    - rewrite bool_decide_eq_true_2; [reflexivity|]. now apply Hiff.
    - rewrite bool_decide_eq_false_2; [reflexivity|]. intros H. apply Hiff in H. discriminate. }
  split; [apply List.map_ext; exact Hrow|].
  intros r Hin Hslot Hst. apply List.in_map_iff. exists r. split; [|exact Hin].
  rewrite Hrow, bool_decide_eq_true_2; auto.
Qed.

Lemma cancel_without_userId_cancels_for_everyone_witness :
  appointments (snd (cancel (request_of_ana "evt-taken") busy_world))
  = [set_status CANCELLED row_of_ben; set_status CANCELLED row_of_ana; row_cancelled].
Proof.
  destruct (cancel_without_userId_cancels_for_everyone (request_of_ana "evt-taken") busy_world
              slot_taken eq_refl ltac:(apply not_elem_of_nil) ltac:(apply not_elem_of_nil)
              ltac:(apply not_elem_of_nil) eq_refl eq_refl) as (_ & H & _).
  rewrite H. reflexivity.
Defined.

(** X19.  When the relabel of [cancel] went through and the update of the
    ledger then rejects, [cancel] answers 500 "Failed to cancel
    appointment." and undoes nothing: the slot is stored under the label
    AVAILABLE while every row, the BOOKED ones for that slot included, is
    as it was. *)
Theorem failed_update_leaves_slot_reopened_and_rows_booked
    (req : Request) (w : World) (event : Event) :
  tokensSet w = true ->
  EventsGet ∉ rejecting w ->
  EventsUpdate ∉ rejecting w ->
  AppointmentUpdateMany ∈ rejecting w ->
  List.find (has_id (params_eventId req)) (stored (calendar w)) = Some event ->
  let w' := snd (cancel req w) in
  fst (cancel req w) = Return CANCEL_FAILED
  /\ error_kind CANCEL_FAILED = Some UpstreamUnavailable
  /\ List.find (has_id (params_eventId req)) (stored (calendar w'))
     = Some (with_summary event "AVAILABLE")
  /\ appointments w' = appointments w.
Proof.
  intros Hauth Hget Hupd Hrej Hfound. simpl.
  rewrite (cancel_ledger_rejected req w Hauth Hget event Hfound Hupd Hrej).
  split; [reflexivity|]. split; [reflexivity|].
  split; [apply (after_update_stored _ _ _ _ Hfound) | reflexivity].
Qed.

Lemma failed_update_leaves_slot_reopened_and_rows_booked_witness :
  fst (cancel (request_for 2 "evt-taken") (sample_world_without AppointmentUpdateMany))
  = Return CANCEL_FAILED
  /\ List.find (has_id "evt-taken")
       (stored (calendar (snd (cancel (request_for 2 "evt-taken")
                                 (sample_world_without AppointmentUpdateMany)))))
     = Some (with_summary slot_taken "AVAILABLE")
  /\ appointments (snd (cancel (request_for 2 "evt-taken")
                          (sample_world_without AppointmentUpdateMany)))
     = [row_of_ben].
Proof.
  destruct (failed_update_leaves_slot_reopened_and_rows_booked (request_for 2 "evt-taken")
              (sample_world_without AppointmentUpdateMany) slot_taken
              eq_refl ltac:(decided) ltac:(decided) ltac:(decided) eq_refl)
    as (H1 & _ & H2 & H3).
  auto.
Defined.






(** X21.  [cancel] never inserts and never removes a row: in every case
    the rows keep their keys, in place, and the sequence is not advanced;
    and unless it answers success the rows are exactly as they were. *)
Theorem cancel_keeps_the_rows_in_place (req : Request) (w : World) :
  let w' := snd (cancel req w) in
  List.map appt_id (appointments w') = List.map appt_id (appointments w)
  /\ length (appointments w') = length (appointments w)
  /\ appointment_seq w' = appointment_seq w
  /\ (fst (cancel req w) <> Return CANCELLED_OK -> appointments w' = appointments w).
Proof.
  simpl.
  destruct (cancel_cases req w) as [[_ H]|[H|[(e&_&H)|[(e&_&H)|(e&_&H)]]]];
    rewrite H; simpl; try (repeat split; fail).
  split; [|split; [|split]].
  - rewrite List.map_map. apply List.map_ext. intros r. unfold update_row.
    destruct (row_matches _ r); reflexivity.
  - apply List.length_map.
  - reflexivity.
  - intros Hne. now contradiction Hne.
Qed.

(** ** What a route leaves alone *)

Section Keeps.

Context {A : Type} (f : World -> A).
Hypothesis f_log : forall c w, f (log c w) = f w.

Lemma keeps_ret {B} (b : B) : keeps f (ret b).
Proof. intros w. reflexivity. Qed.

Lemma keeps_throw {B} (e : Exn) : keeps f (@throw B e).
Proof. intros w. reflexivity. Qed.

Lemma keeps_read {B} (g : World -> B) : keeps f (read g).
Proof. intros w. reflexivity. Qed.

Lemma keeps_bind {B C} (m : Eff B) (k : B -> Eff C) :
  keeps f m -> (forall b, keeps f (k b)) -> keeps f (bind m k).
Proof.
  intros Hm Hk w. unfold bind. specialize (Hm w).
  destruct (m w) as [[b|e] w1]; simpl in *; [|exact Hm].
  now rewrite Hk.
Qed.

Lemma keeps_try_catch {B} (m : Eff B) (h : Exn -> Eff B) :
  keeps f m -> (forall e, keeps f (h e)) -> keeps f (try_catch m h).
Proof.
  intros Hm Hh w. unfold try_catch. specialize (Hm w).
  destruct (m w) as [[b|e] w1]; simpl in *; [exact Hm|].
  now rewrite Hh.
Qed.

Lemma keeps_call (cap : Capability) (c : Call) : keeps f (call cap c).
Proof. intros w. rewrite call_world. apply f_log. Qed.

Lemma keeps_events_list (q : ListQuery) : keeps f (events_list q).
Proof.
  unfold events_list. apply keeps_bind; [apply keeps_call|]. intros _.
  destruct (negb _); [apply keeps_throw|].
  apply keeps_bind; [apply keeps_read|]. intros cal.
  destruct (orderBy q) as [[]|]; [destruct (singleEvents q)| |];
    auto using keeps_ret, keeps_throw.
Qed.

Lemma keeps_events_get (c e : string) : keeps f (events_get c e).
Proof.
  unfold events_get. apply keeps_bind; [apply keeps_call|]. intros _.
  destruct (negb _); [apply keeps_throw|].
  apply keeps_bind; [apply keeps_read|]. intros cal.
  destruct (List.find _ _); [apply keeps_ret | apply keeps_throw].
Qed.

Lemma keeps_appointment_findMany (wh : AppointmentWhere) : keeps f (appointment_findMany wh).
Proof.
  unfold appointment_findMany. apply keeps_bind; [apply keeps_call|]. intros _.
  apply keeps_bind; [apply keeps_read|]. intros rows. apply keeps_ret.
Qed.

Lemma keeps_user_findUnique (id : Z) : keeps f (user_findUnique id).
Proof.
  unfold user_findUnique. apply keeps_bind; [apply keeps_call|]. intros _.
  apply keeps_bind; [apply keeps_read|]. intros us. apply keeps_ret.
Qed.

Lemma keeps_login (authUrl : string) (req : Request) : keeps f (login authUrl req).
Proof. apply keeps_ret. Qed.

Lemma keeps_available (oneMonthAfter : Instant -> Instant) (req : Request) :
  keeps f (available oneMonthAfter req).
Proof.
  unfold available. apply keeps_bind; [apply keeps_read|]. intros authorized.
  destruct (negb _); [apply keeps_ret|].
  apply keeps_try_catch; [|intros; apply keeps_ret].
  apply keeps_bind; [apply keeps_read|]. intros now.
  apply keeps_bind; [apply keeps_events_list|]. intros response. apply keeps_ret.
Qed.

Lemma keeps_mine (req : Request) : keeps f (mine req).
Proof.
  unfold mine. apply keeps_try_catch; [|intros; apply keeps_ret].
  apply keeps_bind; [apply keeps_appointment_findMany|]. intros rows. apply keeps_ret.
Qed.

Lemma keeps_authMiddleware (jwt_verify : string -> option Z) (req : Request)
    (next : Request -> Eff Response) :
  (forall r, keeps f (next r)) -> keeps f (authMiddleware jwt_verify req next).
Proof.
  intros Hnext. unfold authMiddleware.
  destruct (headers_authorization req) as [h|]; [|apply keeps_ret].
  destruct (String.eqb h ""); [apply keeps_ret|].
  apply keeps_try_catch; [|intros; apply keeps_ret].
  apply keeps_bind; [destruct (jwt_verify _); [apply keeps_ret|apply keeps_throw]|].
  intros id. apply keeps_bind; [apply keeps_user_findUnique|].
  intros [u|]; [apply Hnext|apply keeps_ret].
Qed.

(** When [f] does not look at the calendar or at the ledger either. *)
Hypothesis f_calendar : forall c w, f (set_calendar c w) = f w.
Hypothesis f_rows : forall rows n w, f (set_appointments rows n w) = f w.

Lemma keeps_events_update (c e : string) (r : Event) : keeps f (events_update c e r).
Proof.
  unfold events_update. apply keeps_bind; [apply keeps_call|]. intros _.
  destruct (negb _); [apply keeps_throw|].
  apply keeps_bind; [apply keeps_read|]. intros cal.
  destruct (List.find _ _); [|apply keeps_throw].
  apply keeps_bind; [|intros _; apply keeps_ret].
  intros w. apply f_calendar.
Qed.

Lemma keeps_appointment_create (data : AppointmentData) : keeps f (appointment_create data).
Proof.
  unfold appointment_create. apply keeps_bind; [apply keeps_call|]. intros _.
  destruct (d_startTime data), (d_endTime data); try apply keeps_throw.
  apply keeps_bind; [apply keeps_read|]. intros us.
  apply keeps_bind; [apply keeps_read|]. intros rows.
  apply keeps_bind; [apply keeps_read|]. intros n.
  apply keeps_bind; [apply keeps_read|]. intros now.
  destruct (match d_patientId data with Some p => user_exists us p | None => true end).
  - apply keeps_bind; [|intros _; apply keeps_ret]. intros w. apply f_rows.
  - apply keeps_bind; [|intros _; apply keeps_throw]. intros w. apply f_rows.
Qed.

Lemma keeps_appointment_updateMany (wh : AppointmentWhere) (s : AppointmentStatus) :
  keeps f (appointment_updateMany wh s).
Proof.
  unfold appointment_updateMany. apply keeps_bind; [apply keeps_call|]. intros _.
  apply keeps_bind; [apply keeps_read|]. intros rows.
  apply keeps_bind; [apply keeps_read|]. intros n.
  apply keeps_bind; [|intros _; apply keeps_ret].
  intros w. apply f_rows.
Qed.

Lemma keeps_book (req : Request) : keeps f (book req).
Proof.
  unfold book, iso_of. apply keeps_bind; [apply keeps_read|]. intros authorized.
  destruct (negb _); [apply keeps_ret|].
  apply keeps_try_catch; [|intros; apply keeps_ret].
  apply keeps_bind; [apply keeps_events_get|]. intros [event|]; [|apply keeps_ret].
  destruct (negb _); [apply keeps_ret|].
  apply keeps_bind; [apply keeps_events_update|]. intros _.
  apply keeps_bind; [destruct (start event); [apply keeps_ret|apply keeps_throw]|]. intros startIso.
  apply keeps_bind; [destruct (end_ event); [apply keeps_ret|apply keeps_throw]|]. intros endIso.
  apply keeps_bind; [apply keeps_appointment_create|]. intros row. apply keeps_ret.
Qed.

Lemma keeps_cancel (req : Request) : keeps f (cancel req).
Proof.
  unfold cancel. apply keeps_bind; [apply keeps_read|]. intros authorized.
  destruct (negb _); [apply keeps_ret|].
  apply keeps_try_catch; [|intros; apply keeps_ret].
  apply keeps_bind; [apply keeps_events_get|]. intros [event|]; [|apply keeps_ret].
  apply keeps_bind; [apply keeps_events_update|]. intros _.
  apply keeps_bind; [apply keeps_appointment_updateMany|]. intros n. apply keeps_ret.
Qed.

End Keeps.

Lemma redirect_flag (req : Request) (w : World) :
  (tokensSet (snd (redirect req w)) = tokensSet w
   /\ fst (redirect req w) <> Return (Redirect "/"))
  \/ (tokensSet (snd (redirect req w)) = true
      /\ fst (redirect req w) = Return (Redirect "/")).
Proof.
  destruct (query_code req) as [code|] eqn:Hc.
  2:{ left. rewrite (redirect_no_code req w (or_introl Hc)). split; [reflexivity|discriminate]. }
  destruct (String.eqb_spec code "") as [->|Hne].
  { left. rewrite (redirect_no_code req w (or_intror Hc)). split; [reflexivity|discriminate]. }
  destruct (decide (OAuthGetToken ∈ rejecting w)) as [Hrej|Hok].
  - left. rewrite (redirect_exchange_rejected req w code Hc Hne Hrej).
    split; [reflexivity|discriminate].
  - right. rewrite (redirect_exchanged req w code Hc Hne Hok). split; reflexivity.
Qed.

#[global] Instance Route_eq_dec : EqDecision Route.
Proof. solve_decision. Defined.

Lemma router_keeps_flag
    (jwt_verify : string -> option Z) (oneMonthAfter : Instant -> Instant) (authUrl : string)
    (route : Route) (req : Request) (w : World) :
  route <> GET_redirect ->
  tokensSet (snd (router jwt_verify oneMonthAfter authUrl route req w)) = tokensSet w.
Proof.
  intros Hroute. destruct route; simpl; [reflexivity | contradiction | | | |];
    apply (keeps_authMiddleware tokensSet); try (intros; reflexivity); intros r.
  - apply keeps_available. intros; reflexivity.
  - apply keeps_book; intros; reflexivity.
  - apply keeps_cancel; intros; reflexivity.
  - apply keeps_mine. intros; reflexivity.
Qed.

(** X22.  The flag is only ever set, and only by [redirect]: every other
    route leaves it as it is, no route clears it, and when it goes from
    unset to set the route was [redirect] answering its redirection to
    "/". *)
Theorem flag_is_set_by_redirect_and_never_cleared
    (jwt_verify : string -> option Z) (oneMonthAfter : Instant -> Instant) (authUrl : string)
    (route : Route) (req : Request) (w : World) :
  let result := router jwt_verify oneMonthAfter authUrl route req w in
  (route <> GET_redirect -> tokensSet (snd result) = tokensSet w)
  /\ (tokensSet w = true -> tokensSet (snd result) = true)
  /\ (tokensSet w = false -> tokensSet (snd result) = true ->
      route = GET_redirect /\ fst result = Return (Redirect "/")).
Proof.
  simpl. split; [apply router_keeps_flag|].
  destruct (decide (route = GET_redirect)) as [->|Hroute].
  - simpl. destruct (redirect_flag req w) as [[H1 H2]|[H1 H2]]; rewrite H1.
    + split; [auto|]. intros Hf Ht. congruence.
    + split; auto.
  - rewrite (router_keeps_flag _ _ _ _ _ _ Hroute). split; [auto|]. congruence.
Qed.

Lemma flag_is_set_by_redirect_and_never_cleared_witness :
  tokensSet (snd (router sample_jwt sample_month "" POST_cancel
                    (request_of_ana "evt-taken") sample_world)) = true
  /\ tokensSet (snd (router sample_jwt sample_month "" GET_redirect
                       (request_with_code (Some "4/0Axyz"))
                       (sample_world_without OAuthGetToken))) = true.
Proof.
  split.
  - apply (flag_is_set_by_redirect_and_never_cleared sample_jwt sample_month "" POST_cancel
             (request_of_ana "evt-taken") sample_world). reflexivity.
  - apply (flag_is_set_by_redirect_and_never_cleared sample_jwt sample_month "" GET_redirect
             (request_with_code (Some "4/0Axyz")) (sample_world_without OAuthGetToken)).
    reflexivity.
Defined.

Lemma keeps_tables_redirect (req : Request) : keeps tables (redirect req).
Proof.
  unfold redirect, oauth_getToken. destruct (query_code req) as [code|]; [|apply keeps_ret].
  destruct (String.eqb code ""); [apply keeps_ret|].
  apply keeps_try_catch; [|intros; apply keeps_ret].
  apply keeps_bind; [apply keeps_call; intros; reflexivity|]. intros _.
  apply keeps_bind; [intros w; reflexivity|]. intros _. apply keeps_ret.
Qed.

(** X23.  The routes that read write nothing.  [login], [redirect],
    [available] and [mine] leave calendar, ledger, sequence and users as
    they were, for every request and every world, whatever the guard
    decides and whichever call rejects; and no route at all changes the
    table of users. *)
Theorem reading_routes_write_nothing
    (jwt_verify : string -> option Z) (oneMonthAfter : Instant -> Instant) (authUrl : string)
    (route : Route) (req : Request) (w : World) :
  let w' := snd (router jwt_verify oneMonthAfter authUrl route req w) in
  (route <> POST_book -> route <> POST_cancel ->
   calendar w' = calendar w
   /\ appointments w' = appointments w
   /\ appointment_seq w' = appointment_seq w)
  /\ users w' = users w.
Proof.
  simpl. split.
  - intros Hb Hc.
    assert (H : tables (snd (router jwt_verify oneMonthAfter authUrl route req w)) = tables w).
    { destruct route; simpl; try contradiction.
      - reflexivity.
      - apply keeps_tables_redirect.
      - apply (keeps_authMiddleware tables); try (intros; reflexivity).
        intros r. apply keeps_available. intros; reflexivity.
      - apply (keeps_authMiddleware tables); try (intros; reflexivity).
        intros r. apply keeps_mine. intros; reflexivity. }
    unfold tables in H. injection H as H1 H2 H3 H4. auto.
  - destruct route; simpl.
    + reflexivity.
    + pose proof (keeps_tables_redirect req w) as H. unfold tables in H. congruence.
    + apply (keeps_authMiddleware users); try (intros; reflexivity).
      intros r. apply keeps_available. intros; reflexivity.
    + apply (keeps_authMiddleware users); try (intros; reflexivity).
      intros r. apply keeps_book; intros; reflexivity.
    + apply (keeps_authMiddleware users); try (intros; reflexivity).
      intros r. apply keeps_cancel; intros; reflexivity.
    + apply (keeps_authMiddleware users); try (intros; reflexivity).
      intros r. apply keeps_mine. intros; reflexivity.
Qed.

Lemma reading_routes_write_nothing_witness :
  appointments (snd (router sample_jwt sample_month "" GET_available
                       (request_of_ana "") (sample_world_without EventsList)))
  = [row_of_ben].
Proof.
  apply (reading_routes_write_nothing sample_jwt sample_month "" GET_available
           (request_of_ana "") (sample_world_without EventsList)); discriminate.
Defined.

(** ** Listing one's bookings *)

#[global] Instance startTime_le_total : Total startTime_le.
Proof. intros r1 r2. unfold startTime_le. lia. Qed.

#[global] Instance startTime_le_trans : Transitive startTime_le.
Proof. intros r1 r2 r3. unfold startTime_le. lia. Qed.

Lemma mine_where_matches (req : Request) (r : Appointment) :
  row_matches (mine_where req) r = true <->
  (forall p, userId req = Some p -> patientId r = Some p) /\ status r = BOOKED.
Proof.
  unfold row_matches, mine_where. simpl.
  destruct (userId req) as [p|]; simpl;
    rewrite ?andb_true_iff, ?bool_decide_eq_true; split.
  - intros [H1 H2]. split; [|congruence]. intros q Hq. congruence.
  - intros [H1 H2]. rewrite H2. auto.
  - intros H2. split; [discriminate|congruence].
  - intros [_ H2]. now rewrite H2.
Qed.

Lemma mine_rows (req : Request) (w : World) :
  AppointmentFindMany ∉ rejecting w ->
  exists rows,
    mine req w =
      (Return (Json 200 (JsonAppointments rows)), log (CallAppointmentFindMany (mine_where req)) w)
    /\ rows ≡ₚ List.filter (row_matches (mine_where req)) (appointments w)
    /\ StronglySorted startTime_le rows
    /\ (forall r,
          In r rows <->
          In r (appointments w)
          /\ (forall p, userId req = Some p -> patientId r = Some p)
          /\ status r = BOOKED).
Proof.
  intros Hcap. eexists. split; [apply (mine_ok req w Hcap)|].
  fold (mine_where req).
  split; [apply merge_sort_Permutation|].
  split; [apply StronglySorted_merge_sort; apply _|].
  intros r. rewrite <- list_elem_of_In, merge_sort_Permutation, list_elem_of_In.
  rewrite List.filter_In, mine_where_matches. tauto.
Qed.

(** X24.  With [userId] set to a patient and the ledger answering, [mine]
    answers 200 with exactly the BOOKED rows of that patient -- no CANCELLED
    row, no row of anyone else -- each once per row of the ledger, by
    ascending start time, and changes nothing. *)
Theorem mine_lists_the_bookings_of_the_patient (req : Request) (w : World) (p : Z) :
  AppointmentFindMany ∉ rejecting w ->
  userId req = Some p ->
  let w' := snd (mine req w) in
  exists rows,
    fst (mine req w) = Return (Json 200 (JsonAppointments rows))
    /\ rows ≡ₚ
         List.filter (fun r => bool_decide (patientId r = Some p /\ status r = BOOKED))
           (appointments w)
    /\ StronglySorted startTime_le rows
    /\ (forall r,
          In r rows <-> In r (appointments w) /\ patientId r = Some p /\ status r = BOOKED)
    /\ same_stores w w'.
Proof.
  intros Hcap Hp. simpl.
  destruct (mine_rows req w Hcap) as (rows & Heq & Hperm & Hsorted & Hmem).
  exists rows. rewrite Heq. split; [reflexivity|]. split; [|split; [exact Hsorted|split]].
  - rewrite Hperm. erewrite List.filter_ext; [reflexivity|]. intros r. simpl.
    pose proof (mine_where_matches req r) as Hiff.
    destruct (row_matches (mine_where req) r).
    + symmetry. apply bool_decide_eq_true. destruct Hiff as [[H1 H2] _]; auto.
    + symmetry. apply bool_decide_eq_false. intros [H1 H2].
      destruct Hiff as [_ Hiff]. discriminate Hiff. split; [|exact H2].
      intros q Hq. congruence.
  - intros r. rewrite Hmem. split.
    + intros (H1 & H2 & H3). auto.
    + intros (H1 & H2 & H3). split; [exact H1|]. split; [|exact H3]. intros q Hq. congruence.
  - apply same_stores_log.
Qed.

Lemma mine_lists_the_bookings_of_the_patient_witness :
  exists rows,
    fst (mine (request_for 1 "") busy_world) = Return (Json 200 (JsonAppointments rows))
    /\ In row_of_ana rows
    /\ ~ In row_of_ben rows
    /\ ~ In row_cancelled rows.
Proof.
  destruct (mine_lists_the_bookings_of_the_patient (request_for 1 "") busy_world 1
              ltac:(apply not_elem_of_nil) eq_refl) as (rows & H & _ & _ & Hmem & _).
  exists rows. split; [exact H|]. split; [|split].
  - apply Hmem. split; [right; left; reflexivity|]. split; reflexivity.
  - intros Hin. apply Hmem in Hin. destruct Hin as (_ & Hp & _). discriminate Hp.
  - intros Hin. apply Hmem in Hin. destruct Hin as (_ & _ & Hs). discriminate Hs.
Defined.

Lemma ana_authenticates_busy (eventId : string) :
  authenticates sample_jwt busy_world (request_of_ana eventId) ana.
Proof.
  exists "Bearer token-ana". repeat split; try reflexivity; try discriminate.
  apply not_elem_of_nil.
Qed.

(** X25.  Through the router, a request that passes the guard and carries
    no [userId] of its own -- the guard sets [user], not [userId] -- is
    answered by [mine] with the BOOKED rows of every patient, by ascending
    start time. *)
Theorem mine_behind_the_guard_lists_every_booking
    (jwt_verify : string -> option Z) (oneMonthAfter : Instant -> Instant) (authUrl : string)
    (req : Request) (w : World) (u : User) :
  authenticates jwt_verify w req u ->
  userId req = None ->
  AppointmentFindMany ∉ rejecting w ->
  exists rows,
    fst (router jwt_verify oneMonthAfter authUrl GET_mine req w)
      = Return (Json 200 (JsonAppointments rows))
    /\ StronglySorted startTime_le rows
    /\ (forall r, In r rows <-> In r (appointments w) /\ status r = BOOKED).
Proof.
  intros Hauth Hp Hcap.
  rewrite (patient_route_behind_guard _ oneMonthAfter authUrl GET_mine _ _ _ Hauth). simpl.
  destruct (mine_rows (set_user req u) (log (CallUserFindUnique (user_id u)) w) Hcap)
    as (rows & Heq & _ & Hsorted & Hmem).
  exists rows. rewrite Heq. split; [reflexivity|]. split; [exact Hsorted|].
  intros r. rewrite Hmem. simpl. rewrite Hp. split.
  - intros (H1 & _ & H3). auto.
  - intros (H1 & H3). split; [exact H1|]. split; [discriminate|exact H3].
Qed.

Lemma mine_behind_the_guard_lists_every_booking_witness :
  exists rows,
    fst (router sample_jwt sample_month "" GET_mine (request_of_ana "") busy_world)
      = Return (Json 200 (JsonAppointments rows))
    /\ In row_of_ana rows
    /\ In row_of_ben rows.
Proof.
  destruct (mine_behind_the_guard_lists_every_booking sample_jwt sample_month ""
              (request_of_ana "") busy_world ana (ana_authenticates_busy "")
              eq_refl ltac:(apply not_elem_of_nil)) as (rows & H & _ & Hmem).
  exists rows. split; [exact H|]. split; apply Hmem.
  - split; [right; left; reflexivity | reflexivity].
  - split; [left; reflexivity | reflexivity].
Defined.

(** X26.  When the query rejects, [mine] answers 500 with the JSON message
    "Failed to load appointments" -- the one failure of these routes that is
    a JSON body and not a text -- and changes nothing. *)
Theorem mine_reports_a_failed_query (req : Request) (w : World) :
  AppointmentFindMany ∈ rejecting w ->
  let w' := snd (mine req w) in
  fst (mine req w) = Return MINE_FAILED
  /\ error_kind MINE_FAILED = Some UpstreamUnavailable
  /\ same_stores w w'
  /\ trace w' = (trace w ++ [CallAppointmentFindMany (mine_where req)])%list.
Proof.
  intros Hrej. simpl.
  assert (H : mine req w =
              (Return MINE_FAILED, log (CallAppointmentFindMany (mine_where req)) w)).
  { unfold mine, try_catch, bind at 1, appointment_findMany, bind at 1.
    rewrite (call_rejected _ _ _ Hrej). reflexivity. }
  rewrite H. repeat split.
Qed.

Lemma mine_reports_a_failed_query_witness :
  fst (mine (request_for 1 "") (sample_world_without AppointmentFindMany)) = Return MINE_FAILED.
Proof.
  apply (mine_reports_a_failed_query (request_for 1 "")
           (sample_world_without AppointmentFindMany)). decided.
Defined.

(** X27.  When the listing rejects, [available] answers 500 "Failed to
    fetch available slots." after that one call, and changes nothing. *)
Theorem available_reports_a_failed_listing
    (oneMonthAfter : Instant -> Instant) (req : Request) (w : World) :
  tokensSet w = true ->
  EventsList ∈ rejecting w ->
  let w' := snd (available oneMonthAfter req w) in
  fst (available oneMonthAfter req w) = Return LIST_FAILED
  /\ error_kind LIST_FAILED = Some UpstreamUnavailable
  /\ same_stores w w'
  /\ trace w' = (trace w ++ [CallEventsList (available_query oneMonthAfter w)])%list.
Proof.
  intros Hauth Hrej. simpl.
  rewrite (available_list_rejected oneMonthAfter req w Hauth Hrej). repeat split.
Qed.

Lemma available_reports_a_failed_listing_witness :
  fst (available sample_month (request_for 1 "") (sample_world_without EventsList))
  = Return LIST_FAILED.
Proof.
  apply (available_reports_a_failed_listing sample_month (request_for 1 "")
           (sample_world_without EventsList)); [reflexivity | decided].
Defined.

(** ** The other slots, and the keys *)

Lemma after_update_other (eventId k : string) (e : Event) (label : string) (w : World) :
  List.find (has_id eventId) (stored (calendar w)) = Some e ->
  k <> eventId ->
  List.find (has_id k) (stored (calendar (after_update eventId (with_summary e label) w)))
  = List.find (has_id k) (stored (calendar w)).
Proof.
  intros Hfound Hk. simpl. rewrite stored_overwrite.
  apply find_overwrite_other; [|exact Hk].
  rewrite has_id_with_summary. apply find_has_id in Hfound.
  unfold has_id. rewrite Hfound. apply String.eqb_neq. congruence.
Qed.

(** X28.  [book] and [cancel] touch no slot but the one of the request:
    in every case, whatever the calendar stores under any other id is after
    the call what it was before. *)
Theorem other_slots_are_left_alone (req : Request) (w : World) (k : string) :
  k <> params_eventId req ->
  List.find (has_id k) (stored (calendar (snd (book req w))))
    = List.find (has_id k) (stored (calendar w))
  /\ List.find (has_id k) (stored (calendar (snd (cancel req w))))
    = List.find (has_id k) (stored (calendar w)).
Proof.
  intros Hk. split.
  - destruct (book_cases req w)
      as [[_ H]|[H|[H|[(e&Hf&H)|[(e&Hf&H)|[(e&s&t&Hf&H)|(e&s&t&Hc&H)]]]]]];
      rewrite H; try reflexivity.
    + apply (after_update_other _ _ _ _ _ Hf Hk).
    + destruct (after_rejected_insert_frame (booking_data req s t)
                  (after_update (params_eventId req) (with_summary e "BOOKED") w))
        as (_ & Hcal & _).
      unfold snd. rewrite Hcal. apply (after_update_other _ _ _ _ _ Hf Hk).
    + destruct Hc as (_ & _ & _ & Hf & _). apply (after_update_other _ _ _ _ _ Hf Hk).
  - destruct (cancel_cases req w) as [[_ H]|[H|[(e&Hf&H)|[(e&Hf&H)|(e&Hc&H)]]]];
      rewrite H; try reflexivity.
    + apply (after_update_other _ _ _ _ _ Hf Hk).
    + destruct Hc as (_ & _ & _ & _ & Hf). apply (after_update_other _ _ _ _ _ Hf Hk).
Qed.

Lemma other_slots_are_left_alone_witness :
  List.find (has_id "evt-taken")
    (stored (calendar (snd (book (request_for 1 "evt-open") sample_world))))
  = Some slot_taken.
Proof.
  refine (eq_trans (proj1 (other_slots_are_left_alone (request_for 1 "evt-open")
                             sample_world "evt-taken" _)) _);
    [discriminate | reflexivity].
Defined.

Lemma user_findUnique_world (id : Z) (w : World) :
  snd (user_findUnique id w) = log (CallUserFindUnique id) w.
Proof.
  unfold user_findUnique, bind at 1.
  pose proof (call_world UserFindUnique (CallUserFindUnique id) w) as Hc.
  destruct (call UserFindUnique (CallUserFindUnique id) w) as [[[]|e] w1]; simpl in *;
    now subst w1.
Qed.

Lemma snd_try_catch_ret {A} (m : Eff A) (a : A) (w : World) :
  snd (try_catch m (fun _ => ret a) w) = snd (m w).
Proof. unfold try_catch, ret. destruct (m w) as [[x|e] w1]; reflexivity. Qed.

(** The world the guard leaves: the one it found, that one with the lookup
    traced, or the one the handler leaves after the lookup. *)
Lemma guard_world (jwt_verify : string -> option Z) (next : Request -> Eff Response)
    (req : Request) (w : World) :
  snd (authMiddleware jwt_verify req next w) = w
  \/ (exists id, snd (authMiddleware jwt_verify req next w) = log (CallUserFindUnique id) w)
  \/ (exists id u,
        snd (authMiddleware jwt_verify req next w)
        = snd (next (set_user req u) (log (CallUserFindUnique id) w))).
Proof.
  unfold authMiddleware.
  destruct (headers_authorization req) as [h|]; [|left; reflexivity].
  destruct (String.eqb h ""); [left; reflexivity|].
  rewrite snd_try_catch_ret.
  destruct (jwt_verify (bearer_token h)) as [id|]; [|left; reflexivity].
  cbv [bind ret].
  pose proof (user_findUnique_world id w) as Hw.
  destruct (user_findUnique id w) as [[[u|]|e] w1]; simpl in *; subst w1.
  - right. right. exists id, u. reflexivity.
  - right. left. exists id. reflexivity.
  - right. left. exists id. reflexivity.
Qed.

(** ** The primary key *)

Lemma guard_maintains (P : World -> Prop) (jwt_verify : string -> option Z)
    (next : Request -> Eff Response) (req : Request) (w : World) :
  (forall c w0, P w0 -> P (log c w0)) ->
  (forall r w0, P w0 -> P (snd (next r w0))) ->
  P w -> P (snd (authMiddleware jwt_verify req next w)).
Proof.
  intros Hlog Hnext HP.
  destruct (guard_world jwt_verify next req w) as [H|[(id & H)|(id & u & H)]]; rewrite H; auto.
Qed.

Lemma primary_key_same (w w' : World) :
  appointments w' = appointments w ->
  appointment_seq w' = appointment_seq w ->
  primary_key_ok w -> primary_key_ok w'.
Proof. unfold primary_key_ok, keys_below_seq. intros -> ->. auto. Qed.

(** A value of the sequence spent on no row keeps the key. *)
Lemma primary_key_spent (w w' : World) :
  appointments w' = appointments w ->
  appointment_seq w <= appointment_seq w' ->
  primary_key_ok w -> primary_key_ok w'.
Proof.
  unfold primary_key_ok, keys_below_seq. intros -> Hseq [Hnd Hkeys]. split; [exact Hnd|].
  eapply List.Forall_impl; [|exact Hkeys]. simpl. intros; lia.
Qed.

Lemma primary_key_book (req : Request) (w : World) :
  primary_key_ok w -> primary_key_ok (snd (book req w)).
Proof.
  intros HP.
  destruct (book_cases req w)
    as [[_ H]|[H|[H|[(e&_&H)|[(e&_&H)|[(e&s&t&_&H)|(e&s&t&_&H)]]]]]];
    rewrite H; try (apply (primary_key_same w); [reflexivity|reflexivity|exact HP]).
  { destruct (after_rejected_insert_frame (booking_data req s t)
                (after_update (params_eventId req) (with_summary e "BOOKED") w))
      as (_ & _ & Hrows & _ & _ & _ & _ & Hseq).
    apply (primary_key_spent w); [exact Hrows | | exact HP].
    unfold snd. simpl in Hseq. destruct Hseq as [-> | [-> _]]; lia. }
  destruct HP as [Hnd Hkeys]. unfold primary_key_ok, keys_below_seq in *. simpl. split.
  - rewrite List.map_app. simpl. apply list.NoDup_app. split; [exact Hnd|]. split.
    + intros k Hk Hin. apply list_elem_of_singleton in Hin. subst k.
      apply list_elem_of_In, List.in_map_iff in Hk as (r & Hr & Hin).
      rewrite List.Forall_forall in Hkeys. specialize (Hkeys r Hin). simpl in Hkeys. lia.
    + apply list.NoDup_singleton.
  - apply Forall_app. split.
    + eapply List.Forall_impl; [|exact Hkeys]. simpl. intros; lia.
    + constructor; [simpl; lia|constructor].
Qed.

Lemma primary_key_cancel (req : Request) (w : World) :
  primary_key_ok w -> primary_key_ok (snd (cancel req w)).
Proof.
  intros HP.
  destruct (cancel_cases req w) as [[_ H]|[H|[(e&_&H)|[(e&_&H)|(e&_&H)]]]];
    rewrite H; try (apply (primary_key_same w); [reflexivity|reflexivity|exact HP]).
  assert (Hids : forall r, appt_id (update_row (cancel_where req) CANCELLED r) = appt_id r).
  { intros r. unfold update_row. destruct (row_matches _ r); reflexivity. }
  destruct HP as [Hnd Hkeys]. unfold primary_key_ok, keys_below_seq in *. simpl. split.
  - rewrite List.map_map. erewrite List.map_ext; [exact Hnd|]. exact Hids.
  - rewrite List.Forall_forall in *. intros r' Hin.
    apply List.in_map_iff in Hin as (r & <- & Hin). rewrite Hids. auto.
Qed.

(** X29.  The primary key holds under every route: if no two rows of the
    ledger share a key and the sequence is past every key, the same is true
    after any route, called with any request, whatever it answers. *)
Theorem every_row_keeps_its_own_key
    (jwt_verify : string -> option Z) (oneMonthAfter : Instant -> Instant) (authUrl : string)
    (route : Route) (req : Request) (w : World) :
  primary_key_ok w ->
  primary_key_ok (snd (router jwt_verify oneMonthAfter authUrl route req w)).
Proof.
  intros HP.
  assert (Hlog : forall c w0, primary_key_ok w0 -> primary_key_ok (log c w0)) by (intros; assumption).
  assert (Hkeep : forall (m : Eff Response) w0,
            keeps tables m -> primary_key_ok w0 -> primary_key_ok (snd (m w0))).
  { intros m w0 Hm H0. specialize (Hm w0). unfold tables in Hm. injection Hm as _ H2 H3 _.
    now apply (primary_key_same w0). }
  destruct route; simpl.
  - exact HP.
  - apply Hkeep; [apply keeps_tables_redirect | exact HP].
  - apply guard_maintains; [exact Hlog | | exact HP]. intros r w0.
    apply Hkeep. apply keeps_available. intros; reflexivity.
  - apply guard_maintains; [exact Hlog | | exact HP]. intros r w0. apply primary_key_book.
  - apply guard_maintains; [exact Hlog | | exact HP]. intros r w0. apply primary_key_cancel.
  - apply guard_maintains; [exact Hlog | | exact HP]. intros r w0.
    apply Hkeep. apply keeps_mine. intros; reflexivity.
Qed.

Lemma every_row_keeps_its_own_key_witness :
  primary_key_ok
    (snd (router sample_jwt sample_month "" POST_book (request_of_ana "evt-open") busy_world)).
Proof.
  apply (every_row_keeps_its_own_key sample_jwt sample_month "" POST_book
           (request_of_ana "evt-open") busy_world).
  split; [decided | repeat constructor].
Defined.

Lemma cancel_keeps_the_rows_in_place_witness :
  List.map appt_id (appointments (snd (cancel (request_of_ana "evt-taken") busy_world)))
  = [1; 2; 3]
  /\ appointments (snd (cancel (request_for 1 "evt-missing") busy_world))
     = appointments busy_world.
Proof.
  split.
  - apply (cancel_keeps_the_rows_in_place (request_of_ana "evt-taken") busy_world).
  - apply (cancel_keeps_the_rows_in_place (request_for 1 "evt-missing") busy_world).
    discriminate.
Defined.
